(** * The penguins game state of the socha client

    A shallow embedding of [socha/api/plugin/penguins/game_state.py]:
    the class [GameState] with its properties and methods, over an explicit
    store of Python objects.  The collaborators of the class that live in
    other modules ([Board], [Field], [Move], the coordinates) enter through
    an interface whose contract is the one the specification gives. *)

From Stdlib Require Import ZArith Lia Bool List.
From stdpp Require Import base option list gmap.
Import ListNotations.

Local Open Scope Z_scope.

(** ** Exceptions and results *)

(** The exceptions a call can end with.  [ValueError] is what the client
    raises for an invalid move; the others are the interpreter's own.
    [DanglingReference] stands for a reference to no object: the
    interpreter never holds one, the store of this development can. *)
Inductive exn : Type :=
  | ValueError
  | AttributeError
  | OverflowError
  | ZeroDivisionError
  | RecursionError
  | DanglingReference.

Inductive result (A : Type) : Type :=
  | Ok (a : A)
  | Raise (e : exn).
Arguments Ok {A} a.
Arguments Raise {A} e.

#[global] Instance result_ret : MRet result := fun _ a => Ok a.
#[global] Instance result_bind : MBind result := fun _ _ k r =>
  match r with
  | Ok a => k a
  | Raise e => Raise e
  end.

(** ** Python numbers: [int / int] and [int(float)] *)

Module PyFloat.

(** A finite binary64 number, [mant * 2 ^ expo]. *)
Record float : Type := mk_float { mant : Z; expo : Z }.

(** [n / d] rounded to the nearest integer, ties to even ([0 < d]). *)
Definition round_half_even (n d : Z) : Z :=
  let q := n / d in
  let r := n mod d in
  if 2 * r <? d then q
  else if d <? 2 * r then q + 1
  else if Z.even q then q else q + 1.

(** [a / (b * 2 ^ k)] as numerator and denominator, for any sign of [k]. *)
Definition scaled (a b k : Z) : Z * Z :=
  if 0 <=? k then (a, b * 2 ^ k) else (a * 2 ^ (- k), b).

(** The exponent of the unit in the last place of [a / b], for positive
    [a] and [b]: the [e] with [2^52 <= a / (b * 2^e) < 2^53], and
    [-1074] in the subnormal range. *)
Definition ulp_exp (a b : Z) : Z :=
  let k := Z.log2 a - Z.log2 b in
  let '(n, d) := scaled a b k in
  Z.max (if d <=? n then k - 52 else k - 53) (-1074).

(** True division of two integers, correctly rounded (the result of
    [a / b] on two Python ints). *)
Definition truediv (a b : Z) : result float :=
  if b =? 0 then Raise ZeroDivisionError
  else if a =? 0 then Ok (mk_float 0 0)
  else
    let e := ulp_exp (Z.abs a) (Z.abs b) in
    let '(n, d) := scaled (Z.abs a) (Z.abs b) e in
    let q := round_half_even n d in
    if 2 ^ 1024 <=? q * 2 ^ e then Raise OverflowError
    else Ok (mk_float (Z.sgn a * Z.sgn b * q) e).

(** [int(x)]: truncation towards zero. *)
Definition to_int (x : float) : Z :=
  if 0 <=? expo x then mant x * 2 ^ expo x
  else Z.quot (mant x) (2 ^ (- expo x)).

End PyFloat.

(** [int((turn + 1) / 2)], the body of the property [round]. *)
Definition round_of_turn (turn : Z) : result Z :=
  x ← PyFloat.truediv (turn + 1) 2;
  Ok (PyFloat.to_int x).

(** ** Values of the game *)

(** Modelled from the spec: [TeamEnum] is declared in [team.py]; a team is
    one of two enumerated identities, and [ONE] is the one the game state
    names. *)
Inductive TeamEnum : Type := ONE | TWO.

#[global] Instance TeamEnum_eq_dec : EqDecision TeamEnum.
Proof. solve_decision. Defined.

Module CartesianCoordinate.
(** Modelled from the spec: the coordinate classes are declared in
    [coordinate.py]; this one holds the offset indices [x] and [y] the
    game state builds it from. *)
Record t : Type := mk { x : Z; y : Z }.
End CartesianCoordinate.

Module HexCoordinate.
(** Modelled from the spec: the coordinate that addresses a field and
    that moves and penguins carry, a pair of axial indices. *)
Record t : Type := mk { x : Z; y : Z }.
#[global] Instance eq_dec : EqDecision t.
Proof. solve_decision. Defined.
End HexCoordinate.

Module Move.
(** Modelled from the spec: class [Move] is declared in [team.py]; the
    specification describes it as a value made of the acting team, an
    optional source ([None] for a placement) and a destination.  The
    attribute names are those of the constructor call in
    [_get_possible_moves]. *)
Record t : Type := mk {
  team_enum : TeamEnum;
  from_value : option HexCoordinate.t;
  to_value : HexCoordinate.t
}.
#[global] Instance eq_dec : EqDecision t.
Proof. solve_decision. Defined.
End Move.

Module Penguin.
(** Modelled from the spec: class [Penguin] is declared in [team.py]; a
    piece belongs to one team and has a coordinate, the attribute the
    game state reads and assigns. *)
Record t : Type := mk {
  team_enum : TeamEnum;
  coordinate : HexCoordinate.t
}.
#[global] Instance eq_dec : EqDecision t.
Proof. solve_decision. Defined.
End Penguin.

Module Field.
(** Modelled from the spec: class [Field] is declared in [board.py]; a
    field is a cell with a resource count and at most one occupying
    piece. *)
Record t : Type := mk {
  fish : Z;
  penguin : option Penguin.t
}.
Definition is_occupied (f : t) : bool :=
  match penguin f with Some _ => true | None => false end.
Definition get_fish (f : t) : Z := fish f.
End Field.

(** ** The board, as an interface *)

(** Modelled from the spec: class [Board] is declared in [board.py] and is
    a collaborator with a contract.  The game state uses the methods below;
    all of them are queries, and [move] returns a new board and leaves the
    old one alone.  [to_hex] is [CartesianCoordinate.to_hex]. *)
Class BoardAPI (Board : Type) : Type := {
  width : Board -> Z;
  height : Board -> Z;
  get_field : Board -> HexCoordinate.t -> Field.t;
  get_teams_penguins : Board -> TeamEnum -> list Penguin.t;
  possible_moves_from : Board -> HexCoordinate.t -> TeamEnum -> list Move.t;
  move : Board -> Move.t -> Board;
  to_hex : CartesianCoordinate.t -> HexCoordinate.t
}.

(** Modelled from the spec: [Move.__eq__], the comparison behind
    [move in self.possible_moves], is declared in [team.py]. *)
Class MoveAPI : Type := move_eq : Move.t -> Move.t -> bool.

(** The contract of the collaborators, clause by clause as the
    specification states it. *)
Section BoardContract.
Context {Board : Type} {board_api : BoardAPI Board} {move_api : MoveAPI}.

(** Modelled from the spec: the coordinate conversion is lossless. *)
Definition to_hex_lossless : Prop :=
  forall c1 c2 : CartesianCoordinate.t, to_hex c1 = to_hex c2 -> c1 = c2.

(** Modelled from the spec: a move harvests its destination, the field
    holds nothing afterwards. *)
Definition move_harvests (b : Board) (m : Move.t) : Prop :=
  Field.get_fish (get_field (move b m) (Move.to_value m)) = 0.

(** Modelled from the spec: the slides enumerated for a team are moves
    by that team. *)
Definition slides_declare_team (b : Board) : Prop :=
  forall c t m, In m (possible_moves_from b c t) -> Move.team_enum m = t.

(** Modelled from the spec: a move is made by a given side, so moves
    that compare equal are moves by the same team. *)
Definition equal_moves_declare_team : Prop :=
  forall m m', move_eq m m' = true -> Move.team_enum m = Move.team_enum m'.
End BoardContract.

(** ** The store of Python objects *)

Abbreviation loc := nat (only parsing).

Module Team.
(** Modelled from the spec: class [Team] is declared in [team.py].  The
    attributes are the ones the game state uses; the two lists and the
    opponent are references to other objects. *)
Record t : Type := mk {
  name : TeamEnum;
  fish : Z;
  penguins : loc;
  moves : loc;
  opponent : option loc
}.
Definition set_fish (v : Z) (s : t) : t :=
  mk (name s) v (penguins s) (moves s) (opponent s).
Definition set_opponent (v : option loc) (s : t) : t :=
  mk (name s) (fish s) (penguins s) (moves s) v.
End Team.

(** An object of the store.  A list of penguins holds references (or
    [None]); moves and coordinates are never assigned to after their
    construction and are kept as values.  [OBlank] is an instance that has
    no attributes yet, as unpickling creates it before it fills it in. *)
Inductive obj : Type :=
  | OTeam (t : Team.t)
  | OPenguin (p : Penguin.t)
  | OPenguinList (items : list (option loc))
  | OMoveList (items : list Move.t)
  | OBlank.

Abbreviation heap := (list obj) (only parsing).

(** Computations on the store that may raise. *)
Definition M (A : Type) : Type := heap -> result A * heap.

#[global] Instance M_ret : MRet M := fun _ a h => (Ok a, h).
#[global] Instance M_bind : MBind M := fun _ _ k c h =>
  match c h with
  | (Ok a, h') => k a h'
  | (Raise e, h') => (Raise e, h')
  end.

Definition raise {A} (e : exn) : M A := fun h => (Raise e, h).

(** A query of the store. *)
Definition query {A} (f : heap -> result A) : M A := fun h => (f h, h).

Definition deref (h : heap) (l : loc) : result obj :=
  match h !! l with
  | Some o => Ok o
  | None => Raise DanglingReference
  end.

Definition alloc (o : obj) : M loc := fun h => (Ok (length h), h ++ [o]).

Definition store (l : loc) (o : obj) : M unit := fun h =>
  if decide (l < length h)%nat then (Ok tt, <[l:=o]> h)
  else (Raise DanglingReference, h).

Definition get_team (h : heap) (l : loc) : result Team.t :=
  o ← deref h l;
  match o with OTeam t => Ok t | _ => Raise AttributeError end.

Definition get_penguin (h : heap) (l : loc) : result Penguin.t :=
  o ← deref h l;
  match o with OPenguin p => Ok p | _ => Raise AttributeError end.

Definition get_penguin_list (h : heap) (l : loc) : result (list (option loc)) :=
  o ← deref h l;
  match o with OPenguinList ps => Ok ps | _ => Raise AttributeError end.

Definition get_move_list (h : heap) (l : loc) : result (list Move.t) :=
  o ← deref h l;
  match o with OMoveList ms => Ok ms | _ => Raise AttributeError end.

(** ** [pickle.loads(pickle.dumps(o, protocol=-1))]

    Pickling follows every reference of the object and unpickling builds
    the same graph out of new objects; an object met a second time is
    taken from the memo, so sharing and cycles are kept.  The nesting depth
    of the traversal is bounded by the interpreter's recursion limit. *)

Abbreviation memo_t := (gmap nat nat) (only parsing).

Definition copy_items (rec : loc -> memo_t -> M (loc * memo_t))
  : list (option loc) -> memo_t -> M (list (option loc) * memo_t) :=
  fix go items memo :=
    match items with
    | [] => mret ([], memo)
    | None :: rest =>
        '(rest', memo') ← go rest memo;
        mret (None :: rest', memo')
    | Some l :: rest =>
        '(l', memo1) ← rec l memo;
        '(rest', memo2) ← go rest memo1;
        mret (Some l' :: rest', memo2)
    end.

Definition copy_opt (rec : loc -> memo_t -> M (loc * memo_t))
    (r : option loc) (memo : memo_t) : M (option loc * memo_t) :=
  match r with
  | None => mret (None, memo)
  | Some l => '(l', memo') ← rec l memo; mret (Some l', memo')
  end.

Fixpoint deep_copy (depth : nat) (l : loc) (memo : memo_t) : M (loc * memo_t) :=
  match depth with
  | O => raise RecursionError
  | S depth =>
      match memo !! l with
      | Some l' => mret (l', memo)
      | None =>
          o ← query (fun h => deref h l);
          match o with
          | OPenguin p =>
              l' ← alloc (OPenguin p);
              mret (l', <[l:=l']> memo)
          | OMoveList ms =>
              l' ← alloc (OMoveList ms);
              mret (l', <[l:=l']> memo)
          | OPenguinList items =>
              l' ← alloc (OPenguinList []);
              '(items', memo') ← copy_items (deep_copy depth) items (<[l:=l']> memo);
              store l' (OPenguinList items');;
              mret (l', memo')
          | OTeam t =>
              l' ← alloc OBlank;
              '(ps, memo1) ← deep_copy depth (Team.penguins t) (<[l:=l']> memo);
              '(ms, memo2) ← deep_copy depth (Team.moves t) memo1;
              '(opp, memo3) ← copy_opt (deep_copy depth) (Team.opponent t) memo2;
              store l' (OTeam (Team.mk (Team.name t) (Team.fish t) ps ms opp));;
              mret (l', memo3)
          | OBlank =>
              l' ← alloc OBlank;
              mret (l', <[l:=l']> memo)
          end
      end
  end.

(** The interpreter's default recursion limit. *)
Definition recursion_limit : nat := 1000.

Definition pickle_roundtrip (l : loc) : M loc :=
  '(l', _) ← deep_copy recursion_limit l ∅;
  mret l'.

(** [range(n)] *)
Definition range (n : Z) : list Z := Z.of_nat <$> seq 0 (Z.to_nat n).

(** ** The class [GameState] *)

Module GameState.
Section WithBoard.
Context {Board : Type} {board_api : BoardAPI Board} {move_api : MoveAPI}.

(** The attributes set by [__init__]; the teams are references. *)
Record t : Type := mk {
  board : Board;
  turn : Z;
  first_team : loc;
  second_team : loc;
  last_move : option Move.t
}.

Definition round (self : t) : result Z := round_of_turn (turn self).

(** Lines 86 to 92: the placement moves, one loop inside the other. *)
Definition placement_moves (self : t) (name : TeamEnum) : list Move.t :=
  flat_map (fun x =>
    flat_map (fun y =>
      let field :=
        get_field (board self) (to_hex (CartesianCoordinate.mk x y)) in
      if negb (Field.is_occupied field) && (Field.get_fish field =? 1)
      then [Move.mk name None (to_hex (CartesianCoordinate.mk x y))]
      else [])
    (range (height (board self))))
  (range (width (board self))).

(** Lines 94 and 95: the slides of every penguin of the team. *)
Definition slide_moves (self : t) (name : TeamEnum) : list Move.t :=
  flat_map (fun piece =>
    possible_moves_from (board self) (Penguin.coordinate piece) name)
  (get_teams_penguins (board self) name).

(** Lines 85 to 96 of [_get_possible_moves]: the moves of a team object. *)
Definition moves_of_team (self : t) (h : heap) (current_team : loc)
  : result (list Move.t) :=
  team ← get_team h current_team;
  let name := Team.name team in
  if (length (get_teams_penguins (board self) name) <? 4)%nat
  then Ok (placement_moves self name)
  else Ok (slide_moves self name).

(** The truth value of a list. *)
Definition truthy {A} (l : list A) : bool :=
  match l with [] => false | _ => true end.

(** [current_team_from_turn]; its two calls of [_get_possible_moves] pass
    a team object, so they run the body [moves_of_team] at once. *)
Definition current_team_from_turn (self : t) (h : heap) (turn : Z)
  : result (option loc) :=
  possible_moves_first ← moves_of_team self h (first_team self);
  possible_moves_second ← moves_of_team self h (second_team self);
  if turn mod 2 =? 0 then
    Ok (if truthy possible_moves_first then Some (first_team self)
        else if truthy possible_moves_second then Some (second_team self)
        else None)
  else
    Ok (if truthy possible_moves_second then Some (second_team self)
        else if truthy possible_moves_first then Some (first_team self)
        else None).

Definition current_team (self : t) (h : heap) : result (option loc) :=
  current_team_from_turn self h (turn self).

(** [_get_possible_moves]: [current_team or self.current_team], the empty
    list when there is no team, the moves of the team otherwise. *)
Definition _get_possible_moves (self : t) (h : heap)
    (current_team0 : option loc) : result (list Move.t) :=
  current_team1 ←
    match current_team0 with
    | Some l => Ok (Some l)
    | None => current_team self h
    end;
  match current_team1 with
  | None => Ok []
  | Some l => moves_of_team self h l
  end.

Definition possible_moves (self : t) (h : heap) : result (list Move.t) :=
  ct ← current_team self h;
  _get_possible_moves self h ct.

(** [move in self.possible_moves]: some element of the list compares
    equal to the move. *)
Definition is_valid_move (self : t) (h : heap) (m : Move.t) : result bool :=
  pm ← possible_moves self h;
  Ok (existsb (move_eq m) pm).

(** [self.current_team.name] *)
Definition current_team_name (self : t) (h : heap) : result TeamEnum :=
  ct ← current_team self h;
  match ct with
  | None => Raise AttributeError
  | Some l => team ← get_team h l; Ok (Team.name team)
  end.

(** [next(filter(lambda x: x.coordinate == from_value, penguins), None)] *)
Fixpoint first_penguin_at (h : heap) (from_value : option HexCoordinate.t)
    (penguins : list (option loc)) : result (option loc) :=
  match penguins with
  | [] => Ok None
  | None :: _ => Raise AttributeError
  | Some l :: rest =>
      p ← get_penguin h l;
      if bool_decide (Some (Penguin.coordinate p) = from_value)
      then Ok (Some l)
      else first_penguin_at h from_value rest
  end.

(** [_update_team].  The penguin of the new board is an object that
    [Board.move] has built; it enters the store when the team's list
    takes it. *)
Definition _update_team (self : t) (team : loc) (m : Move.t)
    (new_board : Board) : M unit :=
  t0 ← query (fun h => get_team h team);
  ms ← query (fun h => get_move_list h (Team.moves t0));
  store (Team.moves t0) (OMoveList (ms ++ [m]));;
  let adding_fish :=
    Field.get_fish (get_field (board self) (Move.to_value m)) in
  let new_penguin := Field.penguin (get_field new_board (Move.to_value m)) in
  t1 ← query (fun h => get_team h team);
  ps ← query (fun h => get_penguin_list h (Team.penguins t1));
  teams_penguin ← query (fun h => first_penguin_at h (Move.from_value m) ps);
  match teams_penguin with
  | Some pl =>
      match new_penguin with
      | None => raise AttributeError
      | Some np =>
          p ← query (fun h => get_penguin h pl);
          store pl (OPenguin (Penguin.mk (Penguin.team_enum p)
                                         (Penguin.coordinate np)))
      end
  | None =>
      r ← match new_penguin with
          | None => mret None
          | Some np => l ← alloc (OPenguin np); mret (Some l)
          end;
      t2 ← query (fun h => get_team h team);
      ps2 ← query (fun h => get_penguin_list h (Team.penguins t2));
      store (Team.penguins t2) (OPenguinList (ps2 ++ [r]))
  end;;
  t3 ← query (fun h => get_team h team);
  store team (OTeam (Team.set_fish (Team.fish t3 + adding_fish) t3)).

(** [team.opponent = other] *)
Definition assign_opponent (team other : loc) : M unit :=
  t0 ← query (fun h => get_team h team);
  store team (OTeam (Team.set_opponent (Some other) t0)).

Definition perform_move (self : t) (m : Move.t) : M t :=
  valid ← query (fun h => is_valid_move self h m);
  guard ← (if valid : bool then
             n ← query (current_team_name self);
             mret (bool_decide (n = Move.team_enum m))
           else mret false);
  if guard : bool then
    let new_board := move (board self) m in
    new_first_team ← pickle_roundtrip (first_team self);
    new_second_team ← pickle_roundtrip (second_team self);
    n ← query (current_team_name self);
    (if bool_decide (n = ONE)
     then _update_team self new_first_team m new_board
     else _update_team self new_second_team m new_board);;
    assign_opponent new_first_team new_second_team;;
    assign_opponent new_second_team new_first_team;;
    let new_turn := turn self + 1 in
    let new_last_move := m in
    mret (mk new_board new_turn new_first_team new_second_team
             (Some new_last_move))
  else
    raise ValueError.

(** [opponent(team)]: [(team or self.current_team).opponent] *)
Definition opponent (self : t) (h : heap) (team : option loc)
  : result (option loc) :=
  team1 ← match team with
          | Some l => Ok (Some l)
          | None => current_team self h
          end;
  match team1 with
  | None => Raise AttributeError
  | Some l => t0 ← get_team h l; Ok (Team.opponent t0)
  end.

(** [other_team]: [self.current_team.opponent] *)
Definition other_team (self : t) (h : heap) : result (option loc) :=
  ct ← current_team self h;
  match ct with
  | None => Raise AttributeError
  | Some l => t0 ← get_team h l; Ok (Team.opponent t0)
  end.

End WithBoard.
Arguments t Board : clear implicits.
End GameState.

(** ** A reference board *)

Module RefBoard.

(** Modelled from the spec: one implementation of the board interface,
    for running the game state on concrete positions.  Cells are kept in
    an association list, the latest entry of a coordinate counts, and a
    coordinate without an entry is an empty cell.  The slide rule, a
    single step to a free neighbouring cell that still holds fish, is one
    admissible geometry; the specification leaves the geometry open. *)

Record t : Type := mk {
  cols : Z;
  rows : Z;
  cells : list (HexCoordinate.t * Field.t)
}.

Definition to_hex (c : CartesianCoordinate.t) : HexCoordinate.t :=
  HexCoordinate.mk (2 * CartesianCoordinate.x c + CartesianCoordinate.y c mod 2)
                   (CartesianCoordinate.y c).

Definition get_field (b : t) (c : HexCoordinate.t) : Field.t :=
  match find (fun p => bool_decide (fst p = c)) (cells b) with
  | Some p => snd p
  | None => Field.mk 0 None
  end.

Definition set_field (b : t) (c : HexCoordinate.t) (f : Field.t) : t :=
  mk (cols b) (rows b) ((c, f) :: cells b).

Definition coordinates (b : t) : list HexCoordinate.t :=
  flat_map (fun x => map (fun y => to_hex (CartesianCoordinate.mk x y))
                         (range (rows b)))
           (range (cols b)).

Definition get_teams_penguins (b : t) (team : TeamEnum) : list Penguin.t :=
  flat_map (fun c =>
              match Field.penguin (get_field b c) with
              | Some p =>
                  if bool_decide (Penguin.team_enum p = team) then [p] else []
              | None => []
              end)
           (coordinates b).

Definition neighbours (c : HexCoordinate.t) : list HexCoordinate.t :=
  let x := HexCoordinate.x c in
  let y := HexCoordinate.y c in
  [ HexCoordinate.mk (x + 2) y; HexCoordinate.mk (x - 2) y;
    HexCoordinate.mk (x + 1) (y + 1); HexCoordinate.mk (x - 1) (y + 1);
    HexCoordinate.mk (x + 1) (y - 1); HexCoordinate.mk (x - 1) (y - 1) ].

Definition is_free (b : t) (c : HexCoordinate.t) : bool :=
  bool_decide (c ∈ coordinates b)
  && negb (Field.is_occupied (get_field b c))
  && (0 <? Field.get_fish (get_field b c)).

Definition possible_moves_from (b : t) (c : HexCoordinate.t)
    (team : TeamEnum) : list Move.t :=
  match Field.penguin (get_field b c) with
  | Some p =>
      if bool_decide (Penguin.team_enum p = team)
      then map (fun d => Move.mk team (Some c) d)
               (filter (fun d => is_free b d = true) (neighbours c))
      else []
  | None => []
  end.

(** Modelled from the spec: the destination is harvested and taken by
    the moving piece, the source (if any) is vacated. *)
Definition move (b : t) (m : Move.t) : t :=
  let piece := Penguin.mk (Move.team_enum m) (Move.to_value m) in
  let b1 :=
    match Move.from_value m with
    | Some src => set_field b src (Field.mk (Field.fish (get_field b src)) None)
    | None => b
    end in
  set_field b1 (Move.to_value m) (Field.mk 0 (Some piece)).

#[global] Instance api : BoardAPI t :=
  Build_BoardAPI t cols rows get_field get_teams_penguins
                 possible_moves_from move to_hex.

(** Modelled from the spec: moves as values, equal when the acting team,
    the source and the destination agree. *)
#[global] Instance same_move : MoveAPI :=
  fun m m' => bool_decide (m = m').

End RefBoard.

(** ** Notions used in the statements *)

Section Notions.
Context {Board : Type} {board_api : BoardAPI Board} {move_api : MoveAPI}.
Implicit Types (g : GameState.t Board) (h : heap) (m : Move.t).

(** A terminal state: neither team has a legal move. *)
Definition terminal g h : Prop :=
  GameState._get_possible_moves g h (Some (GameState.first_team g)) = Ok []
  /\ GameState._get_possible_moves g h (Some (GameState.second_team g)) = Ok [].

(** The fish a move harvests, read from the board of the old state. *)
Definition adding_fish g m : Z :=
  Field.get_fish (get_field (GameState.board g) (Move.to_value m)).

(** What can be observed of a team: its identity, its score, its
    pieces in order and its move history. *)
Record TeamView : Type := mk_view {
  view_name : TeamEnum;
  view_fish : Z;
  view_penguins : list (option Penguin.t);
  view_moves : list Move.t
}.

Fixpoint penguins_view h (items : list (option loc))
  : result (list (option Penguin.t)) :=
  match items with
  | [] => Ok []
  | None :: rest => vs ← penguins_view h rest; Ok (None :: vs)
  | Some l :: rest =>
      p ← get_penguin h l;
      vs ← penguins_view h rest;
      Ok (Some p :: vs)
  end.

Definition team_view h (l : loc) : result TeamView :=
  team ← get_team h l;
  items ← get_penguin_list h (Team.penguins team);
  ps ← penguins_view h items;
  ms ← get_move_list h (Team.moves team);
  Ok (mk_view (Team.name team) (Team.fish team) ps ms).

(** What can be observed of a state: the turn, the board and the two
    teams. *)
Record StateView : Type := mk_state_view {
  view_turn : Z;
  view_board : Board;
  view_first_team : TeamView;
  view_second_team : TeamView
}.

Definition state_view g h : result StateView :=
  first ← team_view h (GameState.first_team g);
  second ← team_view h (GameState.second_team g);
  Ok (mk_state_view (GameState.turn g) (GameState.board g) first second).

End Notions.

(** References of the new generation: at or above [base]. *)
Definition memo_fresh (base : nat) (memo : memo_t) : Prop :=
  map_Forall (fun _ l' => (base <= l')%nat) memo.

Definition items_fresh (base : nat) (items : list (option loc)) : Prop :=
  forall l, In (Some l) items -> (base <= l)%nat.

Definition obj_fresh (base : nat) (o : obj) : Prop :=
  match o with
  | OTeam t =>
      (base <= Team.penguins t)%nat /\ (base <= Team.moves t)%nat /\
      (forall l, Team.opponent t = Some l -> (base <= l)%nat)
  | OPenguinList items => items_fresh base items
  | _ => True
  end.

(** The objects at or above [base] refer to such objects only. *)
Definition fresh_closed (base : nat) (h : heap) : Prop :=
  forall l o, h !! l = Some o -> (base <= l)%nat -> obj_fresh base o.

(** What a copying routine guarantees when it returns. *)
Definition copy_ok (rec : loc -> memo_t -> M (loc * memo_t)) : Prop :=
  forall l memo h l' memo' h' base,
    rec l memo h = (Ok (l', memo'), h') ->
    (base <= length h)%nat -> memo_fresh base memo -> fresh_closed base h ->
    h `prefix_of` h' /\ fresh_closed base h' /\
    (base <= l')%nat /\ memo_fresh base memo'.

(** ** Concrete positions *)

Module Example.

Definition hex := HexCoordinate.mk.

(** A board of two columns and two rows: one fish at (0,0) and (1,1),
    three at (2,0), none at (3,1). *)
Definition board0 : RefBoard.t :=
  RefBoard.mk 2 2
    [ (hex 0 0, Field.mk 1 None); (hex 2 0, Field.mk 3 None);
      (hex 1 1, Field.mk 1 None); (hex 3 1, Field.mk 0 None) ].

(** Two teams without pieces that know each other; the first is ONE. *)
Definition heap0 : heap :=
  [ OTeam (Team.mk ONE 0 1%nat 2%nat (Some 3%nat));
    OPenguinList []; OMoveList [];
    OTeam (Team.mk TWO 0 4%nat 5%nat (Some 0%nat));
    OPenguinList []; OMoveList [] ].

Definition opening : GameState.t RefBoard.t :=
  GameState.mk board0 0 0%nat 3%nat None.

Definition place_one : Move.t := Move.mk ONE None (hex 0 0).
Definition place_two : Move.t := Move.mk TWO None (hex 0 0).
Definition place_on_three : Move.t := Move.mk ONE None (hex 2 0).

(** The same position with team TWO as the team of the first turn. *)
Definition heap_two_first : heap :=
  [ OTeam (Team.mk TWO 0 1%nat 2%nat (Some 3%nat));
    OPenguinList []; OMoveList [];
    OTeam (Team.mk ONE 0 4%nat 5%nat (Some 0%nat));
    OPenguinList []; OMoveList [] ].

(** A board of four columns and two rows in the movement phase of team
    ONE: its four penguins stand on the lower row, the upper row holds
    two, one, no and three fish. *)
Definition board1 : RefBoard.t :=
  RefBoard.mk 4 2
    [ (hex 0 0, Field.mk 0 (Some (Penguin.mk ONE (hex 0 0))));
      (hex 2 0, Field.mk 0 (Some (Penguin.mk ONE (hex 2 0))));
      (hex 4 0, Field.mk 0 (Some (Penguin.mk ONE (hex 4 0))));
      (hex 6 0, Field.mk 0 (Some (Penguin.mk ONE (hex 6 0))));
      (hex 1 1, Field.mk 2 None); (hex 3 1, Field.mk 1 None);
      (hex 5 1, Field.mk 0 None); (hex 7 1, Field.mk 3 None) ].

(** Team ONE with its four penguins and four moves made, team TWO with
    none. *)
Definition heap1 : heap :=
  [ OTeam (Team.mk ONE 4 1%nat 2%nat (Some 3%nat));
    OPenguinList [Some 6%nat; Some 7%nat; Some 8%nat; Some 9%nat];
    OMoveList [ Move.mk ONE None (hex 0 0); Move.mk ONE None (hex 2 0);
                Move.mk ONE None (hex 4 0); Move.mk ONE None (hex 6 0) ];
    OTeam (Team.mk TWO 0 4%nat 5%nat (Some 0%nat));
    OPenguinList []; OMoveList [];
    OPenguin (Penguin.mk ONE (hex 0 0)); OPenguin (Penguin.mk ONE (hex 2 0));
    OPenguin (Penguin.mk ONE (hex 4 0)); OPenguin (Penguin.mk ONE (hex 6 0)) ].

Definition midgame : GameState.t RefBoard.t :=
  GameState.mk board1 8 0%nat 3%nat None.

Definition slide_one : Move.t := Move.mk ONE (Some (hex 0 0)) (hex 1 1).

(** Another comparison of moves: by source and destination alone. *)
Definition same_path : MoveAPI :=
  fun m m' =>
    bool_decide (Move.from_value m = Move.from_value m')
    && bool_decide (Move.to_value m = Move.to_value m').

(** A board without a field that holds exactly one fish. *)
Definition barren : RefBoard.t :=
  RefBoard.mk 1 1 [ (hex 0 0, Field.mk 0 None) ].

Definition stuck : GameState.t RefBoard.t :=
  GameState.mk barren 4 0%nat 3%nat None.

(** A state late enough for binary64 to round the half turn. *)
Definition late : GameState.t RefBoard.t :=
  GameState.mk board0 (2 ^ 53 + 2) 0%nat 3%nat None.

End Example.

(** ** Stores in which every attribute holds what its class declares *)

Definition is_team (h : heap) (l : loc) : bool :=
  match h !! l with Some (OTeam _) => true | _ => false end.

Definition is_penguin (h : heap) (l : loc) : bool :=
  match h !! l with Some (OPenguin _) => true | _ => false end.

Definition is_penguin_list (h : heap) (l : loc) : bool :=
  match h !! l with Some (OPenguinList _) => true | _ => false end.

Definition is_move_list (h : heap) (l : loc) : bool :=
  match h !! l with Some (OMoveList _) => true | _ => false end.

(** A team holds a list of penguins, a list of moves and a team or [None]
    as opponent; a list of penguins holds penguins. *)
Definition obj_typed (h : heap) (o : obj) : bool :=
  match o with
  | OTeam t =>
      is_penguin_list h (Team.penguins t) && is_move_list h (Team.moves t)
      && match Team.opponent t with Some o => is_team h o | None => true end
  | OPenguinList items =>
      forallb (fun x => match x with Some l => is_penguin h l | None => false end)
              items
  | _ => true
  end.

Definition well_typed (h : heap) : Prop := forallb (obj_typed h) h = true.

(** The penguins of a team are different objects. *)
Definition distinct_penguins (h : heap) (l : loc) : Prop :=
  forall t items,
    h !! l = Some (OTeam t) ->
    h !! Team.penguins t = Some (OPenguinList items) ->
    NoDup items.

(** The objects without references: penguins and lists of moves. *)
Definition is_leaf (o : obj) : Prop :=
  match o with OPenguin _ | OMoveList _ => True | _ => False end.

(** The memo maps a penguin or a list of moves to an object with the same
    contents. *)
Definition memo_leaves (h0 : heap) (memo : memo_t) (h : heap) : Prop :=
  forall l l', memo !! l = Some l' ->
    (forall p, h0 !! l = Some (OPenguin p) -> h !! l' = Some (OPenguin p)) /\
    (forall ms, h0 !! l = Some (OMoveList ms) -> h !! l' = Some (OMoveList ms)).

(** ** What [_update_team] does, on what can be observed of a team *)

(** The first penguin that stands on [src] goes to [c]; [None] when no
    penguin stands there. *)
Fixpoint relocate_first (src : option HexCoordinate.t) (c : HexCoordinate.t)
    (vs : list (option Penguin.t)) : option (list (option Penguin.t)) :=
  match vs with
  | [] => None
  | None :: _ => None
  | Some p :: rest =>
      if bool_decide (Some (Penguin.coordinate p) = src)
      then Some (Some (Penguin.mk (Penguin.team_enum p) c) :: rest)
      else match relocate_first src c rest with
           | Some rest' => Some (Some p :: rest')
           | None => None
           end
  end.

(** True when some penguin of the view stands on [src]. *)
Definition stands_on (src : option HexCoordinate.t)
    (vs : list (option Penguin.t)) : bool :=
  existsb (fun v => match v with
                    | Some p => bool_decide (Some (Penguin.coordinate p) = src)
                    | None => false
                    end) vs.

Section UpdatedView.
Context {Board : Type} {board_api : BoardAPI Board}.

(** The view of a team after it has made the move [m] that led from the
    state [g] to the board [new_board]. *)
Definition updated_view (g : GameState.t Board) (m : Move.t)
    (new_board : Board) (v : TeamView) : TeamView :=
  let new_penguin := Field.penguin (get_field new_board (Move.to_value m)) in
  mk_view (view_name v)
    (view_fish v
     + Field.get_fish (get_field (GameState.board g) (Move.to_value m)))
    (match new_penguin with
     | Some np =>
         match relocate_first (Move.from_value m) (Penguin.coordinate np)
                 (view_penguins v) with
         | Some vs => vs
         | None => view_penguins v ++ [new_penguin]
         end
     | None => view_penguins v ++ [new_penguin]
     end)
    (view_moves v ++ [m]).
End UpdatedView.


(** ** What the round trip keeps of a well-typed store *)

(** The class of an object.  An instance without attributes, as unpickling
    holds it while it builds a team, counts as a team in the making. *)
Inductive class : Type := CTeam | CPenguin | CPenguinList | CMoveList.

Definition class_of (o : obj) : class :=
  match o with
  | OTeam _ | OBlank => CTeam
  | OPenguin _ => CPenguin
  | OPenguinList _ => CPenguinList
  | OMoveList _ => CMoveList
  end.

Definition class_at (h : heap) (l : loc) : option class := class_of <$> h !! l.

(** Every attribute refers to an object of its class. *)
Definition obj_classed (h : heap) (o : obj) : Prop :=
  match o with
  | OTeam t =>
      class_at h (Team.penguins t) = Some CPenguinList /\
      class_at h (Team.moves t) = Some CMoveList /\
      (forall o, Team.opponent t = Some o -> class_at h o = Some CTeam)
  | OPenguinList items =>
      forall x, In x items -> exists l, x = Some l /\ class_at h l = Some CPenguin
  | _ => True
  end.

Definition classed (h : heap) : Prop :=
  forall l o, h !! l = Some o -> obj_classed h o.

(** The objects of [h] are in [h'], as objects of the same class. *)
Definition ext (h h' : heap) : Prop :=
  forall l c, class_at h l = Some c -> class_at h' l = Some c.

(** The memo maps an object to an object of its class. *)
Definition memo_classed (h0 : heap) (memo : memo_t) (h : heap) : Prop :=
  forall l l', memo !! l = Some l' ->
    exists c, class_at h0 l = Some c /\ class_at h l' = Some c.

(** No instance is left without attributes that was not so before. *)
Definition no_new_blank (h h' : heap) : Prop :=
  forall l, h' !! l = Some OBlank -> h !! l = Some OBlank.

(** What a copying routine keeps of the classes of a store [h0] that is
    copied into a store [h]. *)
Definition copy_classed (h0 : heap)
    (rec : loc -> memo_t -> M (loc * memo_t)) : Prop :=
  forall l memo h l' memo' h' o,
    rec l memo h = (Ok (l', memo'), h') ->
    h0 `prefix_of` h -> classed h -> memo_classed h0 memo h ->
    h0 !! l = Some o -> o <> OBlank ->
    h `prefix_of` h' /\ classed h' /\ memo_classed h0 memo' h' /\
    class_at h' l' = Some (class_of o) /\ no_new_blank h h'.

(** Whatever is a team, a penguin or a list in [h] is one in [h']. *)
Definition grows (h h' : heap) : Prop :=
  forall l,
    (is_team h l = true -> is_team h' l = true) /\
    (is_penguin h l = true -> is_penguin h' l = true) /\
    (is_penguin_list h l = true -> is_penguin_list h' l = true) /\
    (is_move_list h l = true -> is_move_list h' l = true).

(** The two teams are each other's opponent, as [perform_move] leaves
    them. *)
Definition linked (h : heap) (a b : loc) : Prop :=
  exists ta tb,
    h !! a = Some (OTeam ta) /\ h !! b = Some (OTeam tb) /\
    Team.opponent ta = Some b /\ Team.opponent tb = Some a.

(** Every team of [h'] is a team of [h] with the same list of penguins,
    and a list of penguins of [h'] is one of [h] and holds no object twice
    if it held none twice in [h]. *)
Definition keeps_distinct (h h' : heap) : Prop :=
  (forall x t', h' !! x = Some (OTeam t') ->
     exists t, h !! x = Some (OTeam t) /\ Team.penguins t' = Team.penguins t) /\
  (forall l items', h' !! l = Some (OPenguinList items') ->
     exists items, h !! l = Some (OPenguinList items) /\
                   (NoDup items -> NoDup items')).

(** A copying step returns: it extends the store and keeps the entries of
    the memo. *)
Definition copies {A} (c : M (A * memo_t)) (memo : memo_t) (h : heap) : Prop :=
  exists a memo' h',
    c h = (Ok (a, memo'), h') /\ h `prefix_of` h' /\
    (forall x y, memo !! x = Some y -> memo' !! x = Some y).

Section Reachable.
Context {Board : Type} {board_api : BoardAPI Board} {move_api : MoveAPI}.

(** The states, with their stores, that a sequence of successful calls
    of [perform_move] leads to from the state [g0] in the store [h0]. *)
Inductive reachable (g0 : GameState.t Board) (h0 : heap)
  : GameState.t Board -> heap -> Prop :=
  | reach_here : reachable g0 h0 g0 h0
  | reach_move g h m g' h' :
      reachable g0 h0 g h ->
      GameState.perform_move g m h = (Ok g', h') ->
      reachable g0 h0 g' h'.

(** A board whose [move] leaves a penguin on the destination of the
    move. *)
Definition move_places_penguin : Prop :=
  forall (b : Board) (m : Move.t),
    Field.penguin (get_field (move b m) (Move.to_value m)) <> None.
End Reachable.
(** * Properties *)

(** ** Lists and ranges *)

Lemma in_range (z n : Z) : In z (range n) <-> 0 <= z < n.
Proof.
  unfold range. rewrite <- list_elem_of_In, list_elem_of_fmap. split.
  - intros (k & -> & Hk). apply list_elem_of_In, in_seq in Hk. lia.
  - intros Hz. exists (Z.to_nat z). split; [lia|].
    apply list_elem_of_In, in_seq. lia.
Qed.

Lemma NoDup_range (n : Z) : NoDup (range n).
Proof.
  unfold range. apply NoDup_fmap_2; [intros a b; lia|].
  apply NoDup_ListNoDup, seq_NoDup.
Qed.

Lemma NoDup_flat_map {A B} (f : A -> list B) (l : list A) :
  NoDup l ->
  (forall a, In a l -> NoDup (f a)) ->
  (forall a a' b, In a l -> In a' l -> In b (f a) -> In b (f a') -> a = a') ->
  NoDup (flat_map f l).
Proof.
  induction 1 as [|a l Hna Hnd IH]; simpl; intros Hin Hdisj; [constructor|].
  apply NoDup_app. split; [apply Hin; now left|]. split.
  - intros b Hb Hb'. apply list_elem_of_In in Hb, Hb'.
    apply in_flat_map in Hb' as (a' & Ha' & Hb').
    assert (a = a') as <- by (eapply Hdisj; eauto; now left).
    apply Hna. now apply list_elem_of_In.
  - apply IH.
    + intros a' Ha'. apply Hin. now right.
    + intros a1 a2 b H1 H2. apply Hdisj; now right.
Qed.

Lemma truthy_false {A} (l : list A) : GameState.truthy l = false <-> l = [].
Proof. destruct l; simpl; split; congruence. Qed.

Lemma truthy_true {A} (l : list A) : GameState.truthy l = true <-> l <> [].
Proof. destruct l; simpl; split; congruence. Qed.

(** ** Inversion of the monadic steps *)

Lemma result_bind_Ok {A B} (r : result A) (k : A -> result B) (b : B) :
  (r ≫= k) = Ok b <-> exists a, r = Ok a /\ k a = Ok b.
Proof.
  destruct r as [a|e]; simpl; split.
  - eauto.
  - now intros (a' & [= ->] & ?).
  - discriminate.
  - now intros (? & ? & ?).
Qed.

Section Queries.
Context {Board : Type} {board_api : BoardAPI Board} {move_api : MoveAPI}.
Implicit Types (g : GameState.t Board) (h : heap) (m : Move.t).

Lemma moves_of_team_placement g h l team :
  get_team h l = Ok team ->
  (length (get_teams_penguins (GameState.board g) (Team.name team)) < 4)%nat ->
  GameState.moves_of_team g h l = Ok (GameState.placement_moves g (Team.name team)).
Proof.
  intros Ht Hlen. unfold GameState.moves_of_team. rewrite Ht. simpl.
  apply Nat.ltb_lt in Hlen. now rewrite Hlen.
Qed.

Lemma in_placement_moves g name m :
  In m (GameState.placement_moves g name) <->
  exists x y,
    0 <= x < width (GameState.board g) /\
    0 <= y < height (GameState.board g) /\
    Field.is_occupied
      (get_field (GameState.board g) (to_hex (CartesianCoordinate.mk x y)))
      = false /\
    Field.get_fish
      (get_field (GameState.board g) (to_hex (CartesianCoordinate.mk x y)))
      = 1 /\
    m = Move.mk name None (to_hex (CartesianCoordinate.mk x y)).
Proof.
  unfold GameState.placement_moves. rewrite in_flat_map. split.
  - intros (x & Hx & Hm). apply in_flat_map in Hm as (y & Hy & Hm).
    apply in_range in Hx, Hy. exists x, y.
    destruct (Field.is_occupied _) eqn:Eo; simpl in Hm; [easy|].
    destruct (Z.eqb_spec (Field.get_fish
      (get_field (GameState.board g) (to_hex (CartesianCoordinate.mk x y)))) 1)
      as [Ef|Ef]; simpl in Hm; [|easy].
    destruct Hm as [<-|[]]. auto.
  - intros (x & y & Hx & Hy & Eo & Ef & ->). exists x.
    split; [now apply in_range|]. apply in_flat_map. exists y.
    split; [now apply in_range|]. simpl. rewrite Eo, Ef. simpl. now left.
Qed.

Lemma NoDup_placement_moves g name :
  to_hex_lossless -> NoDup (GameState.placement_moves g name).
Proof.
  intros Hinj. unfold GameState.placement_moves.
  assert (Hone : forall x y b,
    In b (if negb (Field.is_occupied (get_field (GameState.board g)
                     (to_hex (CartesianCoordinate.mk x y))))
             && (Field.get_fish (get_field (GameState.board g)
                     (to_hex (CartesianCoordinate.mk x y))) =? 1)
          then [Move.mk name None (to_hex (CartesianCoordinate.mk x y))]
          else []) ->
    b = Move.mk name None (to_hex (CartesianCoordinate.mk x y))).
  { intros x y b. destruct (_ && _); simpl; [|easy]. now intros [<-|[]]. }
  apply NoDup_flat_map; [apply NoDup_range| |].
  - intros x _. apply NoDup_flat_map; [apply NoDup_range| |].
    + intros y _. destruct (_ && _); [|constructor].
      apply NoDup_singleton.
    + intros y y' b _ _ Hb Hb'. apply Hone in Hb, Hb'. subst b.
      injection Hb' as Hb'. apply Hinj in Hb'. congruence.
  - intros x x' b _ _ Hb Hb'.
    apply in_flat_map in Hb as (y & _ & Hb).
    apply in_flat_map in Hb' as (y' & _ & Hb').
    apply Hone in Hb, Hb'. subst b.
    injection Hb' as Hb'. apply Hinj in Hb'. congruence.
Qed.

Lemma get_possible_moves_Some g h l :
  GameState._get_possible_moves g h (Some l) = GameState.moves_of_team g h l.
Proof. reflexivity. Qed.

Lemma moves_of_team_declare g h l pm m :
  slides_declare_team (GameState.board g) ->
  GameState.moves_of_team g h l = Ok pm ->
  In m pm ->
  exists team, get_team h l = Ok team /\ Move.team_enum m = Team.name team.
Proof.
  intros Hslides Hpm Hin. unfold GameState.moves_of_team in Hpm.
  apply result_bind_Ok in Hpm as (team & Ht & Hpm). exists team.
  split; [exact Ht|]. simpl in Hpm.
  destruct (_ <? _)%nat; injection Hpm as <-.
  - apply in_placement_moves in Hin as (x & y & _ & _ & _ & _ & ->).
    reflexivity.
  - unfold GameState.slide_moves in Hin.
    apply in_flat_map in Hin as (piece & _ & Hin).
    now apply Hslides in Hin.
Qed.

Lemma terminal_current_team g h :
  terminal g h -> GameState.current_team g h = Ok None.
Proof.
  intros [H1 H2]. rewrite get_possible_moves_Some in H1, H2.
  unfold GameState.current_team, GameState.current_team_from_turn.
  rewrite H1, H2. simpl. now destruct (_ =? _).
Qed.

Lemma terminal_possible_moves g h :
  terminal g h -> GameState.possible_moves g h = Ok [].
Proof.
  intros Ht. unfold GameState.possible_moves, GameState._get_possible_moves.
  pose proof (terminal_current_team g h Ht) as Hc.
  now rewrite Hc.
Qed.

Lemma possible_moves_current g h ct :
  GameState.current_team g h = Ok ct ->
  GameState.possible_moves g h = GameState._get_possible_moves g h ct.
Proof. intros Hct. unfold GameState.possible_moves. now rewrite Hct. Qed.

Lemma get_possible_moves_None g h :
  GameState.current_team g h = Ok None ->
  GameState._get_possible_moves g h None = Ok [].
Proof. intros Hct. unfold GameState._get_possible_moves. now rewrite Hct. Qed.

Lemma perform_move_rejects g h m :
  GameState.is_valid_move g h m = Ok false ->
  GameState.perform_move g m h = (Raise ValueError, h).
Proof.
  intros Hv. unfold GameState.perform_move, mbind, M_bind, query.
  now rewrite Hv.
Qed.

Lemma perform_move_rejects_team g h m n :
  GameState.is_valid_move g h m = Ok true ->
  GameState.current_team_name g h = Ok n ->
  n <> Move.team_enum m ->
  GameState.perform_move g m h = (Raise ValueError, h).
Proof.
  intros Hv Hn Hne. unfold GameState.perform_move, mbind, M_bind, query.
  rewrite Hv, Hn. simpl. now rewrite bool_decide_eq_false_2.
Qed.

End Queries.

(** ** The store *)

Lemma M_bind_Ok {A B} (c : M A) (k : A -> M B) h b h' :
  (c ≫= k) h = (Ok b, h') ->
  exists a h1, c h = (Ok a, h1) /\ k a h1 = (Ok b, h').
Proof.
  unfold mbind, M_bind. destruct (c h) as [[a|e] h1]; [eauto|discriminate].
Qed.

Lemma M_ret_Ok {A} (a b : A) h h' :
  mret (M := M) a h = (Ok b, h') -> a = b /\ h = h'.
Proof. unfold mret, M_ret. now intros [= -> ->]. Qed.

Lemma query_Ok {A} (f : heap -> result A) h a h' :
  query f h = (Ok a, h') -> f h = Ok a /\ h' = h.
Proof. unfold query. now intros [= -> ->]. Qed.

Lemma alloc_Ok o h l h' :
  alloc o h = (Ok l, h') -> l = length h /\ h' = h ++ [o].
Proof. unfold alloc. now intros [= <- <-]. Qed.

Lemma store_Ok l o h u h' :
  store l o h = (Ok u, h') -> (l < length h)%nat /\ h' = <[l:=o]> h.
Proof. unfold store. destruct (decide _); [now intros [= _ <-]|discriminate]. Qed.

(** Lengths along a chain of extensions. *)
Ltac prefix_len :=
  repeat match goal with
         | H : ?a `prefix_of` ?b |- _ =>
             lazymatch goal with
             | _ : (length a <= length b)%nat |- _ => fail
             | _ => pose proof (prefix_length _ _ H)
             end
         end;
  rewrite ?length_app, ?length_insert in *; simpl in *; lia.

Lemma deref_Ok h l o : deref h l = Ok o <-> h !! l = Some o.
Proof. unfold deref. destruct (h !! l); split; congruence. Qed.

Lemma get_team_Ok h l t : get_team h l = Ok t <-> h !! l = Some (OTeam t).
Proof.
  unfold get_team, deref. destruct (h !! l) as [[]|]; simpl; split; congruence.
Qed.

Lemma get_penguin_Ok h l p : get_penguin h l = Ok p <-> h !! l = Some (OPenguin p).
Proof.
  unfold get_penguin, deref. destruct (h !! l) as [[]|]; simpl; split; congruence.
Qed.

Lemma get_penguin_list_Ok h l ps :
  get_penguin_list h l = Ok ps <-> h !! l = Some (OPenguinList ps).
Proof.
  unfold get_penguin_list, deref.
  destruct (h !! l) as [[]|]; simpl; split; congruence.
Qed.

Lemma get_move_list_Ok h l ms :
  get_move_list h l = Ok ms <-> h !! l = Some (OMoveList ms).
Proof.
  unfold get_move_list, deref.
  destruct (h !! l) as [[]|]; simpl; split; congruence.
Qed.

Lemma prefix_alloc (h0 h : heap) o : h0 `prefix_of` h -> h0 `prefix_of` h ++ [o].
Proof. intros Hp. etransitivity; [exact Hp|]. now apply prefix_app_r. Qed.

Lemma prefix_store (h0 h : heap) l o :
  h0 `prefix_of` h -> (length h0 <= l)%nat -> h0 `prefix_of` <[l:=o]> h.
Proof.
  intros [k ->] Hl. exists (<[(l - length h0)%nat:=o]> k).
  now rewrite insert_app_r_alt.
Qed.

Lemma fresh_closed_start (h : heap) : fresh_closed (length h) h.
Proof.
  intros l o Hl Hb. apply lookup_lt_Some in Hl. lia.
Qed.

Lemma fresh_closed_alloc base h o :
  fresh_closed base h -> obj_fresh base o -> fresh_closed base (h ++ [o]).
Proof.
  intros Hc Ho l o' Hl Hb.
  apply lookup_app_Some in Hl as [Hl|[_ Hl]]; [now apply (Hc l)|].
  apply list_lookup_singleton_Some in Hl as [_ <-]. exact Ho.
Qed.

Lemma fresh_closed_store base h l o :
  fresh_closed base h -> obj_fresh base o -> fresh_closed base (<[l:=o]> h).
Proof.
  intros Hc Ho l' o' Hl Hb.
  destruct (decide (l = l')) as [->|Hne].
  - assert (Hlt : (l' < length h)%nat).
    { apply lookup_lt_Some in Hl. now rewrite length_insert in Hl. }
    rewrite list_lookup_insert_eq in Hl by exact Hlt. now injection Hl as <-.
  - rewrite list_lookup_insert_ne in Hl by exact Hne. now apply (Hc l').
Qed.

Lemma memo_fresh_insert base (memo : memo_t) l l' :
  memo_fresh base memo -> (base <= l')%nat -> memo_fresh base (<[l:=l']> memo).
Proof. intros Hm Hl. now apply map_Forall_insert_2. Qed.

(** ** Unpickling builds new objects only *)

Lemma copy_items_ok rec :
  copy_ok rec ->
  forall items memo h items' memo' h' base,
    copy_items rec items memo h = (Ok (items', memo'), h') ->
    (base <= length h)%nat -> memo_fresh base memo -> fresh_closed base h ->
    h `prefix_of` h' /\ fresh_closed base h' /\
    items_fresh base items' /\ memo_fresh base memo'.
Proof.
  intros Hrec. induction items as [|[l|] rest IH];
    intros memo h items' memo' h' base Hrun Hb Hm Hc; simpl in Hrun.
  - apply M_ret_Ok in Hrun as [[= <- <-] <-].
    repeat split; auto. intros l [].
  - apply M_bind_Ok in Hrun as ([l1 memo1] & h1 & Hl & Hrun).
    apply M_bind_Ok in Hrun as ([rest' memo2] & h2 & Hrest & Hrun).
    apply M_ret_Ok in Hrun as [[= <- <-] <-].
    destruct (Hrec _ _ _ _ _ _ base Hl Hb Hm Hc) as (Hp1 & Hc1 & Hl1 & Hm1).
    assert (Hb1 : (base <= length h1)%nat) by prefix_len.
    destruct (IH _ _ _ _ _ base Hrest Hb1 Hm1 Hc1) as (Hp2 & Hc2 & Hi2 & Hm2).
    repeat split; auto.
    + now transitivity h1.
    + intros x [[= <-]|Hx]; auto.
  - apply M_bind_Ok in Hrun as ([rest' memo1] & h1 & Hrest & Hrun).
    apply M_ret_Ok in Hrun as [[= <- <-] <-].
    destruct (IH _ _ _ _ _ base Hrest Hb Hm Hc) as (Hp2 & Hc2 & Hi2 & Hm2).
    repeat split; auto.
    intros x [[=]|Hx]; auto.
Qed.

Lemma copy_opt_ok rec :
  copy_ok rec ->
  forall r memo h r' memo' h' base,
    copy_opt rec r memo h = (Ok (r', memo'), h') ->
    (base <= length h)%nat -> memo_fresh base memo -> fresh_closed base h ->
    h `prefix_of` h' /\ fresh_closed base h' /\
    (forall l, r' = Some l -> (base <= l)%nat) /\ memo_fresh base memo'.
Proof.
  intros Hrec [l|] memo h r' memo' h' base Hrun Hb Hm Hc; simpl in Hrun.
  - apply M_bind_Ok in Hrun as ([l1 memo1] & h1 & Hl & Hrun).
    apply M_ret_Ok in Hrun as [[= <- <-] <-].
    destruct (Hrec _ _ _ _ _ _ base Hl Hb Hm Hc) as (Hp1 & Hc1 & Hl1 & Hm1).
    repeat split; auto. now intros x [= <-].
  - apply M_ret_Ok in Hrun as [[= <- <-] <-].
    repeat split; auto. intros x [=].
Qed.

(** What [deep_copy] does once the memo has no entry for the object. *)
Lemma deep_copy_miss depth l memo h l' memo' h' :
  deep_copy (S depth) l memo h = (Ok (l', memo'), h') ->
  memo !! l = None ->
  exists o, h !! l = Some o /\ l' = length h /\
    match o with
    | OTeam t =>
        exists ps memo1 h1 ms memo2 h2 opp,
          deep_copy depth (Team.penguins t) (<[l:=l']> memo) (h ++ [OBlank])
            = (Ok (ps, memo1), h1) /\
          deep_copy depth (Team.moves t) memo1 h1 = (Ok (ms, memo2), h2) /\
          exists h3,
          copy_opt (deep_copy depth) (Team.opponent t) memo2 h2
            = (Ok (opp, memo'), h3) /\
          (l' < length h3)%nat /\
          h' = <[l':=OTeam (Team.mk (Team.name t) (Team.fish t) ps ms opp)]> h3
    | OPenguinList items =>
        exists items' h1,
          copy_items (deep_copy depth) items (<[l:=l']> memo)
            (h ++ [OPenguinList []]) = (Ok (items', memo'), h1) /\
          (l' < length h1)%nat /\
          h' = <[l':=OPenguinList items']> h1
    | _ => h' = h ++ [o] /\ memo' = <[l:=l']> memo
    end.
Proof.
  intros Hrun Hmemo. simpl in Hrun. rewrite Hmemo in Hrun.
  apply M_bind_Ok in Hrun as (o & h0 & Ho & Hrun).
  apply query_Ok in Ho as [Ho ->]. apply deref_Ok in Ho.
  exists o. split; [exact Ho|].
  destruct o as [t|p|items|ms|].
  - apply M_bind_Ok in Hrun as (l0 & h0 & Hl0 & Hrun).
    apply alloc_Ok in Hl0 as [-> ->].
    apply M_bind_Ok in Hrun as ([ps memo1] & h1 & Hps & Hrun).
    apply M_bind_Ok in Hrun as ([ms memo2] & h2 & Hms & Hrun).
    apply M_bind_Ok in Hrun as ([opp memo3] & h3 & Hopp & Hrun).
    apply M_bind_Ok in Hrun as ([] & h4 & Hst & Hrun).
    apply store_Ok in Hst as [Hlt ->].
    apply M_ret_Ok in Hrun as [[= <- <-] <-].
    split; [reflexivity|]. exists ps, memo1, h1, ms, memo2, h2, opp.
    repeat split; auto. exists h3. auto.
  - apply M_bind_Ok in Hrun as (l0 & h0 & Hl0 & Hrun).
    apply alloc_Ok in Hl0 as [-> ->].
    apply M_ret_Ok in Hrun as [[= <- <-] <-]. auto.
  - apply M_bind_Ok in Hrun as (l0 & h0 & Hl0 & Hrun).
    apply alloc_Ok in Hl0 as [-> ->].
    apply M_bind_Ok in Hrun as ([items' memo1] & h1 & Hit & Hrun).
    apply M_bind_Ok in Hrun as ([] & h4 & Hst & Hrun).
    apply store_Ok in Hst as [Hlt ->].
    apply M_ret_Ok in Hrun as [[= <- <-] <-].
    split; [reflexivity|]. exists items', h1. auto.
  - apply M_bind_Ok in Hrun as (l0 & h0 & Hl0 & Hrun).
    apply alloc_Ok in Hl0 as [-> ->].
    apply M_ret_Ok in Hrun as [[= <- <-] <-]. auto.
  - apply M_bind_Ok in Hrun as (l0 & h0 & Hl0 & Hrun).
    apply alloc_Ok in Hl0 as [-> ->].
    apply M_ret_Ok in Hrun as [[= <- <-] <-]. auto.
Qed.

Lemma deep_copy_ok depth : copy_ok (deep_copy depth).
Proof.
  induction depth as [|depth IH];
    intros l memo h l' memo' h' base Hrun Hb Hm Hc; [discriminate|].
  destruct (memo !! l) as [l0|] eqn:Hmemo.
  { simpl in Hrun. rewrite Hmemo in Hrun.
    apply M_ret_Ok in Hrun as [[= <- <-] <-].
    repeat split; auto. exact (Hm _ _ Hmemo). }
  apply deep_copy_miss in Hrun as (o & Ho & -> & Hrun); [|exact Hmemo].
  assert (Hfresh : memo_fresh base (<[l:=length h]> memo))
    by now apply memo_fresh_insert.
  destruct o as [t|p|items|ms|].
  - destruct Hrun as (ps & memo1 & h1 & ms & memo2 & h2 & opp
                      & Hps & Hms & h3 & Hopp & Hlt & ->).
    assert (Hb0 : (base <= length (h ++ [OBlank]))%nat) by prefix_len.
    assert (Hc0 : fresh_closed base (h ++ [OBlank]))
      by now apply fresh_closed_alloc.
    destruct (IH _ _ _ _ _ _ base Hps Hb0 Hfresh Hc0)
      as (Hp1 & Hc1 & Hl1 & Hm1).
    assert (Hb1 : (base <= length h1)%nat) by prefix_len.
    destruct (IH _ _ _ _ _ _ base Hms Hb1 Hm1 Hc1)
      as (Hp2 & Hc2 & Hl2 & Hm2).
    assert (Hb2 : (base <= length h2)%nat) by prefix_len.
    destruct (copy_opt_ok _ IH _ _ _ _ _ _ base Hopp Hb2 Hm2 Hc2)
      as (Hp3 & Hc3 & Hl3 & Hm3).
    repeat split; auto.
    + apply prefix_store; [|lia].
      transitivity (h ++ [OBlank]); [now apply prefix_app_r|].
      transitivity h1; [exact Hp1|]. now transitivity h2.
    + apply fresh_closed_store; [exact Hc3|]. simpl. auto.
  - destruct Hrun as [-> ->]. repeat split; auto.
    + now apply prefix_app_r.
    + now apply fresh_closed_alloc.
  - destruct Hrun as (items' & h1 & Hit & Hlt & ->).
    assert (Hb0 : (base <= length (h ++ [OPenguinList []]))%nat) by prefix_len.
    assert (Hc0 : fresh_closed base (h ++ [OPenguinList []])).
    { apply fresh_closed_alloc; [exact Hc|]. intros x []. }
    destruct (copy_items_ok _ IH _ _ _ _ _ _ base Hit Hb0 Hfresh Hc0)
      as (Hp1 & Hc1 & Hi1 & Hm1).
    repeat split; auto.
    + apply prefix_store; [|lia].
      transitivity (h ++ [OPenguinList []]); [now apply prefix_app_r|exact Hp1].
    + now apply fresh_closed_store.
  - destruct Hrun as [-> ->]. repeat split; auto.
    + now apply prefix_app_r.
    + now apply fresh_closed_alloc.
  - destruct Hrun as [-> ->]. repeat split; auto.
    + now apply prefix_app_r.
    + now apply fresh_closed_alloc.
Qed.

Lemma pickle_roundtrip_ok l h l' h' :
  pickle_roundtrip l h = (Ok l', h') ->
  h `prefix_of` h' /\ (length h <= l')%nat /\
  (forall base, (base <= length h)%nat ->
                fresh_closed base h -> fresh_closed base h') /\
  (forall t, h !! l = Some (OTeam t) ->
     exists t', h' !! l' = Some (OTeam t') /\
                Team.name t' = Team.name t /\ Team.fish t' = Team.fish t).
Proof.
  unfold pickle_roundtrip. intros Hrun.
  apply M_bind_Ok in Hrun as ([l0 memo] & h1 & Hcopy & Hrun).
  apply M_ret_Ok in Hrun as [<- <-].
  assert (Hall : forall base, (base <= length h)%nat -> fresh_closed base h ->
            h `prefix_of` h1 /\ fresh_closed base h1 /\ (base <= l0)%nat
            /\ memo_fresh base memo).
  { intros base Hb Hc.
    apply (deep_copy_ok _ _ _ _ _ _ _ base Hcopy Hb); [|exact Hc].
    apply map_Forall_empty. }
  destruct (Hall (length h) (le_n _) (fresh_closed_start h))
    as (Hp & _ & Hl & _).
  repeat split; auto.
  - intros base Hb Hc. now apply Hall.
  - intros t Ht. remember recursion_limit as depth eqn:Hd. clear Hd.
    destruct depth as [|depth]; [discriminate|].
    apply deep_copy_miss in Hcopy as (o & Ho & -> & Hcopy);
      [|apply lookup_empty].
    rewrite Ht in Ho. injection Ho as <-.
    destruct Hcopy as (ps & memo1 & h2 & ms & memo2 & h3 & opp
                       & _ & _ & h4 & _ & Hlt & ->).
    eexists. split; [now apply list_lookup_insert_eq|]. split; reflexivity.
Qed.

(** ** Updating the copy of a team *)

Lemma lookup_store_other (h : heap) l o x t :
  h !! x = Some (OTeam t) ->
  (forall t', h !! l <> Some (OTeam t')) ->
  <[l:=o]> h !! x = Some (OTeam t).
Proof.
  intros Hx Hl. rewrite list_lookup_insert_ne; [exact Hx|].
  intros ->. exact (Hl _ Hx).
Qed.

Section Update.
Context {Board : Type} {board_api : BoardAPI Board} {move_api : MoveAPI}.
Implicit Types (g : GameState.t Board) (h : heap) (m : Move.t).

Lemma first_penguin_at_Some h src items pl :
  GameState.first_penguin_at h src items = Ok (Some pl) ->
  In (Some pl) items /\ exists p, h !! pl = Some (OPenguin p).
Proof.
  induction items as [|[l|] rest IH]; simpl; intros Hf; try discriminate.
  apply result_bind_Ok in Hf as (p & Hp & Hf).
  destruct (bool_decide _).
  - injection Hf as ->. split; [now left|].
    exists p. now apply get_penguin_Ok.
  - destruct (IH Hf) as [Hin Hex]. split; [now right|exact Hex].
Qed.

Lemma update_team_ok g team m nb h0 h h' :
  GameState._update_team g team m nb h = (Ok tt, h') ->
  h0 `prefix_of` h -> (length h0 <= team)%nat ->
  fresh_closed (length h0) h ->
  h0 `prefix_of` h' /\ fresh_closed (length h0) h' /\
  (exists t,
      h !! team = Some (OTeam t) /\
      h' !! team = Some (OTeam (Team.set_fish
        (Team.fish t
         + Field.get_fish (get_field (GameState.board g) (Move.to_value m)))
        t))) /\
  (forall x t, x <> team -> h !! x = Some (OTeam t) ->
               h' !! x = Some (OTeam t)).
Proof.
  unfold GameState._update_team. intros Hrun Hp Hteam Hc.
  apply M_bind_Ok in Hrun as (t0 & ? & Ht0 & Hrun).
  apply query_Ok in Ht0 as [Ht0 ->]. apply get_team_Ok in Ht0.
  apply M_bind_Ok in Hrun as (ms & ? & Hms & Hrun).
  apply query_Ok in Hms as [Hms ->]. apply get_move_list_Ok in Hms.
  apply M_bind_Ok in Hrun as ([] & ha & Hst & Hrun).
  apply store_Ok in Hst as [Hlt ->].
  pose proof (Hc _ _ Ht0 Hteam) as (Hfps & Hfms & Hfopp).
  set (ha := <[Team.moves t0:=OMoveList (ms ++ [m])]> h) in *.
  assert (Hpa : h0 `prefix_of` ha) by now apply prefix_store.
  assert (Hca : fresh_closed (length h0) ha)
    by now apply fresh_closed_store.
  assert (Hkeep_a : forall x t, h !! x = Some (OTeam t) ->
                                ha !! x = Some (OTeam t)).
  { intros x t Hx. apply lookup_store_other; [exact Hx|]. congruence. }
  apply M_bind_Ok in Hrun as (t1 & ? & Ht1 & Hrun).
  apply query_Ok in Ht1 as [Ht1 ->]. apply get_team_Ok in Ht1.
  rewrite (Hkeep_a _ _ Ht0) in Ht1. injection Ht1 as <-.
  apply M_bind_Ok in Hrun as (ps & ? & Hps & Hrun).
  apply query_Ok in Hps as [Hps ->]. apply get_penguin_list_Ok in Hps.
  apply M_bind_Ok in Hrun as (tp & ? & Htp & Hrun).
  apply query_Ok in Htp as [Htp ->].
  apply M_bind_Ok in Hrun as ([] & hb & Hmid & Hrun).
  apply M_bind_Ok in Hrun as (t3 & ? & Ht3 & Hrun).
  apply query_Ok in Ht3 as [Ht3 ->]. apply get_team_Ok in Ht3.
  apply store_Ok in Hrun as [Hlt3 ->].
  assert (Hmid_ok : h0 `prefix_of` hb /\ fresh_closed (length h0) hb /\
            forall x t, ha !! x = Some (OTeam t) -> hb !! x = Some (OTeam t)).
  { destruct tp as [pl|].
    - destruct (Field.penguin _) as [np|]; [|discriminate].
      apply M_bind_Ok in Hmid as (p & ? & Hpl & Hmid).
      apply query_Ok in Hpl as [Hpl ->]. apply get_penguin_Ok in Hpl.
      apply store_Ok in Hmid as [_ ->].
      apply first_penguin_at_Some in Htp as [Hin _].
      pose proof (Hca _ _ Hps Hfps) as Hitems. simpl in Hitems.
      split; [apply prefix_store; auto|].
      split; [now apply fresh_closed_store|].
      intros x t Hx. apply lookup_store_other; [exact Hx|]. congruence.
    - apply M_bind_Ok in Hmid as (r & hr & Hr & Hmid).
      apply M_bind_Ok in Hmid as (t2 & ? & Ht2 & Hmid).
      apply query_Ok in Ht2 as [Ht2 ->]. apply get_team_Ok in Ht2.
      apply M_bind_Ok in Hmid as (ps2 & ? & Hps2 & Hmid).
      apply query_Ok in Hps2 as [Hps2 ->]. apply get_penguin_list_Ok in Hps2.
      apply store_Ok in Hmid as [_ ->].
      assert (Hr_ok : h0 `prefix_of` hr /\ fresh_closed (length h0) hr /\
                (forall l, r = Some l -> (length h0 <= l)%nat) /\
                ha `prefix_of` hr).
      { destruct (Field.penguin _) as [np|].
        - apply M_bind_Ok in Hr as (l & ? & Hl & Hr).
          apply alloc_Ok in Hl as [-> ->].
          apply M_ret_Ok in Hr as [<- <-].
          split; [now apply prefix_alloc|].
          split; [now apply fresh_closed_alloc|].
          split; [intros l [= <-]; prefix_len|now apply prefix_app_r].
        - apply M_ret_Ok in Hr as [<- <-].
          repeat split; auto. intros l [=]. }
      destruct Hr_ok as (Hpr & Hcr & Hrf & Har).
      assert (Ht2' : hr !! team = Some (OTeam t0)).
      { eapply prefix_lookup_Some; [|exact Har]. now apply Hkeep_a. }
      rewrite Ht2' in Ht2. injection Ht2 as <-.
      assert (Hps' : hr !! Team.penguins t0 = Some (OPenguinList ps))
        by (eapply prefix_lookup_Some; [exact Hps|exact Har]).
      rewrite Hps' in Hps2. injection Hps2 as <-.
      pose proof (Hca _ _ Hps Hfps) as Hitems. simpl in Hitems.
      split; [apply prefix_store; auto|].
      split.
      + apply fresh_closed_store; [exact Hcr|]. simpl.
        intros l Hl. apply in_app_or in Hl as [Hl|[Hl|[]]]; auto.
      + intros x t Hx. apply lookup_store_other.
        * eapply prefix_lookup_Some; [exact Hx|exact Har].
        * congruence. }
  destruct Hmid_ok as (Hpb & Hcb & Hkeep_b).
  rewrite (Hkeep_b _ _ (Hkeep_a _ _ Ht0)) in Ht3. injection Ht3 as <-.
  split; [now apply prefix_store|].
  split; [apply fresh_closed_store; [exact Hcb|]; simpl; auto|].
  split.
  - exists t0. split; [exact Ht0|]. now apply list_lookup_insert_eq.
  - intros x t Hne Hx. rewrite list_lookup_insert_ne by congruence.
    now apply Hkeep_b, Hkeep_a.
Qed.

End Update.

(** ** Queries read the same in an extended store *)

Lemma get_team_prefix h h' l t :
  get_team h l = Ok t -> h `prefix_of` h' -> get_team h' l = Ok t.
Proof.
  rewrite !get_team_Ok. intros Hl Hp. now apply (prefix_lookup_Some h).
Qed.

Lemma get_penguin_prefix h h' l p :
  get_penguin h l = Ok p -> h `prefix_of` h' -> get_penguin h' l = Ok p.
Proof.
  rewrite !get_penguin_Ok. intros Hl Hp. now apply (prefix_lookup_Some h).
Qed.

Section Transition.
Context {Board : Type} {board_api : BoardAPI Board} {move_api : MoveAPI}.
Implicit Types (g : GameState.t Board) (h : heap) (m : Move.t).

Lemma moves_of_team_prefix g h h' l pm :
  GameState.moves_of_team g h l = Ok pm -> h `prefix_of` h' ->
  GameState.moves_of_team g h' l = Ok pm.
Proof.
  unfold GameState.moves_of_team. intros Hpm Hp.
  apply result_bind_Ok in Hpm as (team & Ht & Hpm).
  now rewrite (get_team_prefix _ _ _ _ Ht Hp).
Qed.

Lemma current_team_prefix g h h' ct :
  GameState.current_team g h = Ok ct -> h `prefix_of` h' ->
  GameState.current_team g h' = Ok ct.
Proof.
  unfold GameState.current_team, GameState.current_team_from_turn.
  intros Hct Hp.
  apply result_bind_Ok in Hct as (pm1 & H1 & Hct).
  apply result_bind_Ok in Hct as (pm2 & H2 & Hct).
  rewrite (moves_of_team_prefix _ _ _ _ _ H1 Hp).
  now rewrite (moves_of_team_prefix _ _ _ _ _ H2 Hp).
Qed.

Lemma current_team_name_prefix g h h' n :
  GameState.current_team_name g h = Ok n -> h `prefix_of` h' ->
  GameState.current_team_name g h' = Ok n.
Proof.
  unfold GameState.current_team_name. intros Hn Hp.
  apply result_bind_Ok in Hn as (ct & Hct & Hn).
  rewrite (current_team_prefix _ _ _ _ Hct Hp). simpl.
  destruct ct as [l|]; [|discriminate].
  apply result_bind_Ok in Hn as (team & Ht & Hn).
  now rewrite (get_team_prefix _ _ _ _ Ht Hp).
Qed.

(** The two team objects of a state in which the current team is known. *)
Lemma current_team_teams g h ct :
  GameState.current_team g h = Ok ct ->
  exists t1 t2,
    h !! GameState.first_team g = Some (OTeam t1) /\
    h !! GameState.second_team g = Some (OTeam t2).
Proof.
  unfold GameState.current_team, GameState.current_team_from_turn.
  intros Hct.
  apply result_bind_Ok in Hct as (pm1 & H1 & Hct).
  apply result_bind_Ok in Hct as (pm2 & H2 & _).
  apply result_bind_Ok in H1 as (t1 & H1 & _).
  apply result_bind_Ok in H2 as (t2 & H2 & _).
  exists t1, t2. now rewrite <- !get_team_Ok.
Qed.

Lemma assign_opponent_Ok team other h h' :
  GameState.assign_opponent team other h = (Ok tt, h') ->
  exists t, h !! team = Some (OTeam t) /\
            h' = <[team:=OTeam (Team.set_opponent (Some other) t)]> h.
Proof.
  unfold GameState.assign_opponent. intros Hrun.
  apply M_bind_Ok in Hrun as (t & ? & Ht & Hrun).
  apply query_Ok in Ht as [Ht ->]. apply get_team_Ok in Ht.
  apply store_Ok in Hrun as [_ ->]. eauto.
Qed.

(** Everything a successful [perform_move] has done. *)
Lemma perform_move_Ok g m h g' h' :
  GameState.perform_move g m h = (Ok g', h') ->
  exists n nf ns tf0 ts0 tf ts,
    GameState.is_valid_move g h m = Ok true /\
    GameState.current_team_name g h = Ok n /\
    n = Move.team_enum m /\
    g' = GameState.mk (move (GameState.board g) m) (GameState.turn g + 1)
                      nf ns (Some m) /\
    h `prefix_of` h' /\
    (length h <= nf)%nat /\ (length h <= ns)%nat /\ nf <> ns /\
    h !! GameState.first_team g = Some (OTeam tf0) /\
    h !! GameState.second_team g = Some (OTeam ts0) /\
    h' !! nf = Some (OTeam tf) /\ h' !! ns = Some (OTeam ts) /\
    Team.opponent tf = Some ns /\ Team.opponent ts = Some nf /\
    Team.name tf = Team.name tf0 /\ Team.name ts = Team.name ts0 /\
    Team.fish tf
      = Team.fish tf0 + (if bool_decide (n = ONE) then adding_fish g m else 0) /\
    Team.fish ts
      = Team.fish ts0 + (if bool_decide (n = ONE) then 0 else adding_fish g m).
Proof.
  unfold GameState.perform_move. intros Hrun.
  apply M_bind_Ok in Hrun as (valid & ? & Hv & Hrun).
  apply query_Ok in Hv as [Hv ->].
  apply M_bind_Ok in Hrun as (guard & hg & Hg & Hrun).
  destruct valid.
  2:{ apply M_ret_Ok in Hg as [<- <-]. discriminate. }
  apply M_bind_Ok in Hg as (n & ? & Hn & Hg).
  apply query_Ok in Hn as [Hn ->].
  apply M_ret_Ok in Hg as [<- <-].
  destruct (bool_decide_reflect (n = Move.team_enum m)) as [En|]; [|discriminate].
  apply M_bind_Ok in Hrun as (nf & h1 & Hcf & Hrun).
  apply M_bind_Ok in Hrun as (ns & h2 & Hcs & Hrun).
  apply M_bind_Ok in Hrun as (n' & ? & Hn' & Hrun).
  apply query_Ok in Hn' as [Hn' ->].
  apply M_bind_Ok in Hrun as ([] & h3 & Hup & Hrun).
  apply M_bind_Ok in Hrun as ([] & h4 & Ha1 & Hrun).
  apply M_bind_Ok in Hrun as ([] & h5 & Ha2 & Hrun).
  apply M_ret_Ok in Hrun as [<- <-].
  (* the two team objects of the old state *)
  assert (Hteams : exists t1 t2,
    h !! GameState.first_team g = Some (OTeam t1) /\
    h !! GameState.second_team g = Some (OTeam t2)).
  { unfold GameState.current_team_name in Hn.
    apply result_bind_Ok in Hn as (ct & Hct & _).
    exact (current_team_teams _ _ _ Hct). }
  destruct Hteams as (tf0 & ts0 & Hf0 & Hs0).
  (* the copies *)
  destruct (pickle_roundtrip_ok _ _ _ _ Hcf) as (Hp1 & Hnf & Hcl1 & Hcopy1).
  destruct (pickle_roundtrip_ok _ _ _ _ Hcs) as (Hp2 & Hns & Hcl2 & Hcopy2).
  destruct (Hcopy1 _ Hf0) as (tf1 & Htf1 & Hname1 & Hfish1).
  assert (Hs1 : h1 !! GameState.second_team g = Some (OTeam ts0))
    by now apply (prefix_lookup_Some h).
  destruct (Hcopy2 _ Hs1) as (ts1 & Hts1 & Hname2 & Hfish2).
  assert (Htf2 : h2 !! nf = Some (OTeam tf1))
    by now apply (prefix_lookup_Some h1).
  assert (Hnf1 : (nf < length h1)%nat) by now apply lookup_lt_Some in Htf1.
  assert (Hne : nf <> ns) by lia.
  assert (Hp02 : h `prefix_of` h2) by now transitivity h1.
  assert (Hc2 : fresh_closed (length h) h2).
  { apply Hcl2; [prefix_len|]. apply Hcl1; [lia|].
    apply fresh_closed_start. }
  assert (Hns0 : (length h <= ns)%nat) by prefix_len.
  (* the current team is the one read before the copies were made *)
  rewrite (current_team_name_prefix _ _ _ _ Hn Hp02) in Hn'.
  injection Hn' as <-.
  (* the update of one copy *)
  assert (Hupd : exists tf3 ts3,
    h `prefix_of` h3 /\
    h3 !! nf = Some (OTeam tf3) /\ h3 !! ns = Some (OTeam ts3) /\
    Team.name tf3 = Team.name tf0 /\ Team.name ts3 = Team.name ts0 /\
    Team.fish tf3 = Team.fish tf0
      + (if bool_decide (n = ONE) then adding_fish g m else 0) /\
    Team.fish ts3 = Team.fish ts0
      + (if bool_decide (n = ONE) then 0 else adding_fish g m)).
  { destruct (bool_decide (n = ONE)).
    - destruct (update_team_ok _ _ _ _ h _ _ Hup Hp02 Hnf Hc2)
        as (Hp3 & _ & (t & Ht & Ht') & Hother).
      rewrite Htf2 in Ht. injection Ht as <-.
      exists (Team.set_fish (Team.fish tf1 + adding_fish g m) tf1), ts1.
      repeat split; auto; try (simpl; unfold adding_fish; lia);
        try (apply Hother; [congruence|exact Hts1]).
    - destruct (update_team_ok _ _ _ _ h _ _ Hup Hp02 Hns0 Hc2)
        as (Hp3 & _ & (t & Ht & Ht') & Hother).
      rewrite Hts1 in Ht. injection Ht as <-.
      exists tf1, (Team.set_fish (Team.fish ts1 + adding_fish g m) ts1).
      repeat split; auto; try (simpl; unfold adding_fish; lia);
        try (apply Hother; [congruence|exact Htf2]). }
  destruct Hupd as (tf3 & ts3 & Hp3 & Htf3 & Hts3 & Hn1 & Hn2 & Hfi1 & Hfi2).
  (* the opponents *)
  apply assign_opponent_Ok in Ha1 as (t & Ht & ->).
  rewrite Htf3 in Ht. injection Ht as <-.
  apply assign_opponent_Ok in Ha2 as (t & Ht & ->).
  rewrite list_lookup_insert_ne in Ht by exact Hne.
  rewrite Hts3 in Ht. injection Ht as <-.
  exists n, nf, ns, tf0, ts0,
    (Team.set_opponent (Some ns) tf3), (Team.set_opponent (Some nf) ts3).
  repeat split; auto.
  - apply prefix_store; [|exact Hns0]. now apply prefix_store.
  - rewrite list_lookup_insert_ne by congruence.
    apply list_lookup_insert_eq. now apply lookup_lt_Some in Htf3.
  - apply list_lookup_insert_eq. rewrite length_insert.
    now apply lookup_lt_Some in Hts3.
Qed.

End Transition.

(** ** The round of a turn *)

Lemma ulp_exp_two (a : Z) : 0 < a -> PyFloat.ulp_exp a 2 = Z.log2 a - 53.
Proof.
  intros Ha. unfold PyFloat.ulp_exp, PyFloat.scaled.
  change (Z.log2 2) with 1.
  pose proof (Z.log2_nonneg a) as Hnn.
  destruct (Z.log2_spec a Ha) as [Hlo _].
  destruct (Z.leb_spec 0 (Z.log2 a - 1)) as [Hk|Hk].
  - assert (Hd : 2 * 2 ^ (Z.log2 a - 1) = 2 ^ Z.log2 a).
    { rewrite <- Z.pow_succ_r by lia. f_equal. lia. }
    rewrite Hd. clear Hd.
    destruct (Z.leb_spec (2 ^ Z.log2 a) a); lia.
  - assert (HL : Z.log2 a = 0) by lia. rewrite HL.
    change (2 ^ (- (0 - 1))) with 2.
    destruct (Z.leb_spec 2 (a * 2)); lia.
Qed.

Lemma round_of_turn_exact (a : Z) :
  0 < a < 2 ^ 53 ->
  (x ← PyFloat.truediv a 2; Ok (PyFloat.to_int x)) = Ok (a / 2).
Proof.
  intros [Ha Hlt]. unfold PyFloat.truediv.
  destruct (Z.eqb_spec a 0) as [|_]; [lia|].
  change (2 =? 0) with false. cbv iota. rewrite (Z.abs_eq a) by lia. change (Z.abs 2) with 2.
  rewrite ulp_exp_two by lia.
  assert (HL : 0 <= Z.log2 a < 53).
  { split; [apply Z.log2_nonneg|]. apply Z.log2_lt_pow2; lia. }
  set (L := Z.log2 a) in *.
  unfold PyFloat.scaled.
  destruct (Z.leb_spec 0 (L - 53)) as [|_]; [lia|].
  replace (- (L - 53)) with (Z.succ (52 - L)) by lia.
  rewrite Z.pow_succ_r by lia.
  set (p := 2 ^ (52 - L)).
  assert (Hp : 0 < p) by (apply Z.pow_pos_nonneg; lia).
  assert (Hq : a * (2 * p) / 2 = a * p).
  { replace (a * (2 * p)) with (a * p * 2) by lia. apply Z.div_mul. lia. }
  assert (Hr : (a * (2 * p)) mod 2 = 0).
  { replace (a * (2 * p)) with (a * p * 2) by lia. apply Z.mod_mul. lia. }
  unfold PyFloat.round_half_even. rewrite Hq, Hr.
  change (2 * 0 <? 2) with true. cbv iota. rewrite (Z.pow_neg_r 2 (L - 53)) by lia.
  rewrite Z.mul_0_r.
  destruct (Z.leb_spec (2 ^ 1024) 0) as [Hbig|_].
  { pose proof (Z.pow_pos_nonneg 2 1024). lia. }
  cbn [mbind result_bind]. f_equal. unfold PyFloat.to_int.
  cbn [PyFloat.expo PyFloat.mant].
  destruct (Z.leb_spec 0 (L - 53)) as [|_]; [lia|].
  replace (- (L - 53)) with (Z.succ (52 - L)) by lia.
  rewrite Z.pow_succ_r by lia. fold p.
  rewrite Z.sgn_pos by lia. change (Z.sgn 2) with 1.
  rewrite !Z.mul_1_l.
  rewrite Z.quot_div_nonneg by lia.
  replace (a * p) with (p * a) by lia.
  replace (2 * p) with (p * 2) by lia.
  apply Z.div_mul_cancel_l; lia.
Qed.

Lemma round_of_turn_small (turn : Z) :
  0 <= turn <= 2 ^ 53 + 1 -> round_of_turn turn = Ok ((turn + 1) / 2).
Proof.
  intros Ht. unfold round_of_turn.
  destruct (Z.lt_ge_cases (turn + 1) (2 ^ 53)) as [Hs|Hb].
  - apply round_of_turn_exact. lia.
  - assert (Hc : turn = 2 ^ 53 - 1 \/ turn = 2 ^ 53 \/ turn = 2 ^ 53 + 1) by lia.
    destruct Hc as [-> | [-> | ->]]; vm_compute; reflexivity.
Qed.

(** * The claims *)

Section ViewFacts.
Context {Board : Type} {board_api : BoardAPI Board} {move_api : MoveAPI}.
Implicit Types (g : GameState.t Board) (h : heap) (m : Move.t).

Lemma penguins_view_prefix h h' items vs :
  penguins_view h items = Ok vs -> h `prefix_of` h' ->
  penguins_view h' items = Ok vs.
Proof.
  intros Hv Hp. revert vs Hv.
  induction items as [|[l|] rest IH]; simpl; intros vs Hv; [exact Hv| |].
  - apply result_bind_Ok in Hv as (p & Hl & Hv).
    apply result_bind_Ok in Hv as (vs' & Hrest & Hv).
    rewrite (get_penguin_prefix _ _ _ _ Hl Hp). simpl.
    now rewrite (IH _ Hrest).
  - apply result_bind_Ok in Hv as (vs' & Hrest & Hv).
    now rewrite (IH _ Hrest).
Qed.

Lemma team_view_prefix h h' l v :
  team_view h l = Ok v -> h `prefix_of` h' -> team_view h' l = Ok v.
Proof.
  unfold team_view. intros Hv Hp.
  apply result_bind_Ok in Hv as (team & Ht & Hv).
  apply result_bind_Ok in Hv as (items & Hi & Hv).
  apply result_bind_Ok in Hv as (ps & Hps & Hv).
  apply result_bind_Ok in Hv as (ms & Hms & Hv).
  rewrite (get_team_prefix _ _ _ _ Ht Hp). simpl.
  apply get_penguin_list_Ok in Hi. apply get_move_list_Ok in Hms.
  assert (Hi' : get_penguin_list h' (Team.penguins team) = Ok items)
    by (apply get_penguin_list_Ok; now apply (prefix_lookup_Some h)).
  assert (Hms' : get_move_list h' (Team.moves team) = Ok ms)
    by (apply get_move_list_Ok; now apply (prefix_lookup_Some h)).
  rewrite Hi'. simpl. rewrite (penguins_view_prefix _ _ _ _ Hps Hp). simpl.
  now rewrite Hms'.
Qed.

Lemma state_view_prefix g h h' v :
  state_view g h = Ok v -> h `prefix_of` h' -> state_view g h' = Ok v.
Proof.
  unfold state_view. intros Hv Hp.
  apply result_bind_Ok in Hv as (v1 & H1 & Hv).
  apply result_bind_Ok in Hv as (v2 & H2 & Hv).
  rewrite (team_view_prefix _ _ _ _ H1 Hp). simpl.
  now rewrite (team_view_prefix _ _ _ _ H2 Hp).
Qed.

Lemma current_team_cases g h l :
  GameState.current_team g h = Ok (Some l) ->
  l = GameState.first_team g \/ l = GameState.second_team g.
Proof.
  unfold GameState.current_team, GameState.current_team_from_turn.
  intros Hct.
  apply result_bind_Ok in Hct as (pm1 & H1 & Hct).
  apply result_bind_Ok in Hct as (pm2 & H2 & Hct).
  destruct (_ =? _), (GameState.truthy pm1), (GameState.truthy pm2);
    inversion Hct; auto.
Qed.

Lemma current_team_moves g h l :
  GameState.current_team g h = Ok (Some l) ->
  exists pm, GameState.moves_of_team g h l = Ok pm.
Proof.
  intros Hct. pose proof Hct as Hc.
  unfold GameState.current_team, GameState.current_team_from_turn in Hc.
  apply result_bind_Ok in Hc as (pm1 & H1 & Hc).
  apply result_bind_Ok in Hc as (pm2 & H2 & _).
  destruct (current_team_cases _ _ _ Hct) as [-> | ->]; eauto.
Qed.

End ViewFacts.

Section Claims.
Context {Board : Type} {board_api : BoardAPI Board} {move_api : MoveAPI}.
Implicit Types (g : GameState.t Board) (h : heap) (m : Move.t).

(** C1: a successful [perform_move] leaves the receiver as it was.  Every
    object that was in the store before the call is the same object after
    it, so what can be observed of the receiver (its turn, its board and,
    for each of its two teams, the identity, the score, the pieces and
    the move history) is what it was before the call. *)
Theorem perform_move_leaves_receiver g m h g' h' :
  GameState.perform_move g m h = (Ok g', h') ->
  (forall l o, h !! l = Some o -> h' !! l = Some o) /\
  (forall v, state_view g h = Ok v -> state_view g h' = Ok v).
Proof.
  intros Hrun.
  destruct (perform_move_Ok _ _ _ _ _ Hrun)
    as (n & nf & ns & tf0 & ts0 & tf & ts & _ & _ & _ & _ & Hp & _).
  split.
  - intros l o Hl. now apply (prefix_lookup_Some h).
  - intros v Hv. now apply (state_view_prefix _ h).
Qed.

(** C2: a move that compares equal to none of the legal moves of the
    current team, or that is declared for another team than the current
    one, makes [perform_move] raise [ValueError], and the store is the
    one the call started with. *)
Theorem perform_move_invalid_unchanged g m h ct pm :
  GameState.current_team g h = Ok ct ->
  GameState._get_possible_moves g h ct = Ok pm ->
  ((forall m', In m' pm -> move_eq m m' = false) \/
   exists l team, ct = Some l /\ get_team h l = Ok team /\
                  Team.name team <> Move.team_enum m) ->
  GameState.perform_move g m h = (Raise ValueError, h).
Proof.
  intros Hct Hpm Hbad.
  assert (Hv : GameState.is_valid_move g h m = Ok (existsb (move_eq m) pm)).
  { unfold GameState.is_valid_move.
    rewrite (possible_moves_current _ _ _ Hct), Hpm. reflexivity. }
  destruct (existsb (move_eq m) pm) eqn:Hex.
  - destruct Hbad as [Hnone|(l & team & -> & Ht & Hne)].
    + apply existsb_exists in Hex as (m' & Hin & Heq).
      rewrite (Hnone _ Hin) in Heq. discriminate Heq.
    + apply (perform_move_rejects_team _ _ _ (Team.name team)); auto.
      unfold GameState.current_team_name. rewrite Hct. simpl.
      now rewrite Ht.
  - now apply perform_move_rejects.
Qed.

(** C3: [current_team_from_turn] on an even turn prefers the first team
    if it has a move, then the second team if it has one, and is [None]
    otherwise; on an odd turn the order is the other way round. *)
Theorem current_team_from_turn_prefers g h (t : Z) pm1 pm2 :
  GameState._get_possible_moves g h (Some (GameState.first_team g)) = Ok pm1 ->
  GameState._get_possible_moves g h (Some (GameState.second_team g)) = Ok pm2 ->
  exists r,
    GameState.current_team_from_turn g h t = Ok r /\
    (Z.even t = true ->
       (pm1 <> [] -> r = Some (GameState.first_team g)) /\
       (pm1 = [] -> pm2 <> [] -> r = Some (GameState.second_team g)) /\
       (pm1 = [] -> pm2 = [] -> r = None)) /\
    (Z.odd t = true ->
       (pm2 <> [] -> r = Some (GameState.second_team g)) /\
       (pm2 = [] -> pm1 <> [] -> r = Some (GameState.first_team g)) /\
       (pm2 = [] -> pm1 = [] -> r = None)).
Proof.
  rewrite !get_possible_moves_Some. intros H1 H2.
  unfold GameState.current_team_from_turn. rewrite H1, H2.
  cbn [mbind result_bind].
  assert (Hparity : (t mod 2 =? 0) = Z.even t).
  { rewrite Zeven_mod. reflexivity. }
  rewrite Hparity. rewrite <- Z.negb_even.
  destruct (Z.even t); eexists; (split; [reflexivity|]);
    split; intros Hpar; simpl in Hpar; try discriminate Hpar;
    destruct pm1, pm2; simpl; repeat split; intros; congruence.
Qed.

(** C4: for a team with fewer than four penguins on the board, the moves
    generated are the placements on the fields that are free and hold
    exactly one fish: each such field once, no source, the field's
    coordinate as destination, and nothing else. *)
Theorem placement_phase_moves g h l team :
  to_hex_lossless ->
  get_team h l = Ok team ->
  (length (get_teams_penguins (GameState.board g) (Team.name team)) < 4)%nat ->
  exists pm,
    GameState._get_possible_moves g h (Some l) = Ok pm /\
    NoDup pm /\
    (forall m, In m pm <->
       exists x y,
         0 <= x < width (GameState.board g) /\
         0 <= y < height (GameState.board g) /\
         Field.is_occupied (get_field (GameState.board g)
           (to_hex (CartesianCoordinate.mk x y))) = false /\
         Field.get_fish (get_field (GameState.board g)
           (to_hex (CartesianCoordinate.mk x y))) = 1 /\
         m = Move.mk (Team.name team) None
                     (to_hex (CartesianCoordinate.mk x y))) /\
    (forall m, In m pm ->
       Move.from_value m = None /\
       Field.is_occupied
         (get_field (GameState.board g) (Move.to_value m)) = false /\
       Field.get_fish
         (get_field (GameState.board g) (Move.to_value m)) = 1).
Proof.
  intros Hinj Ht Hlen. exists (GameState.placement_moves g (Team.name team)).
  split; [|split; [|split]].
  - rewrite get_possible_moves_Some. now apply moves_of_team_placement.
  - now apply NoDup_placement_moves.
  - intros m. apply in_placement_moves.
  - intros m Hm.
    apply in_placement_moves in Hm as (x & y & _ & _ & Ho & Hf & ->).
    simpl. auto.
Qed.


End Claims.

Section MoreClaims.
Context {Board : Type} {board_api : BoardAPI Board} {move_api : MoveAPI}.
Implicit Types (g : GameState.t Board) (h : heap) (m : Move.t).

(** Conservation where the first team is team ONE and the second is team
    TWO: the team that moved gains the fish that the old board held at
    the destination, and the new board holds none there. *)
Lemma perform_move_conservation g m h g' h' tf0 ts0 :
  GameState.perform_move g m h = (Ok g', h') ->
  get_team h (GameState.first_team g) = Ok tf0 ->
  get_team h (GameState.second_team g) = Ok ts0 ->
  Team.name tf0 = ONE -> Team.name ts0 = TWO ->
  move_harvests (GameState.board g) m ->
  exists ct told tnew,
    GameState.current_team g h = Ok (Some ct) /\
    get_team h ct = Ok told /\
    get_team h' (if decide (ct = GameState.first_team g)
                 then GameState.first_team g'
                 else GameState.second_team g') = Ok tnew /\
    Team.fish tnew - Team.fish told = adding_fish g m /\
    Field.get_fish (get_field (GameState.board g') (Move.to_value m)) = 0.
Proof.
  intros Hrun Hf Hs Hone Htwo Hharvest.
  destruct (perform_move_Ok _ _ _ _ _ Hrun)
    as (n & nf & ns & tf0' & ts0' & tf & ts & _ & Hn & _ & -> & _ & _ & _ & _
        & Hf0 & Hs0 & Hnf & Hns & _ & _ & _ & _ & Hfish1 & Hfish2).
  apply get_team_Ok in Hf, Hs.
  rewrite Hf in Hf0. injection Hf0 as <-.
  rewrite Hs in Hs0. injection Hs0 as <-.
  unfold GameState.current_team_name in Hn.
  apply result_bind_Ok in Hn as (ct & Hct & Hn).
  destruct ct as [ct|]; [|discriminate].
  apply result_bind_Ok in Hn as (told & Hold & Hn). injection Hn as <-.
  pose proof Hold as Hold'. apply get_team_Ok in Hold'.
  cbn [GameState.first_team GameState.second_team GameState.board].
  destruct (current_team_cases _ _ _ Hct) as [-> | ->].
  - rewrite Hf in Hold'. injection Hold' as <-.
    rewrite Hone in Hfish1. simpl in Hfish1.
    exists (GameState.first_team g), tf0, tf.
    rewrite decide_True by reflexivity.
    repeat split; auto; [now apply get_team_Ok|lia].
  - rewrite Hs in Hold'. injection Hold' as <-.
    rewrite Htwo in Hfish2. simpl in Hfish2.
    exists (GameState.second_team g), ts0, ts.
    assert (Hne : GameState.second_team g <> GameState.first_team g).
    { intros E. rewrite E, Hf in Hs. injection Hs as <-. congruence. }
    rewrite decide_False by exact Hne.
    repeat split; auto; [now apply get_team_Ok|lia].
Qed.

(** C8: in a terminal state the current team is [None] and the possible
    moves are the empty list; both queries return. *)
Theorem terminal_queries g h :
  terminal g h ->
  GameState.current_team g h = Ok None /\
  GameState.possible_moves g h = Ok [].
Proof.
  intros Hterm. split.
  - now apply terminal_current_team.
  - now apply terminal_possible_moves.
Qed.

(** C9: in the state a successful [perform_move] returns, the opponent
    of the first team is the second team of that state and the opponent
    of the second team is its first team; both are objects the store did
    not hold before the call, hence neither is a team of the old state. *)
Theorem perform_move_relinks_opponents g m h g' h' :
  GameState.perform_move g m h = (Ok g', h') ->
  exists tf ts,
    get_team h' (GameState.first_team g') = Ok tf /\
    get_team h' (GameState.second_team g') = Ok ts /\
    Team.opponent tf = Some (GameState.second_team g') /\
    Team.opponent ts = Some (GameState.first_team g') /\
    h !! GameState.first_team g' = None /\
    h !! GameState.second_team g' = None /\
    GameState.first_team g' <> GameState.first_team g /\
    GameState.first_team g' <> GameState.second_team g /\
    GameState.second_team g' <> GameState.first_team g /\
    GameState.second_team g' <> GameState.second_team g.
Proof.
  intros Hrun.
  destruct (perform_move_Ok _ _ _ _ _ Hrun)
    as (n & nf & ns & tf0 & ts0 & tf & ts & _ & _ & _ & -> & _ & Hlf & Hls & _
        & Hf0 & Hs0 & Hnf & Hns & Hof & Hos & _).
  cbn [GameState.first_team GameState.second_team].
  apply lookup_lt_Some in Hf0, Hs0.
  exists tf, ts. rewrite !get_team_Ok.
  repeat split; auto; try lia; now apply lookup_ge_None_2.
Qed.

(** C10: in a terminal state [is_valid_move] answers [False] for every
    move and [perform_move] raises [ValueError]: the test of the team
    behind [and] is not reached, so no [AttributeError] arises from the
    missing current team. *)
Theorem terminal_rejects_every_move g h m :
  terminal g h ->
  GameState.is_valid_move g h m = Ok false /\
  GameState.perform_move g m h = (Raise ValueError, h).
Proof.
  intros Hterm.
  assert (Hv : GameState.is_valid_move g h m = Ok false).
  { unfold GameState.is_valid_move.
    rewrite (terminal_possible_moves _ _ Hterm). cbn [mbind result_bind].
    reflexivity. }
  split; [exact Hv|]. now apply perform_move_rejects.
Qed.

(** C7 (amended): for a turn from 0 to 2^53 + 1 the round is the floor of
    (turn + 1) / 2. *)
Theorem round_is_half_turn g :
  0 <= GameState.turn g <= 2 ^ 53 + 1 ->
  GameState.round g = Ok ((GameState.turn g + 1) / 2).
Proof. intros Ht. unfold GameState.round. now apply round_of_turn_small. Qed.

End MoreClaims.

(** ** Runs on the concrete positions *)

(** C7, as stated: at turn 2^53 + 2 the quotient 4503599627370497.5 is not
    a binary64 number; it is rounded to the even neighbour, so the round
    is one more than the floor. *)
Lemma round_late_is_not_half_turn :
  0 <= GameState.turn Example.late /\
  GameState.round Example.late = Ok 4503599627370498 /\
  (GameState.turn Example.late + 1) / 2 = 4503599627370497 /\
  GameState.round Example.late
    <> Ok ((GameState.turn Example.late + 1) / 2).
Proof.
  split; [vm_compute; discriminate|].
  split; [vm_compute; reflexivity|].
  split; [vm_compute; reflexivity|].
  vm_compute. discriminate.
Qed.

(** C6: on the position whose first team is team TWO, the first team is the
    current team and places a penguin on a field with one fish.  The copy
    that is updated is chosen by [name == TeamEnum.ONE], so the fish goes to
    the second team and the team that moved keeps its score. *)
Theorem perform_move_credits_team_by_name :
  exists g' h' mover mover' other other',
    GameState.perform_move Example.opening Example.place_two
      Example.heap_two_first = (Ok g', h') /\
    GameState.current_team Example.opening Example.heap_two_first
      = Ok (Some (GameState.first_team Example.opening)) /\
    get_team Example.heap_two_first (GameState.first_team Example.opening)
      = Ok mover /\
    get_team h' (GameState.first_team g') = Ok mover' /\
    get_team Example.heap_two_first (GameState.second_team Example.opening)
      = Ok other /\
    get_team h' (GameState.second_team g') = Ok other' /\
    Team.name mover = Move.team_enum Example.place_two /\
    Team.name mover' = Team.name mover /\
    adding_fish Example.opening Example.place_two = 1 /\
    Team.fish mover' - Team.fish mover = 0 /\
    Team.fish other' - Team.fish other = 1.
Proof.
  do 6 eexists.
  split; [vm_compute; reflexivity|].
  repeat split; vm_compute; reflexivity.
Qed.

(** The characterisation of [is_valid_move] needs its hypothesis on the
    comparison of moves.  Were moves compared by source and destination
    alone, [is_valid_move] would accept
    the placement that team TWO declares on a field where team ONE, the
    current team, may place; the test of the team in [perform_move] rejects
    it all the same. *)
Lemma same_path_accepts_other_team :
  GameState.is_valid_move (move_api := Example.same_path)
    Example.opening Example.heap0 Example.place_two = Ok true /\
  GameState.perform_move (move_api := Example.same_path)
    Example.opening Example.place_two Example.heap0
    = (Raise ValueError, Example.heap0).
Proof. split; vm_compute; reflexivity. Qed.

(** ** Witnesses *)

Lemma perform_move_leaves_receiver_witness :
  exists g' h',
    GameState.perform_move Example.midgame Example.slide_one Example.heap1
      = (Ok g', h') /\
    ((forall l o, Example.heap1 !! l = Some o -> h' !! l = Some o) /\
     (forall v, state_view Example.midgame Example.heap1 = Ok v ->
                state_view Example.midgame h' = Ok v)).
Proof.
  do 2 eexists. split; [vm_compute; reflexivity|].
  eapply (perform_move_leaves_receiver Example.midgame Example.slide_one
            Example.heap1).
  vm_compute. reflexivity.
Defined.

Lemma perform_move_invalid_unchanged_witness :
  (forall m',
     In m' [Move.mk ONE None (Example.hex 0 0);
            Move.mk ONE None (Example.hex 1 1)] ->
     move_eq Example.place_on_three m' = false)
  /\ GameState.perform_move Example.opening Example.place_on_three
       Example.heap0 = (Raise ValueError, Example.heap0).
Proof.
  assert (Hnone : forall m',
    In m' [Move.mk ONE None (Example.hex 0 0);
           Move.mk ONE None (Example.hex 1 1)] ->
    move_eq Example.place_on_three m' = false).
  { intros m' [<-|[<-|[]]]; reflexivity. }
  split; [exact Hnone|].
  apply (perform_move_invalid_unchanged Example.opening Example.place_on_three
           Example.heap0 (Some 0%nat)
           [Move.mk ONE None (Example.hex 0 0);
            Move.mk ONE None (Example.hex 1 1)]).
  - vm_compute. reflexivity.
  - vm_compute. reflexivity.
  - left. exact Hnone.
Defined.

Lemma current_team_from_turn_prefers_witness :
  exists r,
    GameState.current_team_from_turn Example.opening Example.heap0 7 = Ok r /\
    r = Some (GameState.second_team Example.opening).
Proof.
  destruct (current_team_from_turn_prefers Example.opening Example.heap0 7
              [Move.mk ONE None (Example.hex 0 0);
               Move.mk ONE None (Example.hex 1 1)]
              [Move.mk TWO None (Example.hex 0 0);
               Move.mk TWO None (Example.hex 1 1)])
    as (r & Hr & _ & Hodd).
  - vm_compute. reflexivity.
  - vm_compute. reflexivity.
  - exists r. split; [exact Hr|].
    apply Hodd; [reflexivity|discriminate].
Defined.

Lemma ref_to_hex_lossless : to_hex_lossless (Board := RefBoard.t).
Proof.
  intros [x1 y1] [x2 y2]. unfold to_hex. simpl. unfold RefBoard.to_hex. simpl.
  intros [= Hx Hy]. subst y2. f_equal. lia.
Defined.

Lemma placement_phase_moves_witness :
  exists pm,
    GameState._get_possible_moves Example.opening Example.heap0 (Some 0%nat)
      = Ok pm /\
    NoDup pm /\
    In (Move.mk ONE None (Example.hex 1 1)) pm /\
    ~ In (Move.mk ONE None (Example.hex 2 0)) pm.
Proof.
  destruct (placement_phase_moves Example.opening Example.heap0 0%nat
              (Team.mk ONE 0 1%nat 2%nat (Some 3%nat)))
    as (pm & Hpm & Hnd & Hiff & Hone).
  - exact ref_to_hex_lossless.
  - reflexivity.
  - vm_compute. lia.
  - exists pm. split; [exact Hpm|]. split; [exact Hnd|]. split.
    + apply Hiff. exists 0, 1. vm_compute. repeat split; discriminate.
    + intros Hin. apply Hone in Hin as (_ & _ & Hfish).
      vm_compute in Hfish. discriminate Hfish.
Defined.

Lemma ref_slides_declare_team (b : RefBoard.t) : slides_declare_team b.
Proof.
  intros c t m. simpl. unfold RefBoard.possible_moves_from.
  destruct (Field.penguin _) as [p|]; [|intros []].
  destruct (bool_decide _); [|intros []].
  intros Hin. apply in_map_iff in Hin as (d & <- & _). reflexivity.
Defined.

Lemma same_move_declares_team :
  equal_moves_declare_team (move_api := RefBoard.same_move).
Proof.
  intros m m' Heq. apply bool_decide_eq_true_1 in Heq. now subst m'.
Defined.


Lemma example_stuck_terminal : terminal Example.stuck Example.heap0.
Proof. split; vm_compute; reflexivity. Defined.

Lemma terminal_queries_witness :
  GameState.current_team Example.stuck Example.heap0 = Ok None /\
  GameState.possible_moves Example.stuck Example.heap0 = Ok [].
Proof.
  apply (terminal_queries Example.stuck Example.heap0).
  exact example_stuck_terminal.
Defined.

Lemma perform_move_relinks_opponents_witness :
  exists g' h' tf ts,
    GameState.perform_move Example.opening Example.place_one Example.heap0
      = (Ok g', h') /\
    get_team h' (GameState.first_team g') = Ok tf /\
    get_team h' (GameState.second_team g') = Ok ts /\
    Team.opponent tf = Some (GameState.second_team g') /\
    Team.opponent ts = Some (GameState.first_team g').
Proof.
  do 2 eexists.
  assert (Hrun : GameState.perform_move Example.opening Example.place_one
                   Example.heap0 = (Ok _, _)) by (vm_compute; reflexivity).
  destruct (perform_move_relinks_opponents _ _ _ _ _ Hrun)
    as (tf & ts & Hf & Hs & Hof & Hos & _).
  exists tf, ts. repeat split; [exact Hrun|exact Hf|exact Hs|exact Hof|exact Hos].
Defined.

Lemma terminal_rejects_every_move_witness :
  GameState.is_valid_move Example.stuck Example.heap0 Example.place_one
    = Ok false /\
  GameState.perform_move Example.stuck Example.place_one Example.heap0
    = (Raise ValueError, Example.heap0).
Proof.
  apply (terminal_rejects_every_move Example.stuck Example.heap0
           Example.place_one).
  exact example_stuck_terminal.
Defined.

Lemma round_is_half_turn_witness :
  0 <= GameState.turn Example.stuck <= 2 ^ 53 + 1 /\
  GameState.round Example.stuck = Ok 2.
Proof.
  assert (Hrange : 0 <= GameState.turn Example.stuck <= 2 ^ 53 + 1)
    by (vm_compute; split; discriminate).
  split; [exact Hrange|].
  exact (round_is_half_turn Example.stuck Hrange).
Defined.

(** * Further properties of the game state *)

Section Successor.
Context {Board : Type} {board_api : BoardAPI Board} {move_api : MoveAPI}.
Implicit Types (g : GameState.t Board) (h : heap) (m : Move.t).

(** X1: [perform_move] returns a state only for a move that
    [is_valid_move] accepts and that is declared for the current team. *)
Theorem perform_move_success_guard g m h g' h' :
  GameState.perform_move g m h = (Ok g', h') ->
  GameState.is_valid_move g h m = Ok true /\
  GameState.current_team_name g h = Ok (Move.team_enum m).
Proof.
  intros Hrun.
  destruct (perform_move_Ok _ _ _ _ _ Hrun)
    as (n & nf & ns & tf0 & ts0 & tf & ts & Hv & Hn & -> & _).
  auto.
Qed.

(** X2: the state that [perform_move] returns holds the board that
    [Board.move] made of the old one, the turn after the old one and the
    move as its last move. *)
Theorem perform_move_successor_fields g m h g' h' :
  GameState.perform_move g m h = (Ok g', h') ->
  GameState.board g' = move (GameState.board g) m /\
  GameState.turn g' = GameState.turn g + 1 /\
  GameState.last_move g' = Some m.
Proof.
  intros Hrun.
  destruct (perform_move_Ok _ _ _ _ _ Hrun)
    as (n & nf & ns & tf0 & ts0 & tf & ts & _ & _ & _ & -> & _).
  auto.
Qed.

(** X3: a move made on an even turn begins a new round, a move made on an
    odd turn stays in the round (turns from 0 to 2^53). *)
Theorem perform_move_round g m h g' h' r :
  GameState.perform_move g m h = (Ok g', h') ->
  0 <= GameState.turn g <= 2 ^ 53 ->
  GameState.round g = Ok r ->
  GameState.round g'
    = Ok (if Z.even (GameState.turn g) then r + 1 else r).
Proof.
  intros Hrun Ht Hr.
  destruct (perform_move_successor_fields _ _ _ _ _ Hrun) as (_ & Hturn & _).
  unfold GameState.round in *. rewrite Hturn.
  rewrite round_of_turn_small in Hr by lia. injection Hr as <-.
  rewrite round_of_turn_small by lia. f_equal.
  destruct (Z.even (GameState.turn g)) eqn:He.
  - apply Z.even_spec in He as [k Hk]. rewrite Hk.
    replace (2 * k + 1 + 1) with ((k + 1) * 2) by lia.
    rewrite Z.div_mul by lia.
    replace (2 * k + 1) with (1 + k * 2) by lia.
    rewrite Z.div_add by lia. reflexivity.
  - rewrite <- Z.negb_odd in He. apply negb_false_iff in He.
    apply Z.odd_spec in He as [k Hk]. rewrite Hk.
    replace (2 * k + 1 + 1 + 1) with (1 + (k + 1) * 2) by lia.
    rewrite Z.div_add by lia.
    replace (2 * k + 1 + 1) with ((k + 1) * 2) by lia.
    rewrite Z.div_mul by lia. reflexivity.
Qed.

(** X4: the current team is [None] exactly when neither team has a legal
    move. *)
Theorem current_team_None_iff_terminal g h :
  GameState.current_team g h = Ok None <-> terminal g h.
Proof.
  split; [|apply terminal_current_team].
  unfold GameState.current_team, GameState.current_team_from_turn, terminal.
  rewrite !get_possible_moves_Some. intros Hct.
  apply result_bind_Ok in Hct as (pm1 & H1 & Hct).
  apply result_bind_Ok in Hct as (pm2 & H2 & Hct).
  rewrite H1, H2.
  destruct (_ =? _), pm1, pm2; simpl in Hct; try discriminate Hct; auto.
Qed.

(** X5: a team that [current_team] returns is the first or the second
    team of the state and has at least one legal move. *)
Theorem current_team_has_move g h l :
  GameState.current_team g h = Ok (Some l) ->
  (l = GameState.first_team g \/ l = GameState.second_team g) /\
  exists m pm,
    GameState._get_possible_moves g h (Some l) = Ok (m :: pm).
Proof.
  intros Hct. split; [exact (current_team_cases _ _ _ Hct)|].
  unfold GameState.current_team, GameState.current_team_from_turn in Hct.
  rewrite get_possible_moves_Some.
  apply result_bind_Ok in Hct as (pm1 & H1 & Hct).
  apply result_bind_Ok in Hct as (pm2 & H2 & Hct).
  destruct (_ =? _), pm1 as [|m1 pm1], pm2 as [|m2 pm2];
    simpl in Hct; try discriminate Hct;
    injection Hct as <-; eauto.
Qed.

(** X6: every move that [possible_moves] offers passes the test of
    [perform_move]: [is_valid_move] accepts it and it is declared for the
    current team.  The comparison of moves has to accept a move compared
    with itself, and the board has to declare its slides for the team it
    was asked for. *)
Theorem possible_moves_pass_guard g h pm m :
  slides_declare_team (GameState.board g) ->
  move_eq m m = true ->
  GameState.possible_moves g h = Ok pm ->
  In m pm ->
  GameState.is_valid_move g h m = Ok true /\
  GameState.current_team_name g h = Ok (Move.team_enum m).
Proof.
  intros Hslides Hrefl Hpm Hin. split.
  - unfold GameState.is_valid_move. rewrite Hpm. cbn [mbind result_bind].
    f_equal. apply existsb_exists. eauto.
  - unfold GameState.possible_moves in Hpm.
    apply result_bind_Ok in Hpm as (ct & Hct & Hpm).
    unfold GameState.current_team_name. rewrite Hct. cbn [mbind result_bind].
    destruct ct as [l|].
    + rewrite get_possible_moves_Some in Hpm.
      destruct (moves_of_team_declare _ _ _ _ _ Hslides Hpm Hin)
        as (team & Ht & Hteam).
      rewrite Ht. cbn [mbind result_bind]. now rewrite Hteam.
    + rewrite (get_possible_moves_None _ _ Hct) in Hpm.
      injection Hpm as <-. destruct Hin.
Qed.

(** X7: in a terminal state [other_team] and [opponent()] without a team
    raise [AttributeError]: there is no current team to ask. *)
Theorem terminal_no_other_team g h :
  terminal g h ->
  GameState.other_team g h = Raise AttributeError /\
  GameState.opponent g h None = Raise AttributeError.
Proof.
  intros Hterm. pose proof (terminal_current_team _ _ Hterm) as Hct.
  unfold GameState.other_team, GameState.opponent. now rewrite Hct.
Qed.

(** X8: in the state that [perform_move] returns, [opponent] maps each
    of the two teams to the other, the current team can be computed, and
    [other_team] is the team of that state that is not the current one. *)
Theorem perform_move_opponent_queries g m h g' h' :
  GameState.perform_move g m h = (Ok g', h') ->
  GameState.opponent g' h' (Some (GameState.first_team g'))
    = Ok (Some (GameState.second_team g')) /\
  GameState.opponent g' h' (Some (GameState.second_team g'))
    = Ok (Some (GameState.first_team g')) /\
  exists ct,
    GameState.current_team g' h' = Ok ct /\
    forall l, ct = Some l ->
      GameState.other_team g' h'
        = Ok (Some (if decide (l = GameState.first_team g')
                    then GameState.second_team g'
                    else GameState.first_team g')).
Proof.
  intros Hrun.
  destruct (perform_move_Ok _ _ _ _ _ Hrun)
    as (n & nf & ns & tf0 & ts0 & tf & ts & _ & _ & _ & -> & _ & _ & _ & Hne
        & _ & _ & Hnf & Hns & Hof & Hos & _).
  set (g' := GameState.mk (move (GameState.board g) m)
               (GameState.turn g + 1) nf ns (Some m)).
  cbn [GameState.first_team GameState.second_team].
  apply get_team_Ok in Hnf, Hns.
  assert (Hopp1 : GameState.opponent g' h' (Some nf) = Ok (Some ns)).
  { unfold GameState.opponent. cbn [mbind result_bind].
    rewrite Hnf. cbn [mbind result_bind]. now rewrite Hof. }
  assert (Hopp2 : GameState.opponent g' h' (Some ns) = Ok (Some nf)).
  { unfold GameState.opponent. cbn [mbind result_bind].
    rewrite Hns. cbn [mbind result_bind]. now rewrite Hos. }
  split; [exact Hopp1|]. split; [exact Hopp2|].
  assert (Hct : exists ct, GameState.current_team g' h' = Ok ct).
  { unfold GameState.current_team, GameState.current_team_from_turn,
      GameState.moves_of_team.
    cbn [GameState.first_team GameState.second_team g'].
    rewrite Hnf, Hns. cbn [mbind result_bind].
    repeat match goal with |- context [if ?b then _ else _] => destruct b end;
      cbn [mbind result_bind]; eauto. }
  destruct Hct as (ct & Hct). exists ct. split; [exact Hct|].
  intros l ->. unfold GameState.other_team. rewrite Hct.
  cbn [mbind result_bind].
  destruct (current_team_cases _ _ _ Hct) as [-> | ->];
    cbn [GameState.first_team GameState.second_team g'].
  - rewrite decide_True by reflexivity. rewrite Hnf.
    cbn [mbind result_bind]. now rewrite Hof.
  - rewrite decide_False by congruence. rewrite Hns.
    cbn [mbind result_bind]. now rewrite Hos.
Qed.

End Successor.

(** ** The round beyond the turns of a game *)

Lemma round_half_even_error (n d : Z) :
  0 < d -> 2 * Z.abs (PyFloat.round_half_even n d * d - n) <= d.
Proof.
  intros Hd. unfold PyFloat.round_half_even.
  pose proof (Z.div_mod n d ltac:(lia)) as Hdm.
  pose proof (Z.mod_pos_bound n d Hd) as Hm.
  set (q := n / d) in *. set (r := n mod d) in *.
  destruct (Z.ltb_spec (2 * r) d); [|destruct (Z.ltb_spec d (2 * r))];
    [| |destruct (Z.even q)]; nia.
Qed.

Lemma round_half_even_lower (n d : Z) :
  0 < d -> n / d <= PyFloat.round_half_even n d <= n / d + 1.
Proof.
  intros Hd. unfold PyFloat.round_half_even.
  destruct (_ <? _); [lia|]. destruct (_ <? _); [lia|].
  destruct (Z.even _); lia.
Qed.

Lemma truediv_two_small (a : Z) :
  0 < Z.abs a < 2 ^ 53 ->
  (x ← PyFloat.truediv a 2; Ok (PyFloat.to_int x)) = Ok (Z.quot a 2).
Proof.
  intros [Ha Hlt]. unfold PyFloat.truediv.
  destruct (Z.eqb_spec a 0) as [|_]; [lia|].
  change (2 =? 0) with false. cbv iota. change (Z.abs 2) with 2.
  rewrite ulp_exp_two by lia.
  assert (HL : 0 <= Z.log2 (Z.abs a) < 53).
  { split; [apply Z.log2_nonneg|]. apply Z.log2_lt_pow2; lia. }
  set (L := Z.log2 (Z.abs a)) in *.
  unfold PyFloat.scaled.
  destruct (Z.leb_spec 0 (L - 53)) as [|_]; [lia|].
  replace (- (L - 53)) with (Z.succ (52 - L)) by lia.
  rewrite Z.pow_succ_r by lia.
  set (p := 2 ^ (52 - L)).
  assert (Hp : 0 < p) by (apply Z.pow_pos_nonneg; lia).
  assert (Hq : Z.abs a * (2 * p) / 2 = Z.abs a * p).
  { replace (Z.abs a * (2 * p)) with (Z.abs a * p * 2) by lia.
    apply Z.div_mul. lia. }
  assert (Hr : (Z.abs a * (2 * p)) mod 2 = 0).
  { replace (Z.abs a * (2 * p)) with (Z.abs a * p * 2) by lia.
    apply Z.mod_mul. lia. }
  unfold PyFloat.round_half_even. rewrite Hq, Hr.
  change (2 * 0 <? 2) with true. cbv iota.
  rewrite (Z.pow_neg_r 2 (L - 53)) by lia. rewrite Z.mul_0_r.
  destruct (Z.leb_spec (2 ^ 1024) 0) as [Hbig|_].
  { pose proof (Z.pow_pos_nonneg 2 1024). lia. }
  cbn [mbind result_bind]. f_equal. unfold PyFloat.to_int.
  cbn [PyFloat.expo PyFloat.mant].
  destruct (Z.leb_spec 0 (L - 53)) as [|_]; [lia|].
  replace (- (L - 53)) with (Z.succ (52 - L)) by lia.
  rewrite Z.pow_succ_r by lia. fold p.
  change (Z.sgn 2) with 1.
  replace (Z.sgn a * 1 * (Z.abs a * p)) with (a * p)
    by (rewrite <- (Z.sgn_abs a) at 1; lia).
  apply Z.quot_mul_cancel_r; lia.
Qed.

(** The exponent of the quotient by two of a number of at least 54 bits. *)
Lemma truediv_two_large (a : Z) :
  2 ^ 53 <= a ->
  let e := Z.log2 a - 53 in
  let q := PyFloat.round_half_even a (2 * 2 ^ e) in
  0 <= e /\ 2 ^ 52 <= q <= 2 ^ 53 /\
  2 * Z.abs (q * 2 ^ e * 2 - a) <= 2 * 2 ^ e /\
  PyFloat.truediv a 2
    = if 2 ^ 1024 <=? q * 2 ^ e then Raise OverflowError
      else Ok (PyFloat.mk_float q e).
Proof.
  intros Ha. cbv zeta.
  assert (Hpos : 0 < a) by (pose proof (Z.pow_pos_nonneg 2 53); lia).
  assert (HL : 53 <= Z.log2 a) by (apply Z.log2_le_pow2; lia).
  destruct (Z.log2_spec a Hpos) as [Hlo Hhi].
  set (L := Z.log2 a) in *. set (e := L - 53).
  assert (He : 0 <= e) by (unfold e; lia).
  assert (Hd : 0 < 2 * 2 ^ e) by (pose proof (Z.pow_pos_nonneg 2 e); lia).
  assert (HdL : 2 * 2 ^ e * 2 ^ 52 = 2 ^ L).
  { rewrite <- Z.pow_succ_r by lia. rewrite <- Z.pow_add_r by lia.
    f_equal. unfold e. lia. }
  assert (HdL' : 2 ^ Z.succ L = 2 * 2 ^ e * 2 ^ 53).
  { rewrite <- Z.pow_succ_r by lia. rewrite <- Z.pow_add_r by lia.
    f_equal. unfold e. lia. }
  pose proof (round_half_even_lower a (2 * 2 ^ e) Hd) as Hq.
  pose proof (round_half_even_error a (2 * 2 ^ e) Hd) as Herr.
  set (q := PyFloat.round_half_even a (2 * 2 ^ e)) in *.
  assert (Hdiv_lo : 2 ^ 52 <= a / (2 * 2 ^ e)).
  { apply Z.div_le_lower_bound; lia. }
  assert (Hdiv_hi : a / (2 * 2 ^ e) < 2 ^ 53).
  { apply Z.div_lt_upper_bound; lia. }
  split; [exact He|]. split; [lia|]. split.
  { replace (q * 2 ^ e * 2 - a) with (q * (2 * 2 ^ e) - a) by lia. lia. }
  unfold PyFloat.truediv.
  destruct (Z.eqb_spec a 0) as [|_]; [lia|].
  change (2 =? 0) with false. cbv iota.
  rewrite (Z.abs_eq a) by lia. change (Z.abs 2) with 2.
  rewrite ulp_exp_two by lia. fold L. fold e.
  unfold PyFloat.scaled.
  destruct (Z.leb_spec 0 e) as [_|]; [|lia]. fold q.
  rewrite Z.sgn_pos by lia. change (Z.sgn 2) with 1.
  now rewrite !Z.mul_1_l.
Qed.

Section Round.
Context {Board : Type} {board_api : BoardAPI Board}.
Implicit Types (g : GameState.t Board).

(** X9: [int] truncates towards zero, so up to 53 bits the round is
    [turn + 1] halved towards zero; it is the floor from turn -1 on and
    one more than the floor at the even turns below. *)
Theorem round_truncates_toward_zero g :
  - 2 ^ 53 < GameState.turn g + 1 < 2 ^ 53 ->
  GameState.round g = Ok (Z.quot (GameState.turn g + 1) 2).
Proof.
  intros Ht. unfold GameState.round, round_of_turn.
  destruct (Z.eq_dec (GameState.turn g + 1) 0) as [E|E].
  - rewrite E. reflexivity.
  - apply truediv_two_small. lia.
Qed.

(** X10: for a turn below 2^1024 - 1 the round is returned, and twice
    the round differs from [turn + 1] by at most one binary64 unit in the
    last place of the half turn (and by at most 1 up to 53 bits). *)
Theorem round_accuracy g :
  0 <= GameState.turn g -> GameState.turn g + 1 < 2 ^ 1024 ->
  exists r,
    GameState.round g = Ok r /\
    Z.abs (2 * r - (GameState.turn g + 1))
      <= Z.max 1 (2 ^ (Z.log2 (GameState.turn g + 1) - 53)).
Proof.
  intros Hnn Hlt. unfold GameState.round, round_of_turn.
  set (a := GameState.turn g + 1) in *.
  destruct (Z.lt_ge_cases a (2 ^ 53)) as [Hs|Hb].
  - exists (a / 2). split.
    + rewrite truediv_two_small by lia.
      now rewrite Z.quot_div_nonneg by lia.
    + pose proof (Z.div_mod a 2 ltac:(lia)).
      pose proof (Z.mod_pos_bound a 2 ltac:(lia)). lia.
  - destruct (truediv_two_large a Hb) as (He & Hq & Herr & Hdiv).
    assert (Hpos : 0 < a) by (pose proof (Z.pow_pos_nonneg 2 53); lia).
    assert (HL : Z.log2 a < 1024) by (apply Z.log2_lt_pow2; lia).
    set (e := Z.log2 a - 53) in *.
    set (q := PyFloat.round_half_even a (2 * 2 ^ e)) in *.
    assert (Hpe : 0 < 2 ^ e) by (apply Z.pow_pos_nonneg; lia).
    assert (Hsmall : q * 2 ^ e < 2 ^ 1024).
    { assert (Hle : 2 ^ e <= 2 ^ 970) by (apply Z.pow_le_mono_r; lia).
      assert (H1024 : 2 ^ 1024 = 2 ^ 54 * 2 ^ 970)
        by (rewrite <- Z.pow_add_r by lia; reflexivity).
      assert (H54 : 2 ^ 54 = 2 * 2 ^ 53) by reflexivity.
      pose proof (Z.pow_pos_nonneg 2 970 ltac:(lia) ltac:(lia)).
      nia. }
    rewrite Hdiv.
    destruct (Z.leb_spec (2 ^ 1024) (q * 2 ^ e)) as [|_]; [lia|].
    cbn [mbind result_bind]. unfold PyFloat.to_int.
    cbn [PyFloat.expo PyFloat.mant].
    destruct (Z.leb_spec 0 e) as [_|]; [|lia].
    exists (q * 2 ^ e). split; [reflexivity|].
    replace (2 * (q * 2 ^ e) - a) with (q * 2 ^ e * 2 - a) by lia. lia.
Qed.

(** X11: from turn 2^1025 - 1 on the half turn is no binary64 number and
    the round raises [OverflowError]. *)
Theorem round_overflows g :
  2 ^ 1025 <= GameState.turn g + 1 ->
  GameState.round g = Raise OverflowError.
Proof.
  intros Hbig. unfold GameState.round, round_of_turn.
  set (a := GameState.turn g + 1) in *.
  assert (H53 : 2 ^ 53 <= a).
  { assert (2 ^ 53 <= 2 ^ 1025) by (apply Z.pow_le_mono_r; lia). lia. }
  destruct (truediv_two_large a H53) as (He & Hq & _ & Hdiv).
  assert (HL : 1025 <= Z.log2 a) by (apply Z.log2_le_pow2; lia).
  set (e := Z.log2 a - 53) in *.
  set (q := PyFloat.round_half_even a (2 * 2 ^ e)) in *.
  assert (Hle : 2 ^ 972 <= 2 ^ e) by (apply Z.pow_le_mono_r; lia).
  assert (H1024 : 2 ^ 1024 = 2 ^ 52 * 2 ^ 972)
    by (rewrite <- Z.pow_add_r by lia; reflexivity).
  pose proof (Z.pow_pos_nonneg 2 972 ltac:(lia) ltac:(lia)).
  pose proof (Z.pow_pos_nonneg 2 52 ltac:(lia) ltac:(lia)).
  rewrite Hdiv.
  destruct (Z.leb_spec (2 ^ 1024) (q * 2 ^ e)) as [_|Hno]; [reflexivity|].
  nia.
Qed.

End Round.

(** ** Well-typed stores *)

Lemma well_typed_obj h l o :
  well_typed h -> h !! l = Some o -> obj_typed h o = true.
Proof.
  unfold well_typed. rewrite forallb_forall. intros Hwt Hl.
  apply Hwt. apply list_elem_of_In. eapply list_elem_of_lookup_2. exact Hl.
Qed.

Lemma is_team_true h l : is_team h l = true <-> exists t, h !! l = Some (OTeam t).
Proof.
  unfold is_team. destruct (h !! l) as [[]|]; split;
    try discriminate; try (intros (? & [=])); eauto.
Qed.

Lemma is_penguin_true h l :
  is_penguin h l = true <-> exists p, h !! l = Some (OPenguin p).
Proof.
  unfold is_penguin. destruct (h !! l) as [[]|]; split;
    try discriminate; try (intros (? & [=])); eauto.
Qed.

Lemma is_penguin_list_true h l :
  is_penguin_list h l = true <-> exists items, h !! l = Some (OPenguinList items).
Proof.
  unfold is_penguin_list. destruct (h !! l) as [[]|]; split;
    try discriminate; try (intros (? & [=])); eauto.
Qed.

Lemma is_move_list_true h l :
  is_move_list h l = true <-> exists ms, h !! l = Some (OMoveList ms).
Proof.
  unfold is_move_list. destruct (h !! l) as [[]|]; split;
    try discriminate; try (intros (? & [=])); eauto.
Qed.

Lemma well_typed_team h l t :
  well_typed h -> h !! l = Some (OTeam t) ->
  (exists items, h !! Team.penguins t = Some (OPenguinList items)) /\
  (exists ms, h !! Team.moves t = Some (OMoveList ms)) /\
  (forall o, Team.opponent t = Some o -> exists t', h !! o = Some (OTeam t')).
Proof.
  intros Hwt Hl. pose proof (well_typed_obj _ _ _ Hwt Hl) as Ht. simpl in Ht.
  apply andb_true_iff in Ht as [Ht Ho]. apply andb_true_iff in Ht as [Hp Hm].
  split; [now apply is_penguin_list_true|].
  split; [now apply is_move_list_true|].
  intros o Eo. rewrite Eo in Ho. now apply is_team_true.
Qed.

Lemma well_typed_list h l items :
  well_typed h -> h !! l = Some (OPenguinList items) ->
  forall x, In x items -> exists pl p, x = Some pl /\ h !! pl = Some (OPenguin p).
Proof.
  intros Hwt Hl x Hx. pose proof (well_typed_obj _ _ _ Hwt Hl) as Ht.
  simpl in Ht. rewrite forallb_forall in Ht. specialize (Ht x Hx).
  destruct x as [pl|]; [|discriminate].
  apply is_penguin_true in Ht as (p & Hp). eauto.
Qed.

(** ** What the round trip keeps of a team *)

Lemma memo_leaves_prefix h0 memo h h' :
  memo_leaves h0 memo h -> h `prefix_of` h' -> memo_leaves h0 memo h'.
Proof.
  intros Hm Hp l l' Hl. destruct (Hm l l' Hl) as [H1 H2]. split.
  - intros p Hp0. eapply prefix_lookup_Some; [now apply H1|exact Hp].
  - intros ms Hms. eapply prefix_lookup_Some; [now apply H2|exact Hp].
Qed.

Lemma memo_leaves_store h0 memo h x o o0 :
  memo_leaves h0 memo h -> h !! x = Some o0 -> ~ is_leaf o0 ->
  memo_leaves h0 memo (<[x:=o]> h).
Proof.
  intros Hm Hx Hnl l l' Hl. destruct (Hm l l' Hl) as [H1 H2]. split.
  - intros p Hp0. rewrite list_lookup_insert_ne; [now apply H1|].
    intros ->. rewrite (H1 _ Hp0) in Hx. injection Hx as <-. now apply Hnl.
  - intros ms Hms. rewrite list_lookup_insert_ne; [now apply H2|].
    intros ->. rewrite (H2 _ Hms) in Hx. injection Hx as <-. now apply Hnl.
Qed.

Lemma deep_copy_leaf depth l memo h0 h l' memo' h' o :
  deep_copy depth l memo h = (Ok (l', memo'), h') ->
  h0 `prefix_of` h -> h0 !! l = Some o -> is_leaf o ->
  memo_leaves h0 memo h ->
  h' !! l' = Some o /\ memo_leaves h0 memo' h' /\ h `prefix_of` h'.
Proof.
  intros Hrun Hp Hl Hleaf Hm.
  destruct depth as [|depth]; [discriminate|].
  destruct (memo !! l) as [l0|] eqn:Hmemo.
  - simpl in Hrun. rewrite Hmemo in Hrun.
    apply M_ret_Ok in Hrun as [[= <- <-] <-].
    split; [|split; [exact Hm|reflexivity]].
    destruct (Hm _ _ Hmemo) as [H1 H2].
    destruct o; try destruct Hleaf; auto.
  - apply deep_copy_miss in Hrun as (o' & Ho' & -> & Hrun); [|exact Hmemo].
    assert (o' = o) as ->.
    { pose proof (prefix_lookup_Some _ _ _ _ Hl Hp) as Hl'. congruence. }
    assert (Hnew : h' = h ++ [o] /\ memo' = <[l:=length h]> memo)
      by (destruct o; try destruct Hleaf; exact Hrun).
    destruct Hnew as [-> ->].
    assert (Hat : (h ++ [o]) !! length h = Some o).
    { rewrite lookup_app_r by lia. now rewrite Nat.sub_diag. }
    split; [exact Hat|]. split; [|now apply prefix_app_r].
    intros x x' Hx. destruct (decide (l = x)) as [<-|Hne].
    + rewrite lookup_insert_eq in Hx. injection Hx as <-.
      split; intros ? E; rewrite Hl in E; injection E as <-; exact Hat.
    + rewrite lookup_insert_ne in Hx by exact Hne.
      eapply memo_leaves_prefix; [exact Hm|now apply prefix_app_r|exact Hx].
Qed.

Lemma penguins_view_refs h items :
  (forall x, In x items -> exists pl p, x = Some pl /\ h !! pl = Some (OPenguin p)) ->
  exists vs, penguins_view h items = Ok vs /\ length vs = length items /\
             Forall (fun v => v <> None) vs.
Proof.
  induction items as [|x rest IH]; intros Hall.
  - exists []. repeat split; auto.
  - destruct (Hall x (or_introl eq_refl)) as (pl & p & -> & Hpl).
    destruct IH as (vs & Hvs & Hlen & Hsome);
      [intros y Hy; apply Hall; now right|].
    exists (Some p :: vs). simpl.
    rewrite (proj2 (get_penguin_Ok _ _ _) Hpl). simpl. rewrite Hvs. simpl.
    split; [reflexivity|]. split; [simpl; lia|].
    constructor; [discriminate|exact Hsome].
Qed.

Lemma copy_items_leaves depth h0 items :
  (forall x, In x items -> exists pl p, x = Some pl /\ h0 !! pl = Some (OPenguin p)) ->
  forall memo h items' memo' h',
    copy_items (deep_copy depth) items memo h = (Ok (items', memo'), h') ->
    h0 `prefix_of` h -> memo_leaves h0 memo h ->
    penguins_view h' items' = penguins_view h0 items /\
    memo_leaves h0 memo' h' /\ h `prefix_of` h'.
Proof.
  induction items as [|x rest IH]; intros Hall memo h items' memo' h' Hrun Hp Hm.
  - simpl in Hrun. apply M_ret_Ok in Hrun as [[= <- <-] <-].
    split; [reflexivity|]. split; [exact Hm|reflexivity].
  - destruct (Hall x (or_introl eq_refl)) as (pl & p & -> & Hpl).
    simpl in Hrun.
    apply M_bind_Ok in Hrun as ([l1 memo1] & h1 & Hl & Hrun).
    apply M_bind_Ok in Hrun as ([rest' memo2] & h2 & Hrest & Hrun).
    apply M_ret_Ok in Hrun as [[= <- <-] <-].
    destruct (deep_copy_leaf _ _ _ _ _ _ _ _ _ Hl Hp Hpl I Hm)
      as (Hl1 & Hm1 & Hp1).
    assert (Hp01 : h0 `prefix_of` h1) by now transitivity h.
    destruct (IH (fun y Hy => Hall y (or_intror Hy)) _ _ _ _ _ Hrest Hp01 Hm1)
      as (Hview & Hm2 & Hp2).
    split; [|split; [exact Hm2|now transitivity h1]].
    simpl. rewrite (proj2 (get_penguin_Ok _ _ _) Hpl).
    assert (Hl2 : h2 !! l1 = Some (OPenguin p))
      by now apply (prefix_lookup_Some h1).
    rewrite (proj2 (get_penguin_Ok _ _ _) Hl2). simpl. now rewrite Hview.
Qed.

Lemma penguins_view_store h items vs x o o0 :
  penguins_view h items = Ok vs ->
  h !! x = Some o0 -> (forall p, o0 <> OPenguin p) ->
  penguins_view (<[x:=o]> h) items = Ok vs.
Proof.
  intros Hv Hx Hno. revert vs Hv.
  induction items as [|[l|] rest IH]; simpl; intros vs Hv; [exact Hv| |].
  - apply result_bind_Ok in Hv as (p & Hl & Hv).
    apply result_bind_Ok in Hv as (vs' & Hrest & Hv).
    apply get_penguin_Ok in Hl.
    assert (Hl' : <[x:=o]> h !! l = Some (OPenguin p)).
    { rewrite list_lookup_insert_ne; [exact Hl|].
      intros ->. rewrite Hl in Hx. injection Hx as <-. now apply (Hno p). }
    rewrite (proj2 (get_penguin_Ok _ _ _) Hl'). simpl.
    now rewrite (IH _ Hrest).
  - apply result_bind_Ok in Hv as (vs' & Hrest & Hv).
    now rewrite (IH _ Hrest).
Qed.

(** The view of a well-typed team. *)
Lemma well_typed_team_view h l t :
  well_typed h -> h !! l = Some (OTeam t) ->
  exists items vs ms,
    h !! Team.penguins t = Some (OPenguinList items) /\
    h !! Team.moves t = Some (OMoveList ms) /\
    penguins_view h items = Ok vs /\
    Forall (fun v => v <> None) vs /\
    team_view h l = Ok (mk_view (Team.name t) (Team.fish t) vs ms).
Proof.
  intros Hwt Hl.
  destruct (well_typed_team _ _ _ Hwt Hl) as ((items & Hi) & (ms & Hms) & _).
  destruct (penguins_view_refs h items (well_typed_list _ _ _ Hwt Hi))
    as (vs & Hvs & _ & Hsome).
  exists items, vs, ms. repeat split; auto.
  unfold team_view.
  rewrite (proj2 (get_team_Ok _ _ _) Hl). cbn [mbind result_bind].
  rewrite (proj2 (get_penguin_list_Ok _ _ _) Hi). cbn [mbind result_bind].
  rewrite Hvs. cbn [mbind result_bind].
  now rewrite (proj2 (get_move_list_Ok _ _ _) Hms).
Qed.

Lemma copy_opt_prefix depth r memo h r' memo' h' :
  copy_opt (deep_copy depth) r memo h = (Ok (r', memo'), h') ->
  h `prefix_of` h'.
Proof.
  intros Hrun.
  destruct (copy_opt_ok _ (deep_copy_ok depth) _ _ _ _ _ _ 0%nat Hrun)
    as (Hp & _); auto.
  - lia.
  - intros x y _. lia.
  - intros x o _ _. destruct o; simpl; auto; try lia.
    + repeat split; intros; lia.
    + intros y _. lia.
Qed.

Lemma penguins_view_agree (h h' : heap) items :
  (forall x, In (Some x) items -> h' !! x = h !! x) ->
  penguins_view h' items = penguins_view h items.
Proof.
  induction items as [|[l|] rest IH]; intros Hsame; simpl; [reflexivity| |].
  - unfold get_penguin, deref. rewrite (Hsame l (or_introl eq_refl)).
    rewrite IH; [reflexivity|]. intros x Hx. apply Hsame. now right.
  - rewrite IH; [reflexivity|]. intros x Hx. apply Hsame. now right.
Qed.

Lemma penguins_view_app (h : heap) items vs r v :
  penguins_view h items = Ok vs ->
  match r, v with
  | Some l, Some p => h !! l = Some (OPenguin p)
  | None, None => True
  | _, _ => False
  end ->
  penguins_view h (items ++ [r]) = Ok (vs ++ [v]).
Proof.
  revert vs. induction items as [|[l|] rest IH]; simpl; intros vs Hv Hr.
  - injection Hv as <-. destruct r as [l|], v as [p|]; try contradiction.
    + now rewrite (proj2 (get_penguin_Ok _ _ _) Hr).
    + reflexivity.
  - apply result_bind_Ok in Hv as (p & Hl & Hv).
    apply result_bind_Ok in Hv as (vs' & Hrest & Hv). injection Hv as <-.
    rewrite Hl. simpl. now rewrite (IH _ Hrest Hr).
  - apply result_bind_Ok in Hv as (vs' & Hrest & Hv). injection Hv as <-.
    now rewrite (IH _ Hrest Hr).
Qed.

Lemma penguins_view_refs_inv (h : heap) items vs :
  penguins_view h items = Ok vs -> Forall (fun v => v <> None) vs ->
  forall x, In x items -> exists pl p, x = Some pl /\ h !! pl = Some (OPenguin p).
Proof.
  revert vs. induction items as [|[l|] rest IH]; simpl; intros vs Hv Hsome x Hx;
    [destruct Hx| |].
  - apply result_bind_Ok in Hv as (p & Hl & Hv).
    apply result_bind_Ok in Hv as (vs' & Hrest & Hv). injection Hv as <-.
    apply Forall_cons in Hsome as [_ Hsome].
    destruct Hx as [<-|Hx]; [|exact (IH _ Hrest Hsome x Hx)].
    exists l, p. split; [reflexivity|now apply get_penguin_Ok].
  - apply result_bind_Ok in Hv as (vs' & Hrest & Hv). injection Hv as <-.
    apply Forall_cons in Hsome as [Hno _]. now destruct Hno.
Qed.

Lemma copy_items_distinct depth (h0 : heap) items :
  (forall x, In x items -> exists pl p, x = Some pl /\ h0 !! pl = Some (OPenguin p)) ->
  NoDup items ->
  forall memo h items' memo' h',
    copy_items (deep_copy depth) items memo h = (Ok (items', memo'), h') ->
    h0 `prefix_of` h ->
    (forall x, In (Some x) items -> memo !! x = None) ->
    NoDup items' /\ forall y, In (Some y) items' -> (length h <= y)%nat.
Proof.
  induction items as [|x rest IH];
    intros Hall Hnd memo h items' memo' h' Hrun Hp Hmiss.
  - simpl in Hrun. apply M_ret_Ok in Hrun as [[= <- <-] <-].
    split; [constructor|intros y []].
  - destruct (Hall x (or_introl eq_refl)) as (pl & p & -> & Hpl).
    apply NoDup_cons in Hnd as [Hnotin Hnd].
    rewrite list_elem_of_In in Hnotin.
    simpl in Hrun.
    apply M_bind_Ok in Hrun as ([l1 memo1] & h1 & Hl & Hrun).
    apply M_bind_Ok in Hrun as ([rest' memo2] & h2 & Hrest & Hrun).
    apply M_ret_Ok in Hrun as [[= <- <-] <-].
    destruct depth as [|depth]; [discriminate|].
    apply deep_copy_miss in Hl as (o & Ho & -> & Hl);
      [|apply Hmiss; now left].
    assert (o = OPenguin p) as ->.
    { pose proof (prefix_lookup_Some _ _ _ _ Hpl Hp). congruence. }
    destruct Hl as [-> ->].
    assert (Hp1 : h0 `prefix_of` h ++ [OPenguin p]) by now apply prefix_alloc.
    destruct (IH (fun y Hy => Hall y (or_intror Hy)) Hnd _ _ _ _ _ Hrest Hp1)
      as (Hnd' & Hge).
    { intros y Hy. rewrite lookup_insert_ne; [apply Hmiss; now right|].
      intros ->. now apply Hnotin. }
    split.
    + apply NoDup_cons. split; [|exact Hnd'].
      rewrite list_elem_of_In. intros Hin. apply Hge in Hin.
      rewrite length_app in Hin. simpl in Hin. lia.
    + intros y [[= <-]|Hy]; [lia|]. apply Hge in Hy.
      rewrite length_app in Hy. simpl in Hy. lia.
Qed.

(** The copy of a team whose attributes hold what the class declares. *)
Lemma pickle_roundtrip_shape l (h : heap) l' h' t items ms vs :
  h !! l = Some (OTeam t) ->
  h !! Team.penguins t = Some (OPenguinList items) ->
  h !! Team.moves t = Some (OMoveList ms) ->
  penguins_view h items = Ok vs ->
  Forall (fun v => v <> None) vs ->
  pickle_roundtrip l h = (Ok l', h') ->
  exists t' items',
    l' = length h /\
    h' !! l' = Some (OTeam t') /\
    Team.name t' = Team.name t /\ Team.fish t' = Team.fish t /\
    h' !! Team.penguins t' = Some (OPenguinList items') /\
    h' !! Team.moves t' = Some (OMoveList ms) /\
    penguins_view h' items' = Ok vs /\
    (NoDup items -> NoDup items').
Proof.
  intros Hl Hi Hms Hvs Hsome. unfold pickle_roundtrip. intros Hrun.
  pose proof (penguins_view_refs_inv _ _ _ Hvs Hsome) as Hrefs.
  apply M_bind_Ok in Hrun as ([l0 memo] & h1 & Hcopy & Hrun).
  apply M_ret_Ok in Hrun as [<- <-].
  remember recursion_limit as depth eqn:Hd. clear Hd.
  destruct depth as [|depth]; [discriminate Hcopy|].
  apply deep_copy_miss in Hcopy as (o & Ho & -> & Hcopy); [|apply lookup_empty].
  rewrite Hl in Ho. injection Ho as <-.
  destruct Hcopy as (ps & memo1 & ha & ms' & memo2 & hb & opp
                     & Hps & Hmoves & hc & Hopp & Hlt & ->).
  set (l' := length h) in *.
  assert (Hblank : (h ++ [OBlank]) !! l' = Some OBlank).
  { unfold l'. rewrite lookup_app_r by lia. now rewrite Nat.sub_diag. }
  (* the list of penguins *)
  assert (Hmiss : (<[l:=l']> (∅ : gmap nat nat)) !! Team.penguins t = None).
  { rewrite lookup_insert_ne; [apply lookup_empty|].
    intros E. rewrite <- E, Hl in Hi. discriminate Hi. }
  destruct depth as [|depth]; [discriminate Hps|].
  apply deep_copy_miss in Hps as (o & Ho & -> & Hps); [|exact Hmiss].
  assert (Hi' : (h ++ [OBlank]) !! Team.penguins t = Some (OPenguinList items))
    by (apply lookup_app_l_Some; exact Hi).
  rewrite Hi' in Ho. injection Ho as <-.
  destruct Hps as (items' & hi & Hitems & Hlti & ->).
  set (ps := length (h ++ [OBlank])) in *.
  set (hs := (h ++ [OBlank]) ++ [OPenguinList []]) in *.
  assert (Hp0 : h `prefix_of` hs).
  { unfold hs. rewrite <- app_assoc. now apply prefix_app_r. }
  assert (Hm0 : memo_leaves h
            (<[Team.penguins t:=ps]> (<[l:=l']> (∅ : gmap nat nat))) hs).
  { intros x x' Hx.
    destruct (decide (Team.penguins t = x)) as [<-|Hne1].
    { split; intros ? E; rewrite Hi in E; discriminate E. }
    rewrite lookup_insert_ne in Hx by exact Hne1.
    destruct (decide (l = x)) as [<-|Hne2].
    { split; intros ? E; rewrite Hl in E; discriminate E. }
    rewrite lookup_insert_ne in Hx by exact Hne2.
    rewrite lookup_empty in Hx. discriminate Hx. }
  destruct (copy_items_leaves _ h items Hrefs
              _ _ _ _ _ Hitems Hp0 Hm0) as (Hview_i & Hm1 & Hp1).
  assert (Hdistinct : NoDup items -> NoDup items').
  { intros Hnd.
    apply (copy_items_distinct _ h items Hrefs Hnd _ _ _ _ _ Hitems Hp0).
    intros x Hx. destruct (Hrefs _ Hx) as (pl & p & [= <-] & Hp).
    rewrite lookup_insert_ne by (intros E; congruence).
    rewrite lookup_insert_ne by (intros E; congruence).
    apply lookup_empty. }
  rewrite Hvs in Hview_i.
  assert (Hps_i : hi !! ps = Some (OPenguinList [])).
  { eapply prefix_lookup_Some; [|exact Hp1].
    unfold hs, ps. rewrite lookup_app_r by lia. now rewrite Nat.sub_diag. }
  assert (Hl'_i : hi !! l' = Some OBlank).
  { eapply prefix_lookup_Some; [|exact Hp1].
    unfold hs. now apply lookup_app_l_Some. }
  set (ha := <[ps:=OPenguinList items']> hi) in *.
  assert (Hview_a : penguins_view ha items' = Ok vs).
  { eapply penguins_view_store; [exact Hview_i|exact Hps_i|discriminate]. }
  assert (Hm_a : memo_leaves h memo1 ha).
  { eapply memo_leaves_store; [exact Hm1|exact Hps_i|]. intros []. }
  assert (Hp_a : h `prefix_of` ha).
  { apply prefix_store; [now transitivity hs|]. unfold ps.
    rewrite length_app. lia. }
  assert (Hps_a : ha !! ps = Some (OPenguinList items'))
    by (apply list_lookup_insert_eq; exact Hlti).
  assert (Hne_ps : ps <> l').
  { unfold ps, l'. rewrite length_app. simpl. lia. }
  assert (Hl'_a : ha !! l' = Some OBlank).
  { unfold ha. rewrite list_lookup_insert_ne by exact Hne_ps. exact Hl'_i. }
  (* the list of moves *)
  destruct (deep_copy_leaf _ _ _ _ _ _ _ _ _ Hmoves Hp_a Hms I Hm_a)
    as (Hms_b & _ & Hp_b).
  (* the opponent *)
  pose proof (copy_opt_prefix _ _ _ _ _ _ _ Hopp) as Hp_c.
  assert (Hp_ac : ha `prefix_of` hc) by now transitivity hb.
  assert (Hl'_c : hc !! l' = Some OBlank)
    by now apply (prefix_lookup_Some ha).
  assert (Hps_c : hc !! ps = Some (OPenguinList items'))
    by now apply (prefix_lookup_Some ha).
  assert (Hms_c : hc !! ms' = Some (OMoveList ms))
    by now apply (prefix_lookup_Some hb).
  assert (Hview_c : penguins_view hc items' = Ok vs)
    by now apply (penguins_view_prefix ha).
  (* the team *)
  set (t' := Team.mk (Team.name t) (Team.fish t) ps ms' opp).
  exists t', items'. split; [reflexivity|].
  split; [now apply list_lookup_insert_eq|].
  split; [reflexivity|]. split; [reflexivity|].
  cbn [Team.penguins Team.moves t'].
  split; [rewrite list_lookup_insert_ne by congruence; exact Hps_c|].
  split.
  { rewrite list_lookup_insert_ne; [exact Hms_c|].
    intros E. rewrite E, Hms_c in Hl'_c. discriminate Hl'_c. }
  split; [|exact Hdistinct].
  exact (penguins_view_store _ _ _ _ _ _ Hview_c Hl'_c ltac:(discriminate)).
Qed.

Lemma team_view_shape (h : heap) l t items ms vs :
  h !! l = Some (OTeam t) ->
  h !! Team.penguins t = Some (OPenguinList items) ->
  h !! Team.moves t = Some (OMoveList ms) ->
  penguins_view h items = Ok vs ->
  team_view h l = Ok (mk_view (Team.name t) (Team.fish t) vs ms).
Proof.
  intros Hl Hi Hms Hvs. unfold team_view.
  rewrite (proj2 (get_team_Ok _ _ _) Hl). cbn [mbind result_bind].
  rewrite (proj2 (get_penguin_list_Ok _ _ _) Hi). cbn [mbind result_bind].
  rewrite Hvs. cbn [mbind result_bind].
  now rewrite (proj2 (get_move_list_Ok _ _ _) Hms).
Qed.


(** ** Running [_update_team] *)

Lemma M_bind_run {A B} (c : M A) (k : A -> M B) h a h1 :
  c h = (Ok a, h1) -> (c ≫= k) h = k a h1.
Proof. intros Hc. unfold mbind, M_bind. now rewrite Hc. Qed.

Lemma store_run l o (h : heap) :
  (l < length h)%nat -> store l o h = (Ok tt, <[l:=o]> h).
Proof. intros Hl. unfold store. now rewrite decide_True. Qed.

Lemma M_bind_raise {A B} (c : M A) (k : A -> M B) h e h1 :
  c h = (Raise e, h1) -> (c ≫= k) h = (Raise e, h1).
Proof. intros Hc. unfold mbind, M_bind. now rewrite Hc. Qed.

Section UpdateRun.
Context {Board : Type} {board_api : BoardAPI Board}.
Implicit Types (g : GameState.t Board) (h : heap) (m : Move.t).

Lemma first_penguin_at_absent h src items vs :
  penguins_view h items = Ok vs -> Forall (fun v => v <> None) vs ->
  stands_on src vs = false ->
  GameState.first_penguin_at h src items = Ok None /\
  forall c, relocate_first src c vs = None.
Proof.
  revert vs. induction items as [|[l|] rest IH]; simpl; intros vs Hv Hsome Hno.
  - injection Hv as <-. auto.
  - apply result_bind_Ok in Hv as (p & Hl & Hv).
    apply result_bind_Ok in Hv as (vs' & Hrest & Hv). injection Hv as <-.
    apply Forall_cons in Hsome as [_ Hsome]. simpl in Hno.
    apply orb_false_iff in Hno as [Hp Hno].
    destruct (IH _ Hrest Hsome Hno) as [Hfirst Hrel].
    rewrite Hl. cbn [mbind result_bind]. rewrite Hp. split; [exact Hfirst|].
    intros c. simpl. rewrite Hp. now rewrite Hrel.
  - apply result_bind_Ok in Hv as (vs' & Hrest & Hv). injection Hv as <-.
    apply Forall_cons in Hsome as [Hn _]. now destruct Hn.
Qed.

Lemma first_penguin_at_present h src c items vs :
  penguins_view h items = Ok vs -> Forall (fun v => v <> None) vs ->
  stands_on src vs = true ->
  exists pl p vs',
    GameState.first_penguin_at h src items = Ok (Some pl) /\
    h !! pl = Some (OPenguin p) /\ In (Some pl) items /\
    relocate_first src c vs = Some vs' /\
    (NoDup items ->
     penguins_view (<[pl:=OPenguin (Penguin.mk (Penguin.team_enum p) c)]> h)
       items = Ok vs').
Proof.
  revert vs.
  induction items as [|[l|] rest IH]; simpl; intros vs Hv Hsome Hon.
  - injection Hv as <-. discriminate Hon.
  - apply result_bind_Ok in Hv as (p & Hl & Hv).
    apply result_bind_Ok in Hv as (vs' & Hrest & Hv). injection Hv as <-.
    apply Forall_cons in Hsome as [_ Hsome].
    pose proof Hl as Hl'. apply get_penguin_Ok in Hl'.
    assert (Hlt : (l < length h)%nat) by now apply lookup_lt_Some in Hl'.
    rewrite Hl. cbn [mbind result_bind]. simpl in Hon. simpl.
    destruct (bool_decide (Some (Penguin.coordinate p) = src)) eqn:Hp.
    + exists l, p, (Some (Penguin.mk (Penguin.team_enum p) c) :: vs').
      split; [reflexivity|]. split; [exact Hl'|]. split; [now left|].
      split; [reflexivity|]. intros Hnd.
      apply NoDup_cons in Hnd as [Hnotin Hnd].
      rewrite list_elem_of_In in Hnotin.
      unfold get_penguin, deref.
      rewrite list_lookup_insert_eq by exact Hlt. cbn [mbind result_bind].
      rewrite (penguins_view_agree h); [now rewrite Hrest|].
      intros x Hx. rewrite list_lookup_insert_ne; [reflexivity|].
      intros ->. now apply Hnotin.
    + destruct (IH _ Hrest Hsome Hon)
        as (pl & p' & vs'' & Hfirst & Hpl & Hin & Hrel & Hview).
      exists pl, p', (Some p :: vs''). rewrite Hrel.
      split; [exact Hfirst|]. split; [exact Hpl|]. split; [now right|].
      split; [reflexivity|]. intros Hnd.
      apply NoDup_cons in Hnd as [Hnotin Hnd].
      rewrite list_elem_of_In in Hnotin.
      assert (Hne : pl <> l).
      { intros ->. now apply Hnotin. }
      unfold get_penguin at 1, deref.
      rewrite list_lookup_insert_ne by exact Hne. rewrite Hl'.
      cbn [mbind result_bind]. now rewrite (Hview Hnd).
  - apply result_bind_Ok in Hv as (vs' & Hrest & Hv). injection Hv as <-.
    apply Forall_cons in Hsome as [Hn _]. now destruct Hn.
Qed.

(** What [_update_team] does to a team whose attributes hold what the
    class declares. *)
Lemma update_team_run g team m nb h t items ms vs :
  h !! team = Some (OTeam t) ->
  h !! Team.penguins t = Some (OPenguinList items) ->
  h !! Team.moves t = Some (OMoveList ms) ->
  penguins_view h items = Ok vs ->
  Forall (fun v => v <> None) vs ->
  (stands_on (Move.from_value m) vs = true ->
   Field.penguin (get_field nb (Move.to_value m)) <> None) ->
  exists h' t',
    GameState._update_team g team m nb h = (Ok tt, h') /\
    (NoDup items ->
     team_view h' team
       = Ok (updated_view g m nb
               (mk_view (Team.name t) (Team.fish t) vs ms))) /\
    h' !! team = Some (OTeam t') /\
    Team.opponent t' = Team.opponent t /\
    (length h <= length h')%nat /\
    (forall x, x <> team -> x <> Team.penguins t -> x <> Team.moves t ->
               ~ In (Some x) items -> (x < length h)%nat ->
               h' !! x = h !! x).
Proof.
  intros Ht Hi Hms Hvs Hsome Hnew.
  pose proof (penguins_view_refs_inv _ _ _ Hvs Hsome) as Hrefs.
  assert (Hne_tm : team <> Team.moves t) by (intros E; congruence).
  assert (Hne_tp : team <> Team.penguins t) by (intros E; congruence).
  assert (Hne_pm : Team.penguins t <> Team.moves t) by (intros E; congruence).
  assert (Hitem_ne : forall x, In (Some x) items ->
            x <> team /\ x <> Team.penguins t /\ x <> Team.moves t).
  { intros x Hx. destruct (Hrefs _ Hx) as (pl & p & [= <-] & Hp).
    repeat split; intros E; congruence. }
  assert (Hlt_t : (team < length h)%nat) by now apply lookup_lt_Some in Ht.
  assert (Hlt_p : (Team.penguins t < length h)%nat)
    by now apply lookup_lt_Some in Hi.
  assert (Hlt_m : (Team.moves t < length h)%nat)
    by now apply lookup_lt_Some in Hms.
  unfold GameState._update_team.
  (* team.moves.append(move) *)
  set (ha := <[Team.moves t:=OMoveList (ms ++ [m])]> h).
  assert (Ht_a : ha !! team = Some (OTeam t))
    by (unfold ha; now rewrite list_lookup_insert_ne by congruence).
  assert (Hi_a : ha !! Team.penguins t = Some (OPenguinList items))
    by (unfold ha; now rewrite list_lookup_insert_ne by congruence).
  assert (Hms_a : ha !! Team.moves t = Some (OMoveList (ms ++ [m])))
    by (unfold ha; now apply list_lookup_insert_eq).
  assert (Hvs_a : penguins_view ha items = Ok vs).
  { rewrite <- Hvs. apply penguins_view_agree. intros x Hx. unfold ha.
    apply list_lookup_insert_ne. destruct (Hitem_ne x Hx) as (_ & _ & E).
    congruence. }
  assert (Hlen_a : length ha = length h) by (unfold ha; apply length_insert).
  rewrite (M_bind_run _ _ h t h);
    [|unfold query; now rewrite (proj2 (get_team_Ok _ _ _) Ht)].
  rewrite (M_bind_run _ _ h ms h);
    [|unfold query; now rewrite (proj2 (get_move_list_Ok _ _ _) Hms)].
  rewrite (M_bind_run _ _ h tt ha); [|now apply store_run].
  rewrite (M_bind_run _ _ ha t ha);
    [|unfold query; now rewrite (proj2 (get_team_Ok _ _ _) Ht_a)].
  rewrite (M_bind_run _ _ ha items ha);
    [|unfold query; now rewrite (proj2 (get_penguin_list_Ok _ _ _) Hi_a)].
  unfold updated_view. cbn [view_name view_fish view_penguins view_moves].
  set (new_penguin := Field.penguin (get_field nb (Move.to_value m))) in *.
  set (fish' := Team.fish t
    + Field.get_fish (get_field (GameState.board g) (Move.to_value m))).
  destruct (stands_on (Move.from_value m) vs) eqn:Hon.
  - (* a penguin of the team stands on the source *)
    destruct new_penguin as [np|] eqn:Enp; [|now destruct (Hnew eq_refl)].
    destruct (first_penguin_at_present ha (Move.from_value m)
                (Penguin.coordinate np) items vs Hvs_a Hsome Hon)
      as (pl & p & vs' & Hfirst & Hpl & Hin & Hrel & Hview).
    destruct (Hitem_ne pl Hin) as (Hpl_t & Hpl_p & Hpl_m).
    rewrite Hrel.
    set (hb := <[pl:=OPenguin (Penguin.mk (Penguin.team_enum p)
                                          (Penguin.coordinate np))]> ha) in *.
    assert (Hlt_pl : (pl < length ha)%nat) by now apply lookup_lt_Some in Hpl.
    assert (Ht_b : hb !! team = Some (OTeam t))
      by (unfold hb; now rewrite list_lookup_insert_ne by congruence).
    assert (Hlen_b : length hb = length h)
      by (unfold hb; rewrite length_insert; exact Hlen_a).
    rewrite (M_bind_run _ _ ha (Some pl) ha);
      [|unfold query; now rewrite Hfirst].
    rewrite (M_bind_run _ _ ha tt hb).
    2:{ rewrite (M_bind_run _ _ ha p ha);
          [|unfold query; now rewrite (proj2 (get_penguin_Ok _ _ _) Hpl)].
        now apply store_run. }
    rewrite (M_bind_run _ _ hb t hb);
      [|unfold query; now rewrite (proj2 (get_team_Ok _ _ _) Ht_b)].
    rewrite store_run by lia.
    set (t' := Team.set_fish fish' t).
    exists (<[team:=OTeam t']> hb), t'.
    split; [reflexivity|]. split; [|split; [|split; [|split]]].
    + intros Hnd.
      apply (team_view_shape _ team t' items (ms ++ [m]) vs').
      * apply list_lookup_insert_eq. lia.
      * change (Team.penguins t') with (Team.penguins t).
        rewrite list_lookup_insert_ne by congruence.
        unfold hb. rewrite list_lookup_insert_ne by congruence. exact Hi_a.
      * change (Team.moves t') with (Team.moves t).
        rewrite list_lookup_insert_ne by congruence.
        unfold hb. rewrite list_lookup_insert_ne by congruence. exact Hms_a.
      * rewrite <- (Hview Hnd). apply penguins_view_agree.
        intros x Hx. apply list_lookup_insert_ne.
        destruct (Hitem_ne x Hx) as (E & _). congruence.
    + apply list_lookup_insert_eq. lia.
    + reflexivity.
    + rewrite length_insert. lia.
    + intros x Hx_t Hx_p Hx_m Hx_i Hx_lt.
      rewrite list_lookup_insert_ne by congruence.
      unfold hb. rewrite list_lookup_insert_ne by (intros ->; now apply Hx_i).
      unfold ha. now rewrite list_lookup_insert_ne by congruence.
  - (* no penguin of the team stands there: the new penguin is appended *)
    destruct (first_penguin_at_absent ha (Move.from_value m) items vs
                Hvs_a Hsome Hon) as [Hfirst Hrel].
    rewrite (M_bind_run _ _ ha None ha); [|unfold query; now rewrite Hfirst].
    set (hr := match new_penguin with
               | Some np => ha ++ [OPenguin np]
               | None => ha
               end).
    set (r := match new_penguin with
              | Some _ => Some (length ha)
              | None => None
              end).
    assert (Hp_r : ha `prefix_of` hr).
    { unfold hr. destruct new_penguin; [now apply prefix_app_r|reflexivity]. }
    assert (Ht_r : hr !! team = Some (OTeam t))
      by now apply (prefix_lookup_Some ha).
    assert (Hi_r : hr !! Team.penguins t = Some (OPenguinList items))
      by now apply (prefix_lookup_Some ha).
    assert (Hms_r : hr !! Team.moves t = Some (OMoveList (ms ++ [m])))
      by now apply (prefix_lookup_Some ha).
    assert (Hvs_r : penguins_view hr (items ++ [r]) = Ok (vs ++ [new_penguin])).
    { apply penguins_view_app; [now apply (penguins_view_prefix ha)|].
      unfold r, hr. destruct new_penguin as [np|]; [|exact I].
      rewrite lookup_app_r by lia. now rewrite Nat.sub_diag. }
    set (hb := <[Team.penguins t:=OPenguinList (items ++ [r])]> hr).
    assert (Hlen_r : (length h <= length hr)%nat).
    { apply prefix_length in Hp_r. lia. }
    assert (Ht_b : hb !! team = Some (OTeam t))
      by (unfold hb; now rewrite list_lookup_insert_ne by congruence).
    assert (Hlen_b : length hb = length hr) by (unfold hb; apply length_insert).
    rewrite (M_bind_run _ _ ha tt hb).
    2:{ rewrite (M_bind_run _ _ ha r hr).
        2:{ unfold r, hr. destruct new_penguin as [np|]; [|reflexivity].
            reflexivity. }
        rewrite (M_bind_run _ _ hr t hr);
          [|unfold query; now rewrite (proj2 (get_team_Ok _ _ _) Ht_r)].
        rewrite (M_bind_run _ _ hr items hr);
          [|unfold query;
            now rewrite (proj2 (get_penguin_list_Ok _ _ _) Hi_r)].
        apply store_run. lia. }
    rewrite (M_bind_run _ _ hb t hb);
      [|unfold query; now rewrite (proj2 (get_team_Ok _ _ _) Ht_b)].
    rewrite store_run by lia.
    set (t' := Team.set_fish fish' t).
    assert (Hfinal : (match new_penguin with
                      | Some np =>
                          match relocate_first (Move.from_value m)
                                  (Penguin.coordinate np) vs with
                          | Some vs0 => vs0
                          | None => vs ++ [new_penguin]
                          end
                      | None => vs ++ [new_penguin]
                      end) = vs ++ [new_penguin]).
    { destruct new_penguin as [np|]; [|reflexivity]. now rewrite Hrel. }
    rewrite Hfinal.
    exists (<[team:=OTeam t']> hb), t'.
    split; [reflexivity|]. split; [|split; [|split; [|split]]].
    + intros _.
      apply (team_view_shape _ team t' (items ++ [r]) (ms ++ [m])
               (vs ++ [new_penguin])).
      * apply list_lookup_insert_eq. lia.
      * change (Team.penguins t') with (Team.penguins t).
        rewrite list_lookup_insert_ne by congruence.
        unfold hb. apply list_lookup_insert_eq. lia.
      * change (Team.moves t') with (Team.moves t).
        rewrite list_lookup_insert_ne by congruence.
        unfold hb. rewrite list_lookup_insert_ne by congruence. exact Hms_r.
      * rewrite <- Hvs_r. apply penguins_view_agree.
        assert (Hitem_r : forall x, In (Some x) (items ++ [r]) ->
                  x <> team /\ x <> Team.penguins t).
        { intros x Hx. apply in_app_or in Hx as [Hx|[Hx|[]]].
          - destruct (Hitem_ne x Hx) as (E1 & E2 & _). now split.
          - unfold r in Hx. destruct new_penguin; [|discriminate Hx].
            injection Hx as <-. split; lia. }
        intros x Hx. destruct (Hitem_r x Hx) as [E1 E2].
        rewrite list_lookup_insert_ne by congruence.
        unfold hb. apply list_lookup_insert_ne. congruence.
    + apply list_lookup_insert_eq. lia.
    + reflexivity.
    + rewrite length_insert. lia.
    + intros x Hx_t Hx_p Hx_m Hx_i Hx_lt.
      rewrite list_lookup_insert_ne by congruence.
      unfold hb. rewrite list_lookup_insert_ne by congruence.
      destruct (lookup_lt_is_Some_2 h x Hx_lt) as [o Ho].
      rewrite Ho. apply (prefix_lookup_Some ha); [|exact Hp_r].
      unfold ha. now rewrite list_lookup_insert_ne by congruence.
Qed.

Lemma first_penguin_at_found h src items vs :
  penguins_view h items = Ok vs -> Forall (fun v => v <> None) vs ->
  stands_on src vs = true ->
  exists pl, GameState.first_penguin_at h src items = Ok (Some pl).
Proof.
  revert vs. induction items as [|[l|] rest IH]; simpl; intros vs Hv Hsome Hon.
  - injection Hv as <-. discriminate Hon.
  - apply result_bind_Ok in Hv as (p & Hl & Hv).
    apply result_bind_Ok in Hv as (vs' & Hrest & Hv). injection Hv as <-.
    apply Forall_cons in Hsome as [_ Hsome].
    rewrite Hl. cbn [mbind result_bind]. simpl in Hon.
    destruct (bool_decide (Some (Penguin.coordinate p) = src)) eqn:Hp.
    + eauto.
    + exact (IH _ Hrest Hsome Hon).
  - apply result_bind_Ok in Hv as (vs' & Hrest & Hv). injection Hv as <-.
    apply Forall_cons in Hsome as [Hn _]. now destruct Hn.
Qed.

(** The run of [_update_team] that ends in [new_penguin.coordinate] on
    [None]: the move has been appended by then. *)
Lemma update_team_raise_run g team m nb h t items ms vs :
  h !! team = Some (OTeam t) ->
  h !! Team.penguins t = Some (OPenguinList items) ->
  h !! Team.moves t = Some (OMoveList ms) ->
  penguins_view h items = Ok vs ->
  Forall (fun v => v <> None) vs ->
  stands_on (Move.from_value m) vs = true ->
  Field.penguin (get_field nb (Move.to_value m)) = None ->
  GameState._update_team g team m nb h
    = (Raise AttributeError, <[Team.moves t:=OMoveList (ms ++ [m])]> h).
Proof.
  intros Ht Hi Hms Hvs Hsome Hon Hnone.
  pose proof (penguins_view_refs_inv _ _ _ Hvs Hsome) as Hrefs.
  assert (Hlt_m : (Team.moves t < length h)%nat)
    by now apply lookup_lt_Some in Hms.
  unfold GameState._update_team.
  set (ha := <[Team.moves t:=OMoveList (ms ++ [m])]> h).
  assert (Ht_a : ha !! team = Some (OTeam t))
    by (unfold ha; now rewrite list_lookup_insert_ne by congruence).
  assert (Hi_a : ha !! Team.penguins t = Some (OPenguinList items))
    by (unfold ha; now rewrite list_lookup_insert_ne by congruence).
  assert (Hvs_a : penguins_view ha items = Ok vs).
  { rewrite <- Hvs. apply penguins_view_agree. intros x Hx. unfold ha.
    apply list_lookup_insert_ne.
    destruct (Hrefs _ Hx) as (pl & p & [= <-] & Hp). congruence. }
  destruct (first_penguin_at_found ha (Move.from_value m) items vs
              Hvs_a Hsome Hon) as (pl & Hfirst).
  rewrite (M_bind_run _ _ h t h);
    [|unfold query; now rewrite (proj2 (get_team_Ok _ _ _) Ht)].
  rewrite (M_bind_run _ _ h ms h);
    [|unfold query; now rewrite (proj2 (get_move_list_Ok _ _ _) Hms)].
  rewrite (M_bind_run _ _ h tt ha); [|now apply store_run].
  rewrite (M_bind_run _ _ ha t ha);
    [|unfold query; now rewrite (proj2 (get_team_Ok _ _ _) Ht_a)].
  rewrite (M_bind_run _ _ ha items ha);
    [|unfold query; now rewrite (proj2 (get_penguin_list_Ok _ _ _) Hi_a)].
  rewrite (M_bind_run _ _ ha (Some pl) ha);
    [|unfold query; now rewrite Hfirst].
  apply M_bind_raise. rewrite Hnone. reflexivity.
Qed.

End UpdateRun.

(** ** The teams of the successor *)

Lemma penguins_view_cells (h : heap) items vs x :
  penguins_view h items = Ok vs -> In (Some x) items ->
  exists p, h !! x = Some (OPenguin p).
Proof.
  revert vs. induction items as [|[l|] rest IH]; simpl; intros vs Hv Hx;
    [destruct Hx| |].
  - apply result_bind_Ok in Hv as (p & Hl & Hv).
    apply result_bind_Ok in Hv as (vs' & Hrest & Hv).
    destruct Hx as [[= <-]|Hx]; [|exact (IH _ Hrest Hx)].
    exists p. now apply get_penguin_Ok.
  - apply result_bind_Ok in Hv as (vs' & Hrest & Hv).
    destruct Hx as [Hx|Hx]; [discriminate Hx|exact (IH _ Hrest Hx)].
Qed.

(** A team shows the same in a store that agrees on its own object, its
    two lists and its penguins. *)
Lemma team_frame (h h' : heap) l t items ms vs :
  h !! l = Some (OTeam t) ->
  h !! Team.penguins t = Some (OPenguinList items) ->
  h !! Team.moves t = Some (OMoveList ms) ->
  penguins_view h items = Ok vs ->
  (forall x, x = l \/ x = Team.penguins t \/ x = Team.moves t
             \/ In (Some x) items -> h' !! x = h !! x) ->
  h' !! l = Some (OTeam t) /\
  h' !! Team.penguins t = Some (OPenguinList items) /\
  h' !! Team.moves t = Some (OMoveList ms) /\
  penguins_view h' items = Ok vs.
Proof.
  intros Hl Hi Hms Hvs Hsame.
  split; [rewrite Hsame by auto; exact Hl|].
  split; [rewrite Hsame by auto; exact Hi|].
  split; [rewrite Hsame by auto; exact Hms|].
  rewrite <- Hvs. apply penguins_view_agree. intros x Hx. apply Hsame. auto.
Qed.

Lemma team_view_cells (h : heap) l v :
  team_view h l = Ok v ->
  exists t items,
    h !! l = Some (OTeam t) /\
    h !! Team.penguins t = Some (OPenguinList items) /\
    h !! Team.moves t = Some (OMoveList (view_moves v)) /\
    penguins_view h items = Ok (view_penguins v) /\
    v = mk_view (Team.name t) (Team.fish t) (view_penguins v) (view_moves v).
Proof.
  unfold team_view. intros Hv.
  apply result_bind_Ok in Hv as (t & Ht & Hv).
  apply result_bind_Ok in Hv as (items & Hi & Hv).
  apply result_bind_Ok in Hv as (vs & Hvs & Hv).
  apply result_bind_Ok in Hv as (ms & Hms & Hv).
  injection Hv as <-. simpl.
  exists t, items.
  split; [now apply get_team_Ok|].
  split; [now apply get_penguin_list_Ok|].
  split; [now apply get_move_list_Ok|].
  split; [exact Hvs|reflexivity].
Qed.

(** Assigning to [opponent] shows on no team. *)
Lemma team_view_set_opponent (h : heap) l t o x v :
  team_view h x = Ok v ->
  h !! l = Some (OTeam t) ->
  team_view (<[l:=OTeam (Team.set_opponent o t)]> h) x = Ok v.
Proof.
  intros Hv Hl.
  destruct (team_view_cells _ _ _ Hv) as (tx & items & Hx & Hi & Hms & Hvs & ->).
  assert (Hlt : (l < length h)%nat) by now apply lookup_lt_Some in Hl.
  simpl in *.
  assert (Hi' : <[l:=OTeam (Team.set_opponent o t)]> h !! Team.penguins tx
                = Some (OPenguinList items)).
  { rewrite list_lookup_insert_ne; [exact Hi|]. intros E. congruence. }
  assert (Hms' : <[l:=OTeam (Team.set_opponent o t)]> h !! Team.moves tx
                 = Some (OMoveList (view_moves v))).
  { rewrite list_lookup_insert_ne; [exact Hms|]. intros E. congruence. }
  assert (Hvs' : penguins_view (<[l:=OTeam (Team.set_opponent o t)]> h) items
                 = Ok (view_penguins v)).
  { eapply penguins_view_store; [exact Hvs|exact Hl|discriminate]. }
  destruct (decide (x = l)) as [->|Hne].
  - rewrite Hl in Hx. injection Hx as <-.
    apply (team_view_shape _ l (Team.set_opponent o t) items); auto.
    now apply list_lookup_insert_eq.
  - apply (team_view_shape _ x tx items); auto.
    now rewrite list_lookup_insert_ne by congruence.
Qed.

Section TeamViews.
Context {Board : Type} {board_api : BoardAPI Board} {move_api : MoveAPI}.
Implicit Types (g : GameState.t Board) (h : heap) (m : Move.t).

Lemma team_view_assign_opponent team other h h' x v :
  team_view h x = Ok v ->
  GameState.assign_opponent team other h = (Ok tt, h') ->
  team_view h' x = Ok v.
Proof.
  intros Hv Hrun. apply assign_opponent_Ok in Hrun as (t & Ht & ->).
  now apply team_view_set_opponent.
Qed.

(** [_update_team] on the team [a], seen on [a] and on a team [b] that
    shares no object with it. *)
Lemma update_team_views g m nb h h'
    a ta items_a ms_a vs_a b tb items_b ms_b vs_b :
  h !! a = Some (OTeam ta) ->
  h !! Team.penguins ta = Some (OPenguinList items_a) ->
  h !! Team.moves ta = Some (OMoveList ms_a) ->
  penguins_view h items_a = Ok vs_a ->
  Forall (fun v => v <> None) vs_a ->
  NoDup items_a ->
  h !! b = Some (OTeam tb) ->
  h !! Team.penguins tb = Some (OPenguinList items_b) ->
  h !! Team.moves tb = Some (OMoveList ms_b) ->
  penguins_view h items_b = Ok vs_b ->
  (forall x, x = b \/ x = Team.penguins tb \/ x = Team.moves tb
             \/ In (Some x) items_b ->
             x <> a /\ x <> Team.penguins ta /\ x <> Team.moves ta
             /\ ~ In (Some x) items_a) ->
  GameState._update_team g a m nb h = (Ok tt, h') ->
  team_view h' a
    = Ok (updated_view g m nb
            (mk_view (Team.name ta) (Team.fish ta) vs_a ms_a)) /\
  team_view h' b = Ok (mk_view (Team.name tb) (Team.fish tb) vs_b ms_b).
Proof.
  intros Ha Hia Hma Hva Hsome Hnd Hb Hib Hmb Hvb Hdisj Hrun.
  assert (Hnew : stands_on (Move.from_value m) vs_a = true ->
                 Field.penguin (get_field nb (Move.to_value m)) <> None).
  { intros Hon Hnone.
    rewrite (update_team_raise_run g a m nb h ta items_a ms_a vs_a
               Ha Hia Hma Hva Hsome Hon Hnone) in Hrun.
    discriminate Hrun. }
  destruct (update_team_run g a m nb h ta items_a ms_a vs_a
              Ha Hia Hma Hva Hsome Hnew)
    as (h3 & ta' & Hrun' & Hview & _ & _ & _ & Hframe).
  rewrite Hrun' in Hrun. injection Hrun as <-.
  split; [exact (Hview Hnd)|].
  assert (Hsame : forall x, x = b \/ x = Team.penguins tb \/ x = Team.moves tb
                    \/ In (Some x) items_b -> h3 !! x = h !! x).
  { intros x Hx. destruct (Hdisj x Hx) as (E1 & E2 & E3 & E4).
    apply Hframe; auto.
    destruct Hx as [-> | [-> | [-> | Hx]]].
    - now apply lookup_lt_Some in Hb.
    - now apply lookup_lt_Some in Hib.
    - now apply lookup_lt_Some in Hmb.
    - destruct (penguins_view_cells _ _ _ _ Hvb Hx) as (p & Hp).
      now apply lookup_lt_Some in Hp. }
  destruct (team_frame h h3 b tb items_b ms_b vs_b Hb Hib Hmb Hvb Hsame)
    as (Hb3 & Hib3 & Hmb3 & Hvb3).
  now apply (team_view_shape _ b tb items_b).
Qed.


(** X14: when a penguin of the team stands on the source of the move and
    the new board holds no penguin on the destination, [_update_team]
    raises AttributeError, and the move it was given stays appended to
    the history of the team; score and penguins are as before. *)
Theorem update_team_missing_penguin g team m nb h v :
  well_typed h ->
  team_view h team = Ok v ->
  stands_on (Move.from_value m) (view_penguins v) = true ->
  Field.penguin (get_field nb (Move.to_value m)) = None ->
  exists h',
    GameState._update_team g team m nb h = (Raise AttributeError, h') /\
    team_view h' team
      = Ok (mk_view (view_name v) (view_fish v) (view_penguins v)
                    (view_moves v ++ [m])).
Proof.
  intros Hwt Hv Hon Hnone.
  destruct (team_view_cells _ _ _ Hv) as (t & items & Ht & Hi & Hms & Hvs & Ev).
  destruct (well_typed_team_view _ _ _ Hwt Ht)
    as (items' & vs & ms & Hi' & Hms' & Hvs' & Hsome & Hview).
  rewrite Hv in Hview. injection Hview as ->. simpl in *.
  rewrite Hi in Hi'. injection Hi' as <-.
  exists (<[Team.moves t:=OMoveList (ms ++ [m])]> h).
  split.
  { exact (update_team_raise_run g team m nb h t items ms vs
             Ht Hi Hms Hvs Hsome Hon Hnone). }
  pose proof (penguins_view_refs_inv _ _ _ Hvs Hsome) as Hrefs.
  apply (team_view_shape _ team t items).
  - rewrite list_lookup_insert_ne; [exact Ht|]. intros E. congruence.
  - rewrite list_lookup_insert_ne; [exact Hi|]. intros E. congruence.
  - apply list_lookup_insert_eq. now apply lookup_lt_Some in Hms.
  - eapply penguins_view_store; [exact Hvs|exact Hms|discriminate].
Qed.

(** X15: the teams of the successor.  In a well-typed store where the
    penguins of each team are different objects, the team that the move
    names ([first_team] when the move is by ONE, [second_team] otherwise)
    shows the update of what it showed in the receiver, and the other
    team shows what it showed in the receiver. *)
Theorem perform_move_team_views g m h g' h' vf vs :
  well_typed h ->
  distinct_penguins h (GameState.first_team g) ->
  distinct_penguins h (GameState.second_team g) ->
  team_view h (GameState.first_team g) = Ok vf ->
  team_view h (GameState.second_team g) = Ok vs ->
  GameState.perform_move g m h = (Ok g', h') ->
  state_view g' h'
    = Ok (mk_state_view (GameState.turn g + 1) (move (GameState.board g) m)
            (if bool_decide (Move.team_enum m = ONE)
             then updated_view g m (move (GameState.board g) m) vf else vf)
            (if bool_decide (Move.team_enum m = ONE)
             then vs else updated_view g m (move (GameState.board g) m) vs)).
Proof.
  intros Hwt Hndf Hnds Hvf Hvs Hrun.
  destruct (team_view_cells _ _ _ Hvf)
    as (tf0 & items_f0 & Hf0 & Hif0 & Hmf0 & Hpf0 & Evf).
  destruct (team_view_cells _ _ _ Hvs)
    as (ts0 & items_s0 & Hs0 & His0 & Hms0 & Hps0 & Evs).
  destruct (well_typed_team_view _ _ _ Hwt Hf0)
    as (? & vsf & msf & Hif0' & _ & Hpf0' & Hsome_f & _).
  rewrite Hif0 in Hif0'. injection Hif0' as <-.
  rewrite Hpf0 in Hpf0'. injection Hpf0' as <-.
  destruct (well_typed_team_view _ _ _ Hwt Hs0)
    as (? & vss & mss & His0' & _ & Hps0' & Hsome_s & _).
  rewrite His0 in His0'. injection His0' as <-.
  rewrite Hps0 in Hps0'. injection Hps0' as <-.
  (* the steps of the call *)
  unfold GameState.perform_move in Hrun.
  apply M_bind_Ok in Hrun as (valid & ? & Hv & Hrun).
  apply query_Ok in Hv as [Hv ->].
  apply M_bind_Ok in Hrun as (guard & hg & Hg & Hrun).
  destruct valid.
  2:{ apply M_ret_Ok in Hg as [<- <-]. discriminate Hrun. }
  apply M_bind_Ok in Hg as (n & ? & Hn & Hg).
  apply query_Ok in Hn as [Hn ->].
  apply M_ret_Ok in Hg as [<- <-].
  destruct (bool_decide_reflect (n = Move.team_enum m)) as [En|];
    [|discriminate Hrun].
  apply M_bind_Ok in Hrun as (nf & h1 & Hcf & Hrun).
  apply M_bind_Ok in Hrun as (ns & h2 & Hcs & Hrun).
  apply M_bind_Ok in Hrun as (n' & ? & Hn' & Hrun).
  apply query_Ok in Hn' as [Hn' ->].
  apply M_bind_Ok in Hrun as ([] & h3 & Hup & Hrun).
  apply M_bind_Ok in Hrun as ([] & h4 & Ha1 & Hrun).
  apply M_bind_Ok in Hrun as ([] & h5 & Ha2 & Hrun).
  apply M_ret_Ok in Hrun as [<- <-].
  (* the copy of the first team *)
  destruct (pickle_roundtrip_ok _ _ _ _ Hcf) as (Hp1 & _ & _ & _).
  destruct (pickle_roundtrip_shape _ _ _ _ _ _ _ _
              Hf0 Hif0 Hmf0 Hpf0 Hsome_f Hcf)
    as (tf1 & items_f & -> & Hf1 & Hname_f & Hfish_f & Hif1 & Hmf1 & Hpf1
        & Hnd_f).
  specialize (Hnd_f (Hndf _ _ Hf0 Hif0)).
  (* the copy of the second team *)
  destruct (pickle_roundtrip_ok _ _ _ _ Hcs) as (Hp2 & _ & Hcl2 & _).
  assert (Hs1 : h1 !! GameState.second_team g = Some (OTeam ts0))
    by now apply (prefix_lookup_Some h).
  assert (His1 : h1 !! Team.penguins ts0 = Some (OPenguinList items_s0))
    by now apply (prefix_lookup_Some h).
  assert (Hms1 : h1 !! Team.moves ts0 = Some (OMoveList (view_moves vs)))
    by now apply (prefix_lookup_Some h).
  assert (Hps1 : penguins_view h1 items_s0 = Ok (view_penguins vs))
    by now apply (penguins_view_prefix h).
  destruct (pickle_roundtrip_shape _ _ _ _ _ _ _ _
              Hs1 His1 Hms1 Hps1 Hsome_s Hcs)
    as (ts1 & items_s & -> & Hs2 & Hname_s & Hfish_s & His2 & Hms2 & Hps2
        & Hnd_s).
  specialize (Hnd_s (Hnds _ _ Hs0 His0)).
  (* the first copy in the store of the second *)
  assert (Hf2 : h2 !! length h = Some (OTeam tf1))
    by now apply (prefix_lookup_Some h1).
  assert (Hif2 : h2 !! Team.penguins tf1 = Some (OPenguinList items_f))
    by now apply (prefix_lookup_Some h1).
  assert (Hmf2 : h2 !! Team.moves tf1 = Some (OMoveList (view_moves vf)))
    by now apply (prefix_lookup_Some h1).
  assert (Hpf2 : penguins_view h2 items_f = Ok (view_penguins vf))
    by now apply (penguins_view_prefix h1).
  (* the objects of the first copy lie below those of the second *)
  assert (Hlow : forall x, x = length h \/ x = Team.penguins tf1
                   \/ x = Team.moves tf1 \/ In (Some x) items_f ->
                   (x < length h1)%nat).
  { intros x [-> | [-> | [-> | Hx]]].
    - now apply lookup_lt_Some in Hf1.
    - now apply lookup_lt_Some in Hif1.
    - now apply lookup_lt_Some in Hmf1.
    - destruct (penguins_view_cells _ _ _ _ Hpf1 Hx) as (p & Hp).
      now apply lookup_lt_Some in Hp. }
  assert (Hc2 : fresh_closed (length h1) h2)
    by (apply Hcl2; [lia|apply fresh_closed_start]).
  assert (Hhigh : forall x, x = length h1 \/ x = Team.penguins ts1
                    \/ x = Team.moves ts1 \/ In (Some x) items_s ->
                    (length h1 <= x)%nat).
  { pose proof (Hc2 _ _ Hs2 (le_n _)) as (Hq1 & Hq2 & _).
    intros x [-> | [-> | [-> | Hx]]]; [lia|exact Hq1|exact Hq2|].
    exact (Hc2 _ _ His2 Hq1 x Hx). }
  (* the current team is the one read before the copies were made *)
  assert (Hp02 : h `prefix_of` h2) by now transitivity h1.
  rewrite (current_team_name_prefix _ _ _ _ Hn Hp02) in Hn'.
  injection Hn' as <-.
  (* the update of one copy *)
  assert (Hviews :
    team_view h3 (length h)
      = Ok (if bool_decide (Move.team_enum m = ONE)
            then updated_view g m (move (GameState.board g) m) vf else vf) /\
    team_view h3 (length h1)
      = Ok (if bool_decide (Move.team_enum m = ONE)
            then vs else updated_view g m (move (GameState.board g) m) vs)).
  { assert (Evf' : mk_view (Team.name tf1) (Team.fish tf1)
                     (view_penguins vf) (view_moves vf) = vf)
      by (rewrite Hname_f, Hfish_f; symmetry; exact Evf).
    assert (Evs' : mk_view (Team.name ts1) (Team.fish ts1)
                     (view_penguins vs) (view_moves vs) = vs)
      by (rewrite Hname_s, Hfish_s; symmetry; exact Evs).
    rewrite <- En.
    destruct (bool_decide (n = ONE)).
    - destruct (update_team_views g m (move (GameState.board g) m) h2 h3
               (length h) tf1 items_f (view_moves vf) (view_penguins vf)
               (length h1) ts1 items_s (view_moves vs) (view_penguins vs)
               Hf2 Hif2 Hmf2 Hpf2 Hsome_f Hnd_f Hs2 His2 Hms2 Hps2)
        as [Hu Ho]; [|exact Hup|rewrite Evf' in Hu; rewrite Evs' in Ho; auto].
      intros x Hx. pose proof (Hhigh x Hx) as Hge.
      repeat split; intros E;
        [pose proof (Hlow x (or_introl E))
        |pose proof (Hlow x (or_intror (or_introl E)))
        |pose proof (Hlow x (or_intror (or_intror (or_introl E))))
        |pose proof (Hlow x (or_intror (or_intror (or_intror E))))]; lia.
    - destruct (update_team_views g m (move (GameState.board g) m) h2 h3
               (length h1) ts1 items_s (view_moves vs) (view_penguins vs)
               (length h) tf1 items_f (view_moves vf) (view_penguins vf)
               Hs2 His2 Hms2 Hps2 Hsome_s Hnd_s Hf2 Hif2 Hmf2 Hpf2)
        as [Hu Ho]; [|exact Hup|rewrite Evs' in Hu; rewrite Evf' in Ho; auto].
      intros x Hx. pose proof (Hlow x Hx) as Hlt.
      repeat split; intros E;
        [pose proof (Hhigh x (or_introl E))
        |pose proof (Hhigh x (or_intror (or_introl E)))
        |pose proof (Hhigh x (or_intror (or_intror (or_introl E))))
        |pose proof (Hhigh x (or_intror (or_intror (or_intror E))))]; lia. }
  destruct Hviews as [Hview_f Hview_s].
  (* the opponents *)
  unfold state_view. cbn [GameState.first_team GameState.second_team
                          GameState.turn GameState.board].
  rewrite (team_view_assign_opponent _ _ _ _ _ _
             (team_view_assign_opponent _ _ _ _ _ _ Hview_f Ha1) Ha2).
  rewrite (team_view_assign_opponent _ _ _ _ _ _
             (team_view_assign_opponent _ _ _ _ _ _ Hview_s Ha1) Ha2).
  reflexivity.
Qed.

End TeamViews.

(** ** The round trip keeps a store well typed *)

Lemma class_at_Some (h : heap) l c :
  class_at h l = Some c <-> exists o, h !! l = Some o /\ class_of o = c.
Proof.
  unfold class_at. destruct (h !! l) as [o|]; simpl; split.
  - intros [= <-]. eauto.
  - intros (o' & [= <-] & <-). reflexivity.
  - discriminate.
  - intros (o' & E & _). discriminate E.
Qed.

Lemma class_at_lookup (h : heap) l o :
  h !! l = Some o -> class_at h l = Some (class_of o).
Proof. unfold class_at. now intros ->. Qed.

Lemma prefix_ext (h h' : heap) : h `prefix_of` h' -> ext h h'.
Proof.
  intros Hp l c Hc. apply class_at_Some in Hc as (o & Ho & <-).
  apply class_at_lookup. now apply (prefix_lookup_Some h).
Qed.

Lemma class_at_store (h : heap) l o o0 x :
  h !! l = Some o0 -> class_of o = class_of o0 ->
  class_at (<[l:=o]> h) x = class_at h x.
Proof.
  intros Hl Hc. unfold class_at. destruct (decide (x = l)) as [->|Hne].
  - rewrite list_lookup_insert_eq by (now apply lookup_lt_Some in Hl).
    rewrite Hl. simpl. now rewrite Hc.
  - now rewrite list_lookup_insert_ne by congruence.
Qed.

Lemma store_ext (h : heap) l o o0 :
  h !! l = Some o0 -> class_of o = class_of o0 -> ext h (<[l:=o]> h).
Proof. intros Hl Hc x c Hx. now rewrite (class_at_store _ _ _ _ _ Hl Hc). Qed.

Lemma ext_trans (h1 h2 h3 : heap) : ext h1 h2 -> ext h2 h3 -> ext h1 h3.
Proof. intros H12 H23 l c Hc. auto. Qed.

Lemma obj_classed_ext (h h' : heap) o :
  ext h h' -> obj_classed h o -> obj_classed h' o.
Proof.
  intros He. destruct o as [t|p|items|ms|]; simpl; auto.
  - intros (H1 & H2 & H3).
    split; [now apply He|]. split; [now apply He|].
    intros o Ho. apply He. now apply H3.
  - intros Hi x Hx. destruct (Hi x Hx) as (l & -> & Hl). eauto.
Qed.

Lemma classed_alloc (h : heap) o :
  classed h -> obj_classed (h ++ [o]) o -> classed (h ++ [o]).
Proof.
  intros Hc Ho l o' Hl. apply lookup_app_Some in Hl as [Hl | [Hge Hl]].
  - apply (obj_classed_ext h); [|exact (Hc _ _ Hl)].
    apply prefix_ext. now apply prefix_app_r.
  - apply list_lookup_singleton_Some in Hl as [_ <-]. exact Ho.
Qed.

Lemma classed_store (h : heap) l o o0 :
  classed h -> h !! l = Some o0 -> class_of o = class_of o0 ->
  obj_classed h o -> classed (<[l:=o]> h).
Proof.
  intros Hc Hl Hk Ho x o' Hx.
  apply (obj_classed_ext h); [now apply (store_ext _ _ _ o0)|].
  destruct (decide (x = l)) as [->|Hne].
  - rewrite list_lookup_insert_eq in Hx by (now apply lookup_lt_Some in Hl).
    injection Hx as <-. exact Ho.
  - rewrite list_lookup_insert_ne in Hx by congruence. exact (Hc _ _ Hx).
Qed.

Lemma memo_classed_ext (h0 : heap) (memo : memo_t) (h h' : heap) :
  memo_classed h0 memo h -> ext h h' -> memo_classed h0 memo h'.
Proof.
  intros Hm He l l' Hl. destruct (Hm _ _ Hl) as (c & H0 & Hc).
  exists c. split; [exact H0|now apply He].
Qed.

Lemma memo_classed_insert (h0 : heap) (memo : memo_t) (h : heap) l l' c :
  memo_classed h0 memo h -> class_at h0 l = Some c -> class_at h l' = Some c ->
  memo_classed h0 (<[l:=l']> memo) h.
Proof.
  intros Hm H0 Hl x x' Hx. destruct (decide (l = x)) as [<-|Hne].
  - rewrite lookup_insert_eq in Hx. injection Hx as <-. eauto.
  - rewrite lookup_insert_ne in Hx by exact Hne. exact (Hm _ _ Hx).
Qed.

Lemma class_at_new (h : heap) o : class_at (h ++ [o]) (length h) = Some (class_of o).
Proof.
  apply class_at_lookup. rewrite lookup_app_r by lia. now rewrite Nat.sub_diag.
Qed.

Lemma no_new_blank_trans (h1 h2 h3 : heap) :
  no_new_blank h1 h2 -> no_new_blank h2 h3 -> no_new_blank h1 h3.
Proof. intros H12 H23 l Hl. auto. Qed.

Lemma no_new_blank_alloc (h : heap) o : o <> OBlank -> no_new_blank h (h ++ [o]).
Proof.
  intros Ho l Hl. apply lookup_app_Some in Hl as [Hl | [Hge Hl]]; [exact Hl|].
  apply list_lookup_singleton_Some in Hl as [_ ->]. now destruct Ho.
Qed.

(** An object allocated as a placeholder and filled in at the end leaves
    no instance without attributes. *)
Lemma no_new_blank_fill (h h1 : heap) o0 o :
  no_new_blank (h ++ [o0]) h1 -> o <> OBlank -> (length h < length h1)%nat ->
  no_new_blank h (<[length h:=o]> h1).
Proof.
  intros Hn Ho Hlt l Hl. destruct (decide (l = length h)) as [->|Hne].
  - rewrite list_lookup_insert_eq in Hl by exact Hlt.
    injection Hl as ->. now destruct Ho.
  - rewrite list_lookup_insert_ne in Hl by congruence.
    apply Hn in Hl. apply lookup_app_Some in Hl as [Hl | [Hge Hl]]; [exact Hl|].
    apply list_lookup_singleton_Some in Hl as [E _]. lia.
Qed.

Lemma well_typed_classed (h : heap) : well_typed h -> classed h.
Proof.
  intros Hwt l o Hl. destruct o as [t|p|items|ms|]; simpl; auto.
  - destruct (well_typed_team _ _ _ Hwt Hl)
      as ((items & Hi) & (ms & Hms) & Hopp).
    split; [exact (class_at_lookup _ _ _ Hi)|].
    split; [exact (class_at_lookup _ _ _ Hms)|].
    intros o Ho. destruct (Hopp _ Ho) as (t' & Ht').
    exact (class_at_lookup _ _ _ Ht').
  - intros x Hx. destruct (well_typed_list _ _ _ Hwt Hl x Hx)
      as (pl & p & -> & Hp).
    exists pl. split; [reflexivity|exact (class_at_lookup _ _ _ Hp)].
Qed.

Section CopyClasses.
Variable h0 : heap.
Hypothesis Hwt : well_typed h0.

Lemma copy_items_classed rec :
  copy_classed h0 rec ->
  forall items memo h items' memo' h',
    copy_items rec items memo h = (Ok (items', memo'), h') ->
    (forall x, In x items ->
               exists pl p, x = Some pl /\ h0 !! pl = Some (OPenguin p)) ->
    h0 `prefix_of` h -> classed h -> memo_classed h0 memo h ->
    h `prefix_of` h' /\ classed h' /\ memo_classed h0 memo' h' /\
    (forall x, In x items' ->
               exists l, x = Some l /\ class_at h' l = Some CPenguin) /\
    no_new_blank h h'.
Proof.
  intros Hrec. induction items as [|[l|] rest IH];
    intros memo h items' memo' h' Hrun Hitems Hp Hc Hm; simpl in Hrun.
  - apply M_ret_Ok in Hrun as [[= <- <-] <-].
    split; [reflexivity|]. split; [exact Hc|]. split; [exact Hm|].
    split; [intros x []|]. intros l Hl. exact Hl.
  - apply M_bind_Ok in Hrun as ([l1 memo1] & h1 & Hl & Hrun).
    apply M_bind_Ok in Hrun as ([rest' memo2] & h2 & Hrest & Hrun).
    apply M_ret_Ok in Hrun as [[= <- <-] <-].
    destruct (Hitems (Some l) (or_introl eq_refl)) as (pl & p & [= <-] & Hpl).
    destruct (Hrec _ _ _ _ _ _ _ Hl Hp Hc Hm Hpl ltac:(discriminate))
      as (Hp1 & Hc1 & Hm1 & Hl1 & Hn1).
    assert (Hp01 : h0 `prefix_of` h1) by now transitivity h.
    destruct (IH _ _ _ _ _ Hrest (fun x Hx => Hitems x (or_intror Hx))
                Hp01 Hc1 Hm1) as (Hp2 & Hc2 & Hm2 & Hi2 & Hn2).
    split; [now transitivity h1|]. split; [exact Hc2|]. split; [exact Hm2|].
    split; [|exact (no_new_blank_trans _ _ _ Hn1 Hn2)].
    intros x [<-|Hx]; [|exact (Hi2 x Hx)].
    exists l1. split; [reflexivity|].
    exact (prefix_ext _ _ Hp2 _ _ Hl1).
  - destruct (Hitems None (or_introl eq_refl)) as (pl & p & E & _).
    discriminate E.
Qed.

Lemma copy_opt_classed rec :
  copy_classed h0 rec ->
  forall r memo h r' memo' h',
    copy_opt rec r memo h = (Ok (r', memo'), h') ->
    (forall o, r = Some o -> exists t, h0 !! o = Some (OTeam t)) ->
    h0 `prefix_of` h -> classed h -> memo_classed h0 memo h ->
    h `prefix_of` h' /\ classed h' /\ memo_classed h0 memo' h' /\
    (forall l, r' = Some l -> class_at h' l = Some CTeam) /\
    no_new_blank h h'.
Proof.
  intros Hrec [l|] memo h r' memo' h' Hrun Hr Hp Hc Hm; simpl in Hrun.
  - apply M_bind_Ok in Hrun as ([l1 memo1] & h1 & Hl & Hrun).
    apply M_ret_Ok in Hrun as [[= <- <-] <-].
    destruct (Hr l eq_refl) as (t & Ht).
    destruct (Hrec _ _ _ _ _ _ _ Hl Hp Hc Hm Ht ltac:(discriminate))
      as (Hp1 & Hc1 & Hm1 & Hl1 & Hn1).
    split; [exact Hp1|]. split; [exact Hc1|]. split; [exact Hm1|].
    split; [|exact Hn1]. now intros x [= <-].
  - apply M_ret_Ok in Hrun as [[= <- <-] <-].
    split; [reflexivity|]. split; [exact Hc|]. split; [exact Hm|].
    split; [intros x E; discriminate E|]. intros l Hl. exact Hl.
Qed.

Lemma deep_copy_classed depth : copy_classed h0 (deep_copy depth).
Proof.
  induction depth as [|depth IH];
    intros l memo h l' memo' h' o Hrun Hp Hc Hm Hl Hnb;
    [discriminate Hrun|].
  destruct (memo !! l) as [l0|] eqn:Hmemo.
  { simpl in Hrun. rewrite Hmemo in Hrun.
    apply M_ret_Ok in Hrun as [[= <- <-] <-].
    split; [reflexivity|]. split; [exact Hc|]. split; [exact Hm|].
    split; [|intros x Hx; exact Hx].
    destruct (Hm _ _ Hmemo) as (c & H0 & Hc0).
    rewrite (class_at_lookup _ _ _ Hl) in H0. injection H0 as <-. exact Hc0. }
  apply deep_copy_miss in Hrun as (o' & Ho & -> & Hrun); [|exact Hmemo].
  rewrite (prefix_lookup_Some _ _ _ _ Hl Hp) in Ho. injection Ho as <-.
  pose proof (class_at_lookup _ _ _ Hl) as Hcl.
  destruct o as [t|p|items|ms|].
  - (* a team *)
    destruct Hrun as (ps & memo1 & h1 & ms & memo2 & h2 & opp
                      & Hps & Hms & h3 & Hopp & Hlt & ->).
    destruct (well_typed_team _ _ _ Hwt Hl)
      as ((items & Hi) & (mvs & Hmv) & Hteam).
    assert (Hpa : h0 `prefix_of` h ++ [OBlank]) by now apply prefix_alloc.
    assert (Hca : classed (h ++ [OBlank])) by now apply classed_alloc.
    assert (Hma : memo_classed h0 (<[l:=length h]> memo) (h ++ [OBlank])).
    { apply (memo_classed_insert _ _ _ _ _ CTeam); [|exact Hcl|].
      - apply (memo_classed_ext _ _ h); [exact Hm|].
        apply prefix_ext. now apply prefix_app_r.
      - apply class_at_new. }
    destruct (IH _ _ _ _ _ _ _ Hps Hpa Hca Hma Hi ltac:(discriminate))
      as (Hp1 & Hc1 & Hm1 & Hl1 & Hn1).
    assert (Hp01 : h0 `prefix_of` h1) by now transitivity (h ++ [OBlank]).
    destruct (IH _ _ _ _ _ _ _ Hms Hp01 Hc1 Hm1 Hmv ltac:(discriminate))
      as (Hp2 & Hc2 & Hm2 & Hl2 & Hn2).
    assert (Hp02 : h0 `prefix_of` h2) by now transitivity h1.
    destruct (copy_opt_classed _ IH _ _ _ _ _ _ Hopp Hteam Hp02 Hc2 Hm2)
      as (Hp3 & Hc3 & Hm3 & Hl3 & Hn3).
    assert (Hpa3 : h ++ [OBlank] `prefix_of` h3).
    { transitivity h1; [exact Hp1|]. now transitivity h2. }
    assert (Hblank : h3 !! length h = Some OBlank).
    { apply (prefix_lookup_Some (h ++ [OBlank])); [|exact Hpa3].
      rewrite lookup_app_r by lia. now rewrite Nat.sub_diag. }
    set (t' := Team.mk (Team.name t) (Team.fish t) ps ms opp).
    assert (Hext : ext h3 (<[length h:=OTeam t']> h3))
      by now apply (store_ext _ _ _ OBlank).
    split.
    { apply prefix_store; [|lia].
      transitivity (h ++ [OBlank]); [now apply prefix_app_r|exact Hpa3]. }
    split.
    { apply (classed_store _ _ _ OBlank); [exact Hc3|exact Hblank|reflexivity|].
      simpl. split; [|split; [|exact Hl3]].
      - apply (prefix_ext _ _ Hp3). exact (prefix_ext _ _ Hp2 _ _ Hl1).
      - exact (prefix_ext _ _ Hp3 _ _ Hl2). }
    split; [exact (memo_classed_ext _ _ _ _ Hm3 Hext)|].
    split.
    { rewrite (class_at_lookup _ _ (OTeam t')); [reflexivity|].
      now apply list_lookup_insert_eq. }
    apply (no_new_blank_fill _ _ OBlank); [|discriminate|exact Hlt].
    exact (no_new_blank_trans _ _ _ Hn1 (no_new_blank_trans _ _ _ Hn2 Hn3)).
  - (* a penguin *)
    destruct Hrun as [-> ->].
    assert (Hpx : h `prefix_of` h ++ [OPenguin p]) by now apply prefix_app_r.
    split; [exact Hpx|]. split; [now apply classed_alloc|].
    split.
    { apply (memo_classed_insert _ _ _ _ _ CPenguin); [|exact Hcl|].
      - exact (memo_classed_ext _ _ _ _ Hm (prefix_ext _ _ Hpx)).
      - apply class_at_new. }
    split; [apply class_at_new|]. now apply no_new_blank_alloc.
  - (* a list of penguins *)
    destruct Hrun as (items' & h1 & Hit & Hlt & ->).
    assert (Hpa : h0 `prefix_of` h ++ [OPenguinList []])
      by now apply prefix_alloc.
    assert (Hca : classed (h ++ [OPenguinList []])).
    { apply classed_alloc; [exact Hc|]. intros x []. }
    assert (Hma : memo_classed h0 (<[l:=length h]> memo)
                    (h ++ [OPenguinList []])).
    { apply (memo_classed_insert _ _ _ _ _ CPenguinList); [|exact Hcl|].
      - apply (memo_classed_ext _ _ h); [exact Hm|].
        apply prefix_ext. now apply prefix_app_r.
      - apply class_at_new. }
    destruct (copy_items_classed _ IH _ _ _ _ _ _ Hit
                (well_typed_list _ _ _ Hwt Hl) Hpa Hca Hma)
      as (Hp1 & Hc1 & Hm1 & Hi1 & Hn1).
    assert (Hcell : h1 !! length h = Some (OPenguinList [])).
    { apply (prefix_lookup_Some (h ++ [OPenguinList []])); [|exact Hp1].
      rewrite lookup_app_r by lia. now rewrite Nat.sub_diag. }
    assert (Hext : ext h1 (<[length h:=OPenguinList items']> h1))
      by now apply (store_ext _ _ _ (OPenguinList [])).
    split.
    { apply prefix_store; [|lia].
      transitivity (h ++ [OPenguinList []]);
        [now apply prefix_app_r|exact Hp1]. }
    split.
    { apply (classed_store _ _ _ (OPenguinList []));
        [exact Hc1|exact Hcell|reflexivity|exact Hi1]. }
    split; [exact (memo_classed_ext _ _ _ _ Hm1 Hext)|].
    split.
    { rewrite (class_at_lookup _ _ (OPenguinList items')); [reflexivity|].
      now apply list_lookup_insert_eq. }
    apply (no_new_blank_fill _ _ (OPenguinList [])); [exact Hn1|discriminate|].
    exact Hlt.
  - (* a list of moves *)
    destruct Hrun as [-> ->].
    assert (Hpx : h `prefix_of` h ++ [OMoveList ms]) by now apply prefix_app_r.
    split; [exact Hpx|]. split; [now apply classed_alloc|].
    split.
    { apply (memo_classed_insert _ _ _ _ _ CMoveList); [|exact Hcl|].
      - exact (memo_classed_ext _ _ _ _ Hm (prefix_ext _ _ Hpx)).
      - apply class_at_new. }
    split; [apply class_at_new|]. now apply no_new_blank_alloc.
  - now destruct Hnb.
Qed.

End CopyClasses.

(** ** Steps that keep a store well typed *)

Lemma well_typed_intro (h : heap) :
  (forall l o, h !! l = Some o -> obj_typed h o = true) -> well_typed h.
Proof.
  intros H. unfold well_typed. apply forallb_forall. intros o Ho.
  apply list_elem_of_In in Ho. apply list_elem_of_lookup_1 in Ho as (l & Hl).
  eauto.
Qed.

Lemma obj_typed_grows (h h' : heap) o :
  grows h h' -> obj_typed h o = true -> obj_typed h' o = true.
Proof.
  intros Hg. destruct o as [t|p|items|ms|]; simpl; auto.
  - intros H. apply andb_true_iff in H as [H Ho].
    apply andb_true_iff in H as [Hp Hm].
    destruct (Hg (Team.penguins t)) as (_ & _ & Gp & _).
    destruct (Hg (Team.moves t)) as (_ & _ & _ & Gm).
    rewrite (Gp Hp), (Gm Hm). simpl.
    destruct (Team.opponent t) as [o|]; [|reflexivity].
    destruct (Hg o) as (Go & _). now apply Go.
  - rewrite !forallb_forall. intros H x Hx. specialize (H x Hx).
    destruct x as [l|]; [|exact H].
    destruct (Hg l) as (_ & Gl & _). now apply Gl.
Qed.

Lemma grows_refl (h : heap) : grows h h.
Proof. intros l. repeat split; auto. Qed.

Lemma grows_trans (h1 h2 h3 : heap) : grows h1 h2 -> grows h2 h3 -> grows h1 h3.
Proof.
  intros H12 H23 l.
  destruct (H12 l) as (A1 & A2 & A3 & A4), (H23 l) as (B1 & B2 & B3 & B4).
  repeat split; auto.
Qed.

Lemma grows_prefix (h h' : heap) : h `prefix_of` h' -> grows h h'.
Proof.
  intros Hp l. unfold is_team, is_penguin, is_penguin_list, is_move_list.
  destruct (h !! l) as [o|] eqn:Hl;
    [|repeat split; intros E; discriminate E].
  rewrite (prefix_lookup_Some _ _ _ _ Hl Hp). repeat split; auto.
Qed.

Lemma grows_store (h : heap) l o o0 :
  h !! l = Some o0 -> class_of o = class_of o0 -> o <> OBlank ->
  grows h (<[l:=o]> h).
Proof.
  intros Hl Hc Hnb x. unfold is_team, is_penguin, is_penguin_list, is_move_list.
  destruct (decide (x = l)) as [->|Hne].
  - rewrite list_lookup_insert_eq by (now apply lookup_lt_Some in Hl).
    rewrite Hl.
    destruct o0, o; simpl in Hc; try discriminate Hc;
      repeat split; auto; now destruct Hnb.
  - rewrite list_lookup_insert_ne by congruence. repeat split; auto.
Qed.

Lemma well_typed_store (h : heap) l o o0 :
  well_typed h -> h !! l = Some o0 -> class_of o = class_of o0 ->
  o <> OBlank -> obj_typed h o = true -> well_typed (<[l:=o]> h).
Proof.
  intros Hwt Hl Hc Hnb Ho. apply well_typed_intro. intros x o' Hx.
  apply (obj_typed_grows h); [now apply (grows_store _ _ _ o0)|].
  destruct (decide (x = l)) as [->|Hne].
  - rewrite list_lookup_insert_eq in Hx by (now apply lookup_lt_Some in Hl).
    injection Hx as <-. exact Ho.
  - rewrite list_lookup_insert_ne in Hx by congruence.
    exact (well_typed_obj _ _ _ Hwt Hx).
Qed.

Lemma well_typed_alloc (h : heap) o :
  well_typed h -> obj_typed (h ++ [o]) o = true -> well_typed (h ++ [o]).
Proof.
  intros Hwt Ho. apply well_typed_intro. intros x o' Hx.
  apply lookup_app_Some in Hx as [Hx | [Hge Hx]].
  - apply (obj_typed_grows h); [|exact (well_typed_obj _ _ _ Hwt Hx)].
    apply grows_prefix. now apply prefix_app_r.
  - apply list_lookup_singleton_Some in Hx as [_ <-]. exact Ho.
Qed.

Lemma class_penguin_list (h : heap) l :
  class_at h l = Some CPenguinList -> is_penguin_list h l = true.
Proof.
  intros Hc. apply class_at_Some in Hc as (o & Ho & Hc).
  unfold is_penguin_list. rewrite Ho. destruct o; try discriminate Hc; auto.
Qed.

Lemma class_move_list (h : heap) l :
  class_at h l = Some CMoveList -> is_move_list h l = true.
Proof.
  intros Hc. apply class_at_Some in Hc as (o & Ho & Hc).
  unfold is_move_list. rewrite Ho. destruct o; try discriminate Hc; auto.
Qed.

Lemma class_penguin (h : heap) l :
  class_at h l = Some CPenguin -> is_penguin h l = true.
Proof.
  intros Hc. apply class_at_Some in Hc as (o & Ho & Hc).
  unfold is_penguin. rewrite Ho. destruct o; try discriminate Hc; auto.
Qed.

Lemma class_team (h : heap) l :
  class_at h l = Some CTeam -> h !! l <> Some OBlank -> is_team h l = true.
Proof.
  intros Hc Hnb. apply class_at_Some in Hc as (o & Ho & Hc).
  unfold is_team. rewrite Ho. rewrite Ho in Hnb.
  destruct o; try discriminate Hc; auto; now destruct Hnb.
Qed.

(** The round trip of a team through pickle leaves a well-typed store well
    typed. *)
Lemma pickle_roundtrip_well_typed l (h : heap) l' h' t :
  well_typed h -> h !! l = Some (OTeam t) ->
  pickle_roundtrip l h = (Ok l', h') -> well_typed h'.
Proof.
  intros Hwt Hl. unfold pickle_roundtrip. intros Hrun.
  apply M_bind_Ok in Hrun as ([l0 memo] & h1 & Hcopy & Hrun).
  apply M_ret_Ok in Hrun as [<- <-].
  assert (Hm0 : memo_classed h (∅ : gmap nat nat) h).
  { intros x x' Hx. rewrite lookup_empty in Hx. discriminate Hx. }
  assert (Hp0 : h `prefix_of` h) by reflexivity.
  destruct (deep_copy_classed h Hwt _ _ _ _ _ _ _ _ Hcopy Hp0
              (well_typed_classed _ Hwt) Hm0 Hl ltac:(discriminate))
    as (Hp & Hc & _ & _ & Hnb).
  assert (Hmf : memo_fresh (length h) (∅ : gmap nat nat))
    by apply map_Forall_empty.
  destruct (deep_copy_ok _ _ _ _ _ _ _ (length h) Hcopy (le_n _) Hmf
              (fresh_closed_start h)) as (_ & Hfc & _ & _).
  apply well_typed_intro. intros x o Hx.
  destruct (decide (x < length h)%nat) as [Hlt|Hge].
  - destruct (lookup_lt_is_Some_2 h x Hlt) as [o' Ho'].
    rewrite (prefix_lookup_Some _ _ _ _ Ho' Hp) in Hx. injection Hx as <-.
    apply (obj_typed_grows h); [now apply grows_prefix|].
    exact (well_typed_obj _ _ _ Hwt Ho').
  - pose proof (Hc _ _ Hx) as Hcl.
    pose proof (Hfc _ _ Hx ltac:(lia)) as Hfr.
    destruct o as [t0|p|items|ms|]; simpl; auto.
    + destruct Hcl as (Cp & Cm & Co). destruct Hfr as (_ & _ & Fo).
      rewrite (class_penguin_list _ _ Cp), (class_move_list _ _ Cm). simpl.
      destruct (Team.opponent t0) as [o|] eqn:Eo; [|reflexivity].
      apply class_team; [now apply Co|].
      intros Hb. apply Hnb in Hb. apply lookup_lt_Some in Hb.
      specialize (Fo o eq_refl). lia.
    + apply forallb_forall. intros y Hy.
      destruct (Hcl y Hy) as (pl & -> & Cy). now apply class_penguin.
Qed.

(** ** Steps that keep the penguins of a team different objects *)

Lemma keeps_distinct_refl (h : heap) : keeps_distinct h h.
Proof. split; [intros x t' Hx|intros l items' Hl]; eauto. Qed.

Lemma keeps_distinct_trans (h1 h2 h3 : heap) :
  keeps_distinct h1 h2 -> keeps_distinct h2 h3 -> keeps_distinct h1 h3.
Proof.
  intros [T12 L12] [T23 L23]. split.
  - intros x t3 H3. destruct (T23 _ _ H3) as (t2 & H2 & E2).
    destruct (T12 _ _ H2) as (t1 & H1 & E1). exists t1. split; [exact H1|].
    congruence.
  - intros l i3 H3. destruct (L23 _ _ H3) as (i2 & H2 & N2).
    destruct (L12 _ _ H2) as (i1 & H1 & N1). exists i1. split; auto.
Qed.

Lemma keeps_distinct_alloc (h : heap) o :
  (forall t, o <> OTeam t) -> (forall items, o <> OPenguinList items) ->
  keeps_distinct h (h ++ [o]).
Proof.
  intros Ht Hi. split.
  - intros x t' Hx. apply lookup_app_Some in Hx as [Hx | [Hge Hx]]; [eauto|].
    apply list_lookup_singleton_Some in Hx as [_ ->]. now destruct (Ht t').
  - intros l items' Hl.
    apply lookup_app_Some in Hl as [Hl | [Hge Hl]]; [eauto|].
    apply list_lookup_singleton_Some in Hl as [_ ->]. now destruct (Hi items').
Qed.

(** A store of a penguin or of a list of moves. *)
Lemma keeps_distinct_store_leaf (h : heap) l o :
  is_leaf o -> keeps_distinct h (<[l:=o]> h).
Proof.
  intros Ho. split.
  - intros x t' Hx. destruct (decide (x = l)) as [->|Hne].
    + destruct (decide (l < length h)%nat) as [Hlt|Hge].
      * rewrite list_lookup_insert_eq in Hx by exact Hlt.
        injection Hx as ->. destruct Ho.
      * rewrite list_insert_ge in Hx by lia. eauto.
    + rewrite list_lookup_insert_ne in Hx by congruence. eauto.
  - intros x items' Hx. destruct (decide (x = l)) as [->|Hne].
    + destruct (decide (l < length h)%nat) as [Hlt|Hge].
      * rewrite list_lookup_insert_eq in Hx by exact Hlt.
        injection Hx as ->. destruct Ho.
      * rewrite list_insert_ge in Hx by lia. eauto.
    + rewrite list_lookup_insert_ne in Hx by congruence. eauto.
Qed.

(** A store of a team that keeps its list of penguins. *)
Lemma keeps_distinct_store_team (h : heap) l t t' :
  h !! l = Some (OTeam t) -> Team.penguins t' = Team.penguins t ->
  keeps_distinct h (<[l:=OTeam t']> h).
Proof.
  intros Hl Hp. assert (Hlt : (l < length h)%nat) by now apply lookup_lt_Some in Hl.
  split.
  - intros x t0 Hx. destruct (decide (x = l)) as [->|Hne].
    + rewrite list_lookup_insert_eq in Hx by exact Hlt. injection Hx as <-. eauto.
    + rewrite list_lookup_insert_ne in Hx by congruence. eauto.
  - intros x items' Hx. destruct (decide (x = l)) as [->|Hne].
    + rewrite list_lookup_insert_eq in Hx by exact Hlt. discriminate Hx.
    + rewrite list_lookup_insert_ne in Hx by congruence. eauto.
Qed.

(** A store of a list that has taken one more object. *)
Lemma keeps_distinct_store_list (h : heap) l items r :
  h !! l = Some (OPenguinList items) -> ~ In r items ->
  keeps_distinct h (<[l:=OPenguinList (items ++ [r])]> h).
Proof.
  intros Hl Hr. assert (Hlt : (l < length h)%nat) by now apply lookup_lt_Some in Hl.
  split.
  - intros x t0 Hx. destruct (decide (x = l)) as [->|Hne].
    + rewrite list_lookup_insert_eq in Hx by exact Hlt. discriminate Hx.
    + rewrite list_lookup_insert_ne in Hx by congruence. eauto.
  - intros x items' Hx. destruct (decide (x = l)) as [->|Hne].
    + rewrite list_lookup_insert_eq in Hx by exact Hlt. injection Hx as <-.
      exists items. split; [exact Hl|]. intros Hnd.
      apply NoDup_app. split; [exact Hnd|]. split; [|apply NoDup_singleton].
      intros y Hy Hy'. apply list_elem_of_singleton in Hy'. subst y.
      apply Hr. now apply list_elem_of_In.
    + rewrite list_lookup_insert_ne in Hx by congruence. eauto.
Qed.

Lemma distinct_penguins_step (h h' : heap) x :
  distinct_penguins h x -> keeps_distinct h h' -> distinct_penguins h' x.
Proof.
  intros Hd [HT HL] t' items' Ht' Hi'.
  destruct (HT _ _ Ht') as (t & Ht & Ep).
  destruct (HL _ _ Hi') as (items & Hi & Hnd).
  apply Hnd. apply (Hd t items Ht). now rewrite <- Ep.
Qed.

Lemma distinct_penguins_prefix (h h' : heap) x t items :
  distinct_penguins h x -> h `prefix_of` h' ->
  h !! x = Some (OTeam t) -> h !! Team.penguins t = Some (OPenguinList items) ->
  distinct_penguins h' x.
Proof.
  intros Hd Hp Ht Hi t' items' Ht' Hi'.
  rewrite (prefix_lookup_Some _ _ _ _ Ht Hp) in Ht'. injection Ht' as <-.
  rewrite (prefix_lookup_Some _ _ _ _ Hi Hp) in Hi'. injection Hi' as <-.
  exact (Hd _ _ Ht Hi).
Qed.

Section Typing.
Context {Board : Type} {board_api : BoardAPI Board} {move_api : MoveAPI}.
Implicit Types (g : GameState.t Board) (h : heap) (m : Move.t).

(** [_update_team] keeps the store well typed when the new board holds a
    penguin on the destination. *)
Lemma update_team_typed g team m nb h h' :
  GameState._update_team g team m nb h = (Ok tt, h') ->
  well_typed h ->
  Field.penguin (get_field nb (Move.to_value m)) <> None ->
  well_typed h' /\ grows h h' /\ keeps_distinct h h'.
Proof.
  unfold GameState._update_team. intros Hrun Hwt Hnew.
  apply M_bind_Ok in Hrun as (t0 & ? & Ht0 & Hrun).
  apply query_Ok in Ht0 as [Ht0 ->]. apply get_team_Ok in Ht0.
  apply M_bind_Ok in Hrun as (ms & ? & Hms & Hrun).
  apply query_Ok in Hms as [Hms ->]. apply get_move_list_Ok in Hms.
  apply M_bind_Ok in Hrun as ([] & ha & Hst & Hrun).
  apply store_Ok in Hst as [Hlt ->].
  set (ha := <[Team.moves t0:=OMoveList (ms ++ [m])]> h) in *.
  assert (Hwa : well_typed ha).
  { refine (well_typed_store _ _ _ (OMoveList ms) Hwt Hms _ _ _);
      [reflexivity|discriminate|reflexivity]. }
  assert (Hga : grows h ha)
    by (refine (grows_store _ _ _ (OMoveList ms) Hms _ _);
        [reflexivity|discriminate]).
  assert (Hka : keeps_distinct h ha)
    by (apply keeps_distinct_store_leaf; exact I).
  apply M_bind_Ok in Hrun as (t1 & ? & Ht1 & Hrun).
  apply query_Ok in Ht1 as [Ht1 ->]. apply get_team_Ok in Ht1.
  apply M_bind_Ok in Hrun as (ps & ? & Hps & Hrun).
  apply query_Ok in Hps as [Hps ->]. apply get_penguin_list_Ok in Hps.
  apply M_bind_Ok in Hrun as (tp & ? & Htp & Hrun).
  apply query_Ok in Htp as [Htp ->].
  apply M_bind_Ok in Hrun as ([] & hb & Hmid & Hrun).
  apply M_bind_Ok in Hrun as (t3 & ? & Ht3 & Hrun).
  apply query_Ok in Ht3 as [Ht3 ->]. apply get_team_Ok in Ht3.
  apply store_Ok in Hrun as [Hlt3 ->].
  assert (Hmid_ok : well_typed hb /\ grows ha hb /\ keeps_distinct ha hb).
  { destruct tp as [pl|].
    - destruct (Field.penguin _) as [np|]; [|discriminate Hmid].
      apply M_bind_Ok in Hmid as (p & ? & Hpl & Hmid).
      apply query_Ok in Hpl as [Hpl ->]. apply get_penguin_Ok in Hpl.
      apply store_Ok in Hmid as [_ ->].
      split.
      { refine (well_typed_store _ _ _ (OPenguin p) Hwa Hpl _ _ _);
      [reflexivity|discriminate|reflexivity]. }
      split;
        [refine (grows_store _ _ _ (OPenguin p) Hpl _ _);
         [reflexivity|discriminate]|].
      apply keeps_distinct_store_leaf. exact I.
    - destruct (Field.penguin _) as [np|]; [|now destruct Hnew].
      apply M_bind_Ok in Hmid as (r & hr & Hr & Hmid).
      apply M_bind_Ok in Hr as (l & ? & Hl & Hr).
      apply alloc_Ok in Hl as [-> ->].
      apply M_ret_Ok in Hr as [<- <-].
      apply M_bind_Ok in Hmid as (t2 & ? & Ht2 & Hmid).
      apply query_Ok in Ht2 as [Ht2 ->]. apply get_team_Ok in Ht2.
      apply M_bind_Ok in Hmid as (ps2 & ? & Hps2 & Hmid).
      apply query_Ok in Hps2 as [Hps2 ->]. apply get_penguin_list_Ok in Hps2.
      apply store_Ok in Hmid as [_ ->].
      set (hr := ha ++ [OPenguin np]) in *.
      assert (Hpr : ha `prefix_of` hr) by now apply prefix_app_r.
      assert (Hwr : well_typed hr) by now apply well_typed_alloc.
      assert (Hnew_cell : hr !! length ha = Some (OPenguin np)).
      { unfold hr. rewrite lookup_app_r by lia. now rewrite Nat.sub_diag. }
      assert (Hfresh : ~ In (Some (length ha)) ps2).
      { intros Hin.
        destruct (lookup_lt_is_Some_2 ha (Team.penguins t2)) as [o Ho].
        { destruct (decide (Team.penguins t2 < length ha)%nat) as [|Hge];
            [assumption|].
          apply lookup_app_Some in Hps2 as [Hps2 | [_ Hps2]].
          - now apply lookup_lt_Some in Hps2.
          - apply list_lookup_singleton_Some in Hps2 as [_ E].
            discriminate E. }
        rewrite (prefix_lookup_Some _ _ _ _ Ho Hpr) in Hps2.
        injection Hps2 as ->.
        destruct (well_typed_list _ _ _ Hwa Ho _ Hin) as (pl & p & [= <-] & Hp).
        apply lookup_lt_Some in Hp. lia. }
      split.
      { refine (well_typed_store _ _ _ (OPenguinList ps2) Hwr Hps2 _ _ _);
      [reflexivity|discriminate|].
        simpl. rewrite forallb_app. apply andb_true_iff. split.
        - exact (well_typed_obj _ _ _ Hwr Hps2).
        - simpl. unfold is_penguin. now rewrite Hnew_cell. }
      split.
      { apply (grows_trans _ hr); [now apply grows_prefix|].
        refine (grows_store _ _ _ (OPenguinList ps2) Hps2 _ _);
          [reflexivity|discriminate]. }
      apply (keeps_distinct_trans _ hr).
      + apply keeps_distinct_alloc; intros; discriminate.
      + now apply keeps_distinct_store_list. }
  destruct Hmid_ok as (Hwb & Hgb & Hkb).
  set (t' := Team.set_fish _ t3).
  split.
  { refine (well_typed_store _ _ _ (OTeam t3) Hwb Ht3 _ _ _);
      [reflexivity|discriminate|].
    exact (well_typed_obj _ _ _ Hwb Ht3). }
  split.
  { apply (grows_trans _ ha); [exact Hga|].
    apply (grows_trans _ hb); [exact Hgb|].
    refine (grows_store _ _ _ (OTeam t3) Ht3 _ _); [reflexivity|discriminate]. }
  apply (keeps_distinct_trans _ ha); [exact Hka|].
  apply (keeps_distinct_trans _ hb); [exact Hkb|].
  now apply (keeps_distinct_store_team _ _ t3).
Qed.

Lemma assign_opponent_typed team other h h' :
  GameState.assign_opponent team other h = (Ok tt, h') ->
  well_typed h -> is_team h other = true ->
  well_typed h' /\ grows h h' /\ keeps_distinct h h'.
Proof.
  intros Hrun Hwt Hother.
  apply assign_opponent_Ok in Hrun as (t & Ht & ->).
  split.
  { refine (well_typed_store _ _ _ (OTeam t) Hwt Ht _ _ _);
      [reflexivity|discriminate|].
    pose proof (well_typed_obj _ _ _ Hwt Ht) as Hty. simpl in Hty.
    apply andb_true_iff in Hty as [Hty _].
    simpl. now rewrite Hty, Hother. }
  split.
  { refine (grows_store _ _ _ (OTeam t) Ht _ _); [reflexivity|discriminate]. }
  now apply (keeps_distinct_store_team _ _ t).
Qed.

(** The steps of a successful [perform_move]. *)
Lemma perform_move_steps g m h g' h' :
  GameState.perform_move g m h = (Ok g', h') ->
  exists nf h1 ns h2 team h3 h4,
    pickle_roundtrip (GameState.first_team g) h = (Ok nf, h1) /\
    pickle_roundtrip (GameState.second_team g) h1 = (Ok ns, h2) /\
    (team = nf \/ team = ns) /\
    GameState._update_team g team m (move (GameState.board g) m) h2
      = (Ok tt, h3) /\
    GameState.assign_opponent nf ns h3 = (Ok tt, h4) /\
    GameState.assign_opponent ns nf h4 = (Ok tt, h') /\
    g' = GameState.mk (move (GameState.board g) m) (GameState.turn g + 1)
                      nf ns (Some m).
Proof.
  unfold GameState.perform_move. intros Hrun.
  apply M_bind_Ok in Hrun as (valid & ? & Hv & Hrun).
  apply query_Ok in Hv as [Hv ->].
  apply M_bind_Ok in Hrun as (guard & hg & Hg & Hrun).
  destruct valid.
  2:{ apply M_ret_Ok in Hg as [<- <-]. discriminate Hrun. }
  apply M_bind_Ok in Hg as (n & ? & Hn & Hg).
  apply query_Ok in Hn as [Hn ->].
  apply M_ret_Ok in Hg as [<- <-].
  destruct (bool_decide (n = Move.team_enum m)); [|discriminate Hrun].
  apply M_bind_Ok in Hrun as (nf & h1 & Hcf & Hrun).
  apply M_bind_Ok in Hrun as (ns & h2 & Hcs & Hrun).
  apply M_bind_Ok in Hrun as (n' & ? & Hn' & Hrun).
  apply query_Ok in Hn' as [Hn' ->].
  apply M_bind_Ok in Hrun as ([] & h3 & Hup & Hrun).
  apply M_bind_Ok in Hrun as ([] & h4 & Ha1 & Hrun).
  apply M_bind_Ok in Hrun as ([] & h5 & Ha2 & Hrun).
  apply M_ret_Ok in Hrun as [<- <-].
  exists nf, h1, ns, h2, (if bool_decide (n' = ONE) then nf else ns), h3, h4.
  split; [exact Hcf|]. split; [exact Hcs|].
  split; [destruct (bool_decide (n' = ONE)); auto|].
  split; [destruct (bool_decide (n' = ONE)); exact Hup|].
  auto.
Qed.

(** The stores of a successful [perform_move]. *)
Lemma perform_move_typed g m h g' h' :
  well_typed h ->
  Field.penguin (get_field (move (GameState.board g) m) (Move.to_value m))
    <> None ->
  GameState.perform_move g m h = (Ok g', h') ->
  exists nf h1 ns h2,
    pickle_roundtrip (GameState.first_team g) h = (Ok nf, h1) /\
    pickle_roundtrip (GameState.second_team g) h1 = (Ok ns, h2) /\
    well_typed h1 /\ well_typed h' /\ keeps_distinct h2 h' /\
    g' = GameState.mk (move (GameState.board g) m) (GameState.turn g + 1)
                      nf ns (Some m).
Proof.
  intros Hwt Hnew Hrun.
  destruct (perform_move_Ok _ _ _ _ _ Hrun)
    as (n & nf0 & ns0 & tf0 & ts0 & tf & ts & _ & _ & _ & _ & _ & _ & _ & _
        & Hf0 & Hs0 & _).
  destruct (perform_move_steps _ _ _ _ _ Hrun)
    as (nf & h1 & ns & h2 & team & h3 & h4
        & Hcf & Hcs & Hteam & Hup & Ha1 & Ha2 & ->).
  (* the copies *)
  pose proof (pickle_roundtrip_well_typed _ _ _ _ _ Hwt Hf0 Hcf) as Hw1.
  destruct (pickle_roundtrip_ok _ _ _ _ Hcf) as (Hp1 & _ & _ & Hcopy1).
  destruct (Hcopy1 _ Hf0) as (tf1 & Hf1 & _).
  assert (Hs1 : h1 !! GameState.second_team g = Some (OTeam ts0))
    by now apply (prefix_lookup_Some h).
  pose proof (pickle_roundtrip_well_typed _ _ _ _ _ Hw1 Hs1 Hcs) as Hw2.
  destruct (pickle_roundtrip_ok _ _ _ _ Hcs) as (Hp2 & _ & _ & Hcopy2).
  destruct (Hcopy2 _ Hs1) as (ts1 & Hs2 & _).
  assert (Hf2 : h2 !! nf = Some (OTeam tf1))
    by now apply (prefix_lookup_Some h1).
  (* the update and the opponents *)
  destruct (update_team_typed _ _ _ _ _ _ Hup Hw2 Hnew) as (Hw3 & Hg3 & Hk3).
  assert (Hnf3 : is_team h3 nf = true).
  { destruct (Hg3 nf) as (G & _). apply G. unfold is_team. now rewrite Hf2. }
  assert (Hns3 : is_team h3 ns = true).
  { destruct (Hg3 ns) as (G & _). apply G. unfold is_team. now rewrite Hs2. }
  destruct (assign_opponent_typed _ _ _ _ Ha1 Hw3 Hns3) as (Hw4 & Hg4 & Hk4).
  assert (Hnf4 : is_team h4 nf = true) by (destruct (Hg4 nf) as (G & _); auto).
  destruct (assign_opponent_typed _ _ _ _ Ha2 Hw4 Hnf4) as (Hw5 & Hg5 & Hk5).
  exists nf, h1, ns, h2.
  split; [exact Hcf|]. split; [exact Hcs|]. split; [exact Hw1|].
  split; [exact Hw5|]. split; [|reflexivity].
  apply (keeps_distinct_trans _ h3); [exact Hk3|].
  now apply (keeps_distinct_trans _ h4).
Qed.

(** X16: [perform_move] keeps the store well typed, and the penguins of
    each team of the successor are different objects when those of the
    corresponding team of the receiver are, provided [Board.move] leaves
    a penguin on the destination of the move. *)
Theorem perform_move_keeps_typing g m h g' h' :
  well_typed h ->
  Field.penguin (get_field (move (GameState.board g) m) (Move.to_value m))
    <> None ->
  GameState.perform_move g m h = (Ok g', h') ->
  well_typed h' /\
  (distinct_penguins h (GameState.first_team g) ->
   distinct_penguins h' (GameState.first_team g')) /\
  (distinct_penguins h (GameState.second_team g) ->
   distinct_penguins h' (GameState.second_team g')).
Proof.
  intros Hwt Hnew Hrun.
  destruct (perform_move_Ok _ _ _ _ _ Hrun)
    as (n & nf0 & ns0 & tf0 & ts0 & tf & ts & _ & _ & _ & _ & _ & _ & _ & _
        & Hf0 & Hs0 & _).
  destruct (perform_move_typed _ _ _ _ _ Hwt Hnew Hrun)
    as (nf & h1 & ns & h2 & Hcf & Hcs & Hw1 & Hw5 & Hk & ->).
  cbn [GameState.first_team GameState.second_team].
  destruct (pickle_roundtrip_ok _ _ _ _ Hcf) as (Hp1 & _).
  destruct (pickle_roundtrip_ok _ _ _ _ Hcs) as (Hp2 & _).
  assert (Hs1 : h1 !! GameState.second_team g = Some (OTeam ts0))
    by now apply (prefix_lookup_Some h).
  split; [exact Hw5|]. split.
  - intros Hd. apply (distinct_penguins_step h2); [|exact Hk].
    destruct (well_typed_team_view _ _ _ Hwt Hf0)
      as (items & vs & ms & Hi & Hms & Hvs & Hsome & _).
    destruct (pickle_roundtrip_shape _ _ _ _ _ _ _ _
                Hf0 Hi Hms Hvs Hsome Hcf)
      as (t' & items' & _ & Ht' & _ & _ & Hi' & _ & _ & Hnd).
    apply (distinct_penguins_prefix h1 h2 nf t' items'); auto.
    intros t0 items0 E1 E2. rewrite Ht' in E1. injection E1 as <-.
    rewrite Hi' in E2. injection E2 as <-. exact (Hnd (Hd _ _ Hf0 Hi)).
  - intros Hd. apply (distinct_penguins_step h2); [|exact Hk].
    destruct (well_typed_team_view _ _ _ Hw1 Hs1)
      as (items & vs & ms & Hi & Hms & Hvs & Hsome & _).
    destruct (pickle_roundtrip_shape _ _ _ _ _ _ _ _
                Hs1 Hi Hms Hvs Hsome Hcs)
      as (t' & items' & _ & Ht' & _ & _ & Hi' & _ & _ & Hnd).
    intros t0 items0 E1 E2. rewrite Ht' in E1. injection E1 as <-.
    rewrite Hi' in E2. injection E2 as <-. apply Hnd.
    assert (Hi0 : exists items0, h !! Team.penguins ts0
                                 = Some (OPenguinList items0)).
    { destruct (well_typed_team _ _ _ Hwt Hs0) as (Hex & _). exact Hex. }
    destruct Hi0 as (items0 & Hi0).
    rewrite (prefix_lookup_Some _ _ _ _ Hi0 Hp1) in Hi. injection Hi as <-.
    exact (Hd _ _ Hs0 Hi0).
Qed.

End Typing.

(** ** A legal move is carried out *)

Lemma deep_copy_S d l (memo : memo_t) :
  deep_copy (S d) l memo
  = match memo !! l with
    | Some l' => mret (l', memo)
    | None =>
        o ← query (fun h => deref h l);
        match o with
        | OPenguin p =>
            l' ← alloc (OPenguin p); mret (l', <[l:=l']> memo)
        | OMoveList ms =>
            l' ← alloc (OMoveList ms); mret (l', <[l:=l']> memo)
        | OPenguinList items =>
            l' ← alloc (OPenguinList []);
            '(items', memo') ← copy_items (deep_copy d) items (<[l:=l']> memo);
            store l' (OPenguinList items');;
            mret (l', memo')
        | OTeam t =>
            l' ← alloc OBlank;
            '(ps, memo1) ← deep_copy d (Team.penguins t) (<[l:=l']> memo);
            '(ms, memo2) ← deep_copy d (Team.moves t) memo1;
            '(opp, memo3) ← copy_opt (deep_copy d) (Team.opponent t) memo2;
            store l' (OTeam (Team.mk (Team.name t) (Team.fish t) ps ms opp));;
            mret (l', memo3)
        | OBlank =>
            l' ← alloc OBlank; mret (l', <[l:=l']> memo)
        end
    end.
Proof. reflexivity. Qed.

Lemma deep_copy_hit d l (memo : memo_t) (h : heap) l' :
  memo !! l = Some l' -> deep_copy (S d) l memo h = (Ok (l', memo), h).
Proof. intros Hm. simpl. now rewrite Hm. Qed.

Lemma copies_hit d l (memo : memo_t) (h : heap) l' :
  memo !! l = Some l' -> copies (deep_copy (S d) l memo) memo h.
Proof.
  intros Hm. exists l', memo, h. split; [now apply deep_copy_hit|].
  split; [reflexivity|auto].
Qed.

Lemma memo_insert_keeps (memo : memo_t) l l' :
  memo !! l = None ->
  forall x y, memo !! x = Some y -> <[l:=l']> memo !! x = Some y.
Proof.
  intros Hm x y Hx. rewrite lookup_insert_ne; [exact Hx|].
  intros ->. rewrite Hm in Hx. discriminate Hx.
Qed.

Lemma deep_copy_leaf_run d l (memo : memo_t) (h : heap) o :
  h !! l = Some o -> is_leaf o -> copies (deep_copy (S d) l memo) memo h.
Proof.
  intros Hl Ho. destruct (memo !! l) as [l0|] eqn:Hm;
    [exact (copies_hit _ _ _ _ _ Hm)|].
  unfold copies. simpl. rewrite Hm.
  rewrite (M_bind_run _ _ h o h); [|unfold query, deref; now rewrite Hl].
  destruct o as [t|p|items|ms|]; try destruct Ho.
  - exists (length h), (<[l:=length h]> memo), (h ++ [OPenguin p]).
    split; [reflexivity|]. split; [now apply prefix_app_r|].
    now apply memo_insert_keeps.
  - exists (length h), (<[l:=length h]> memo), (h ++ [OMoveList ms]).
    split; [reflexivity|]. split; [now apply prefix_app_r|].
    now apply memo_insert_keeps.
Qed.

Lemma copy_items_run d (h0 : heap) items :
  (forall x, In x items ->
             exists pl p, x = Some pl /\ h0 !! pl = Some (OPenguin p)) ->
  forall (memo : memo_t) (h : heap), h0 `prefix_of` h ->
    copies (copy_items (deep_copy (S d)) items memo) memo h.
Proof.
  induction items as [|[l|] rest IH]; intros Hitems memo h Hp.
  - exists [], memo, h. split; [reflexivity|]. split; [reflexivity|auto].
  - destruct (Hitems (Some l) (or_introl eq_refl)) as (pl & p & [= <-] & Hpl).
    destruct (deep_copy_leaf_run d l memo h (OPenguin p)
                (prefix_lookup_Some _ _ _ _ Hpl Hp) I)
      as (l1 & memo1 & h1 & Hrun1 & Hp1 & Hk1).
    destruct (IH (fun x Hx => Hitems x (or_intror Hx)) memo1 h1
                ltac:(now transitivity h))
      as (rest' & memo2 & h2 & Hrun2 & Hp2 & Hk2).
    exists (Some l1 :: rest'), memo2, h2. split.
    + cbn [copy_items]. rewrite (M_bind_run _ _ h (l1, memo1) h1 Hrun1).
      cbv beta iota.
      fold (copy_items (deep_copy (S d)) rest memo1).
      now rewrite (M_bind_run _ _ h1 (rest', memo2) h2 Hrun2).
    + split; [now transitivity h1|auto].
  - destruct (Hitems None (or_introl eq_refl)) as (pl & p & E & _).
    discriminate E.
Qed.

Lemma deep_copy_list_run d (h0 : heap) l items (memo : memo_t) (h : heap) :
  h0 !! l = Some (OPenguinList items) ->
  (forall x, In x items ->
             exists pl p, x = Some pl /\ h0 !! pl = Some (OPenguin p)) ->
  h0 `prefix_of` h ->
  copies (deep_copy (S (S d)) l memo) memo h.
Proof.
  intros Hl Hitems Hp. destruct (memo !! l) as [l0|] eqn:Hm;
    [exact (copies_hit _ _ _ _ _ Hm)|].
  destruct (copy_items_run d h0 items Hitems (<[l:=length h]> memo)
              (h ++ [OPenguinList []]) ltac:(now apply prefix_alloc))
    as (items' & memo1 & h1 & Hrun1 & Hp1 & Hk1).
  assert (Hlt : (length h < length h1)%nat).
  { apply prefix_length in Hp1. rewrite length_app in Hp1. simpl in Hp1. lia. }
  exists (length h), memo1, (<[length h:=OPenguinList items']> h1). split.
  - rewrite deep_copy_S.
    rewrite Hm.
    rewrite (M_bind_run _ _ h (OPenguinList items) h);
      [|unfold query, deref; now rewrite (prefix_lookup_Some _ _ _ _ Hl Hp)].
    rewrite (M_bind_run _ _ h (length h) (h ++ [OPenguinList []]));
      [|reflexivity].
    rewrite (M_bind_run _ _ _ (items', memo1) h1 Hrun1). cbv beta iota.
    rewrite (M_bind_run _ _ h1 tt (<[length h:=OPenguinList items']> h1));
      [reflexivity|now apply store_run].
  - split.
    + apply prefix_store; [|lia].
      transitivity (h ++ [OPenguinList []]); [now apply prefix_app_r|exact Hp1].
    + intros x y Hx. apply Hk1. now apply memo_insert_keeps.
Qed.

(** A team whose opponent, if any, has been copied already. *)
Lemma deep_copy_team_run d (h0 : heap) b tb (memo : memo_t) (h : heap) :
  well_typed h0 -> h0 !! b = Some (OTeam tb) ->
  (forall a, Team.opponent tb = Some a ->
             a = b \/ exists a', memo !! a = Some a') ->
  h0 `prefix_of` h ->
  copies (deep_copy (S (S (S d))) b memo) memo h.
Proof.
  intros Hwt Hb Hopp Hp. destruct (memo !! b) as [l0|] eqn:Hm;
    [exact (copies_hit _ _ _ _ _ Hm)|].
  destruct (well_typed_team _ _ _ Hwt Hb) as ((items & Hi) & (ms & Hms) & _).
  pose proof (well_typed_list _ _ _ Hwt Hi) as Hitems.
  set (l' := length h).
  assert (Hpa : h0 `prefix_of` h ++ [OBlank]) by now apply prefix_alloc.
  destruct (deep_copy_list_run d h0 _ items (<[b:=l']> memo) (h ++ [OBlank])
              Hi Hitems Hpa) as (ps & memo1 & h1 & Hrun1 & Hp1 & Hk1).
  assert (Hp01 : h0 `prefix_of` h1) by now transitivity (h ++ [OBlank]).
  destruct (deep_copy_leaf_run (S d) (Team.moves tb) memo1 h1 (OMoveList ms)
              (prefix_lookup_Some _ _ _ _ Hms Hp01) I)
    as (ms' & memo2 & h2 & Hrun2 & Hp2 & Hk2).
  assert (Hopp_run : exists opp,
    copy_opt (deep_copy (S (S d))) (Team.opponent tb) memo2 h2
      = (Ok (opp, memo2), h2)).
  { destruct (Team.opponent tb) as [a|] eqn:Eo; [|exists None; reflexivity].
    assert (Ha : exists a', memo2 !! a = Some a').
    { destruct (Hopp a eq_refl) as [-> | (a' & Ha')].
      - exists l'. apply Hk2, Hk1. apply lookup_insert_eq.
      - exists a'. apply Hk2, Hk1. now apply memo_insert_keeps. }
    destruct Ha as (a' & Ha'). exists (Some a'). unfold copy_opt.
    now rewrite (M_bind_run _ _ h2 (a', memo2) h2 (deep_copy_hit _ _ _ _ _ Ha')). }
  destruct Hopp_run as (opp & Hrun3).
  assert (Hlt : (l' < length h2)%nat).
  { apply prefix_length in Hp1, Hp2. rewrite length_app in Hp1. simpl in Hp1.
    unfold l'. lia. }
  set (t' := Team.mk (Team.name tb) (Team.fish tb) ps ms' opp).
  exists l', memo2, (<[l':=OTeam t']> h2). split.
  - rewrite deep_copy_S. rewrite Hm.
    rewrite (M_bind_run _ _ h (OTeam tb) h);
      [|unfold query, deref; now rewrite (prefix_lookup_Some _ _ _ _ Hb Hp)].
    rewrite (M_bind_run _ _ h l' (h ++ [OBlank])); [|reflexivity].
    rewrite (M_bind_run _ _ _ (ps, memo1) h1 Hrun1). cbv beta iota.
    rewrite (M_bind_run _ _ _ (ms', memo2) h2 Hrun2). cbv beta iota.
    rewrite (M_bind_run _ _ _ (opp, memo2) h2 Hrun3). cbv beta iota.
    rewrite (M_bind_run _ _ h2 tt (<[l':=OTeam t']> h2));
      [reflexivity|now apply store_run].
  - split.
    + apply prefix_store; [|unfold l'; lia].
      transitivity (h ++ [OBlank]); [now apply prefix_app_r|].
      now transitivity h1.
    + intros x y Hx. apply Hk2, Hk1. now apply memo_insert_keeps.
Qed.

(** A team and its opponent that know each other. *)
Lemma deep_copy_linked_run d (h0 : heap) a b (memo : memo_t) (h : heap) :
  well_typed h0 -> linked h0 a b -> h0 `prefix_of` h ->
  copies (deep_copy (S (S (S (S d)))) a memo) memo h.
Proof.
  intros Hwt (ta & tb & Ha & Hb & Eab & Eba) Hp.
  destruct (memo !! a) as [l0|] eqn:Hm;
    [exact (copies_hit _ _ _ _ _ Hm)|].
  destruct (well_typed_team _ _ _ Hwt Ha) as ((items & Hi) & (ms & Hms) & _).
  pose proof (well_typed_list _ _ _ Hwt Hi) as Hitems.
  set (l' := length h).
  assert (Hpa : h0 `prefix_of` h ++ [OBlank]) by now apply prefix_alloc.
  destruct (deep_copy_list_run (S d) h0 _ items (<[a:=l']> memo)
              (h ++ [OBlank]) Hi Hitems Hpa)
    as (ps & memo1 & h1 & Hrun1 & Hp1 & Hk1).
  assert (Hp01 : h0 `prefix_of` h1) by now transitivity (h ++ [OBlank]).
  destruct (deep_copy_leaf_run (S (S d)) (Team.moves ta) memo1 h1 (OMoveList ms)
              (prefix_lookup_Some _ _ _ _ Hms Hp01) I)
    as (ms' & memo2 & h2 & Hrun2 & Hp2 & Hk2).
  assert (Hp02 : h0 `prefix_of` h2) by now transitivity h1.
  assert (Hback : forall x, Team.opponent tb = Some x ->
                            x = b \/ exists x', memo2 !! x = Some x').
  { intros x Ex. rewrite Eba in Ex. injection Ex as <-. right.
    exists l'. apply Hk2, Hk1. apply lookup_insert_eq. }
  destruct (deep_copy_team_run d h0 b tb memo2 h2 Hwt Hb Hback Hp02)
    as (b' & memo3 & h3 & Hrun3 & Hp3 & Hk3).
  assert (Hlt : (l' < length h3)%nat).
  { apply prefix_length in Hp1, Hp2, Hp3. rewrite length_app in Hp1.
    simpl in Hp1. unfold l'. lia. }
  set (t' := Team.mk (Team.name ta) (Team.fish ta) ps ms' (Some b')).
  exists l', memo3, (<[l':=OTeam t']> h3). split.
  - rewrite deep_copy_S. rewrite Hm.
    rewrite (M_bind_run _ _ h (OTeam ta) h);
      [|unfold query, deref; now rewrite (prefix_lookup_Some _ _ _ _ Ha Hp)].
    rewrite (M_bind_run _ _ h l' (h ++ [OBlank])); [|reflexivity].
    rewrite (M_bind_run _ _ _ (ps, memo1) h1 Hrun1). cbv beta iota.
    rewrite (M_bind_run _ _ _ (ms', memo2) h2 Hrun2). cbv beta iota.
    rewrite (M_bind_run _ _ _ (Some b', memo3) h3).
    2:{ rewrite Eab. unfold copy_opt.
        now rewrite (M_bind_run _ _ h2 (b', memo3) h3 Hrun3). }
    cbv beta iota.
    rewrite (M_bind_run _ _ h3 tt (<[l':=OTeam t']> h3));
      [reflexivity|now apply store_run].
  - split.
    + apply prefix_store; [|unfold l'; lia].
      transitivity (h ++ [OBlank]); [now apply prefix_app_r|].
      transitivity h1; [exact Hp1|]. now transitivity h2.
    + intros x y Hx. apply Hk3, Hk2, Hk1. now apply memo_insert_keeps.
Qed.

(** The round trip of a team that knows its opponent returns. *)
Lemma pickle_roundtrip_run (h0 : heap) a b (h : heap) :
  well_typed h0 -> linked h0 a b -> h0 `prefix_of` h ->
  exists l' h', pickle_roundtrip a h = (Ok l', h').
Proof.
  intros Hwt Hlink Hp. unfold pickle_roundtrip.
  change recursion_limit with (S (S (S (S 996)))).
  destruct (deep_copy_linked_run 996 h0 a b ∅ h Hwt Hlink Hp)
    as (l' & memo' & h' & Hrun & _).
  exists l', h'. now rewrite (M_bind_run _ _ h (l', memo') h' Hrun).
Qed.

Section Returns.
Context {Board : Type} {board_api : BoardAPI Board} {move_api : MoveAPI}.
Implicit Types (g : GameState.t Board) (h : heap) (m : Move.t).

Lemma assign_opponent_run team other h t :
  h !! team = Some (OTeam t) ->
  GameState.assign_opponent team other h
    = (Ok tt, <[team:=OTeam (Team.set_opponent (Some other) t)]> h).
Proof.
  intros Ht. unfold GameState.assign_opponent.
  rewrite (M_bind_run _ _ h t h);
    [|unfold query; now rewrite (proj2 (get_team_Ok _ _ _) Ht)].
  apply store_run. now apply lookup_lt_Some in Ht.
Qed.

Lemma update_team_returns g team m nb h t :
  well_typed h -> h !! team = Some (OTeam t) ->
  Field.penguin (get_field nb (Move.to_value m)) <> None ->
  exists h', GameState._update_team g team m nb h = (Ok tt, h').
Proof.
  intros Hwt Ht Hnew.
  destruct (well_typed_team_view _ _ _ Hwt Ht)
    as (items & vs & ms & Hi & Hms & Hvs & Hsome & _).
  destruct (update_team_run g team m nb h t items ms vs
              Ht Hi Hms Hvs Hsome (fun _ => Hnew))
    as (h' & t' & Hrun & _).
  eauto.
Qed.

Lemma is_team_lookup h l : is_team h l = true -> exists t, h !! l = Some (OTeam t).
Proof. apply is_team_true. Qed.

(** A move that passes the guard is carried out: neither the copies nor
    the update raise. *)
Lemma perform_move_runs g m h :
  well_typed h ->
  linked h (GameState.first_team g) (GameState.second_team g) ->
  Field.penguin (get_field (move (GameState.board g) m) (Move.to_value m))
    <> None ->
  GameState.is_valid_move g h m = Ok true ->
  GameState.current_team_name g h = Ok (Move.team_enum m) ->
  exists g' h', GameState.perform_move g m h = (Ok g', h').
Proof.
  intros Hwt Hlink Hnew Hvalid Hname.
  pose proof Hlink as (tf0 & ts0 & Hf0 & Hs0 & Eo1 & Eo2).
  assert (Hlink' : linked h (GameState.second_team g) (GameState.first_team g))
    by (exists ts0, tf0; auto).
  (* the copies *)
  assert (Hp0 : h `prefix_of` h) by reflexivity.
  destruct (pickle_roundtrip_run h _ _ h Hwt Hlink Hp0) as (nf & h1 & Hcf).
  destruct (pickle_roundtrip_ok _ _ _ _ Hcf) as (Hp1 & _ & _ & Hcopy1).
  destruct (Hcopy1 _ Hf0) as (tf1 & Hf1 & _).
  pose proof (pickle_roundtrip_well_typed _ _ _ _ _ Hwt Hf0 Hcf) as Hw1.
  destruct (pickle_roundtrip_run h _ _ h1 Hwt Hlink' Hp1) as (ns & h2 & Hcs).
  assert (Hs1 : h1 !! GameState.second_team g = Some (OTeam ts0))
    by now apply (prefix_lookup_Some h).
  destruct (pickle_roundtrip_ok _ _ _ _ Hcs) as (Hp2 & _ & _ & Hcopy2).
  destruct (Hcopy2 _ Hs1) as (ts1 & Hs2 & _).
  pose proof (pickle_roundtrip_well_typed _ _ _ _ _ Hw1 Hs1 Hcs) as Hw2.
  assert (Hf2 : h2 !! nf = Some (OTeam tf1))
    by now apply (prefix_lookup_Some h1).
  assert (Hp02 : h `prefix_of` h2) by now transitivity h1.
  (* the update *)
  set (team := if bool_decide (Move.team_enum m = ONE) then nf else ns).
  assert (Hteam : exists t, h2 !! team = Some (OTeam t))
    by (unfold team; destruct (bool_decide _); eauto).
  destruct Hteam as (t & Hteam).
  destruct (update_team_returns g team m _ h2 t Hw2 Hteam Hnew)
    as (h3 & Hup).
  destruct (update_team_typed _ _ _ _ _ _ Hup Hw2 Hnew) as (_ & Hg3 & _).
  assert (Hnf3 : exists t3, h3 !! nf = Some (OTeam t3)).
  { apply is_team_lookup. destruct (Hg3 nf) as (G & _). apply G.
    unfold is_team. now rewrite Hf2. }
  destruct Hnf3 as (tf3 & Hnf3).
  assert (Hns3 : exists t3, h3 !! ns = Some (OTeam t3)).
  { apply is_team_lookup. destruct (Hg3 ns) as (G & _). apply G.
    unfold is_team. now rewrite Hs2. }
  destruct Hns3 as (ts3 & Hns3).
  (* the opponents *)
  pose proof (assign_opponent_run nf ns h3 tf3 Hnf3) as Ha1.
  set (h4 := <[nf:=OTeam (Team.set_opponent (Some ns) tf3)]> h3) in *.
  assert (Hns4 : exists t4, h4 !! ns = Some (OTeam t4)).
  { destruct (decide (ns = nf)) as [->|Hne].
    - eexists. unfold h4. apply list_lookup_insert_eq.
      now apply lookup_lt_Some in Hnf3.
    - exists ts3. unfold h4. now rewrite list_lookup_insert_ne by congruence. }
  destruct Hns4 as (ts4 & Hns4).
  pose proof (assign_opponent_run ns nf h4 ts4 Hns4) as Ha2.
  (* the call *)
  unfold GameState.perform_move.
  rewrite (M_bind_run _ _ h true h); [|unfold query; now rewrite Hvalid].
  rewrite (M_bind_run _ _ h true h).
  2:{ rewrite (M_bind_run _ _ h (Move.team_enum m) h);
        [|unfold query; now rewrite Hname].
      unfold mret, M_ret. now rewrite bool_decide_eq_true_2. }
  cbv beta iota zeta.
  rewrite (M_bind_run _ _ h nf h1 Hcf).
  rewrite (M_bind_run _ _ h1 ns h2 Hcs).
  rewrite (M_bind_run _ _ h2 (Move.team_enum m) h2);
    [|unfold query;
      now rewrite (current_team_name_prefix _ _ _ _ Hname Hp02)].
  rewrite (M_bind_run _ _ h2 tt h3).
  2:{ unfold team in Hup. destruct (bool_decide (Move.team_enum m = ONE));
        exact Hup. }
  rewrite (M_bind_run _ _ h3 tt h4 Ha1).
  rewrite (M_bind_run _ _ h4 tt _ Ha2).
  eexists _, _. reflexivity.
Qed.

Lemma moves_of_team_returns g h l t :
  h !! l = Some (OTeam t) -> exists pm, GameState.moves_of_team g h l = Ok pm.
Proof.
  intros Hl. unfold GameState.moves_of_team.
  rewrite (proj2 (get_team_Ok _ _ _) Hl). cbn [mbind result_bind].
  destruct (_ <? _)%nat; eauto.
Qed.

Lemma current_team_returns g h tf ts :
  h !! GameState.first_team g = Some (OTeam tf) ->
  h !! GameState.second_team g = Some (OTeam ts) ->
  exists ct, GameState.current_team g h = Ok ct.
Proof.
  intros Hf Hs.
  destruct (moves_of_team_returns g h _ _ Hf) as (pm1 & H1).
  destruct (moves_of_team_returns g h _ _ Hs) as (pm2 & H2).
  unfold GameState.current_team, GameState.current_team_from_turn.
  rewrite H1, H2. cbn [mbind result_bind]. destruct (_ =? _); eauto.
Qed.

(** The guard of [perform_move] is computed, one way or the other. *)
Lemma guard_cases g m h :
  linked h (GameState.first_team g) (GameState.second_team g) ->
  (GameState.is_valid_move g h m = Ok true /\
   GameState.current_team_name g h = Ok (Move.team_enum m))
  \/
  (GameState.is_valid_move g h m = Ok false \/
   exists n, GameState.is_valid_move g h m = Ok true /\
             GameState.current_team_name g h = Ok n /\
             n <> Move.team_enum m).
Proof.
  intros (tf0 & ts0 & Hf0 & Hs0 & _).
  destruct (current_team_returns g h _ _ Hf0 Hs0) as (ct & Hct).
  assert (Hpm : exists pm, GameState.possible_moves g h = Ok pm /\
                           (ct = None -> pm = [])).
  { unfold GameState.possible_moves. rewrite Hct. cbn [mbind result_bind].
    destruct ct as [l|].
    - rewrite get_possible_moves_Some.
      destruct (current_team_moves _ _ _ Hct) as (pm & Hpm).
      exists pm. split; [exact Hpm|]. intros E. discriminate E.
    - rewrite (get_possible_moves_None _ _ Hct). exists []. auto. }
  destruct Hpm as (pm & Hpm & Hnone).
  assert (Hvalid : GameState.is_valid_move g h m
                   = Ok (existsb (move_eq m) pm)).
  { unfold GameState.is_valid_move. now rewrite Hpm. }
  destruct (existsb (move_eq m) pm) eqn:Hex; [|now right; left].
  destruct ct as [l|]; [|rewrite (Hnone eq_refl) in Hex; discriminate Hex].
  assert (Hl : exists t, h !! l = Some (OTeam t)).
  { destruct (current_team_cases _ _ _ Hct) as [-> | ->]; eauto. }
  destruct Hl as (t & Hl).
  assert (Hname : GameState.current_team_name g h = Ok (Team.name t)).
  { unfold GameState.current_team_name. rewrite Hct. cbn [mbind result_bind].
    now rewrite (proj2 (get_team_Ok _ _ _) Hl). }
  destruct (decide (Team.name t = Move.team_enum m)) as [E|Hne].
  - left. rewrite E in Hname. auto.
  - right. right. eauto.
Qed.

(** X17: in a well-typed store where the two teams are each other's
    opponent, and with a board whose [move] leaves a penguin on the
    destination, [perform_move] returns a state when the move passes the
    guard, and raises [ValueError] with the store as it was when it does
    not; it raises nothing else. *)
Theorem perform_move_returns_or_rejects g m h :
  well_typed h ->
  linked h (GameState.first_team g) (GameState.second_team g) ->
  Field.penguin (get_field (move (GameState.board g) m) (Move.to_value m))
    <> None ->
  (GameState.is_valid_move g h m = Ok true /\
   GameState.current_team_name g h = Ok (Move.team_enum m) /\
   exists g' h', GameState.perform_move g m h = (Ok g', h'))
  \/
  ((GameState.is_valid_move g h m = Ok false \/
    exists n, GameState.current_team_name g h = Ok n /\
              n <> Move.team_enum m) /\
   GameState.perform_move g m h = (Raise ValueError, h)).
Proof.
  intros Hwt Hlink Hnew.
  destruct (guard_cases g m h Hlink)
    as [[Hv Hn] | [Hv | (n & Hv & Hn & Hne)]].
  - left. split; [exact Hv|]. split; [exact Hn|].
    now apply perform_move_runs.
  - right. split; [now left|]. now apply perform_move_rejects.
  - right. split; [right; eauto|].
    now apply (perform_move_rejects_team _ _ _ n).
Qed.

Lemma reachable_invariant g0 h0 g h :
  move_places_penguin ->
  well_typed h0 ->
  linked h0 (GameState.first_team g0) (GameState.second_team g0) ->
  reachable g0 h0 g h ->
  well_typed h /\
  linked h (GameState.first_team g) (GameState.second_team g).
Proof.
  intros Hplaces Hwt0 Hlink0 Hreach.
  induction Hreach as [|g h m g' h' Hreach [Hwt Hlink] Hrun];
    [split; assumption|].
  destruct (perform_move_typed _ _ _ _ _ Hwt (Hplaces _ _) Hrun)
    as (_ & _ & _ & _ & _ & _ & _ & Hw' & _).
  split; [exact Hw'|].
  destruct (perform_move_Ok _ _ _ _ _ Hrun)
    as (n & nf & ns & tf0 & ts0 & tf & ts & _ & _ & _ & -> & _ & _ & _ & _
        & _ & _ & Hnf & Hns & Eo1 & Eo2 & _).
  exists tf, ts. auto.
Qed.

(** X18: from a well-typed store where the two teams are each other's
    opponent, every state that successful calls of [perform_move] lead
    to has a well-typed store and teams that are each other's opponent,
    and [perform_move] on it returns a state or raises [ValueError] with
    the store as it was; the board's [move] has to leave a penguin on the
    destination. *)
Theorem reachable_states_are_safe g0 h0 g h m :
  move_places_penguin ->
  well_typed h0 ->
  linked h0 (GameState.first_team g0) (GameState.second_team g0) ->
  reachable g0 h0 g h ->
  well_typed h /\
  linked h (GameState.first_team g) (GameState.second_team g) /\
  ((exists g' h', GameState.perform_move g m h = (Ok g', h')) \/
   GameState.perform_move g m h = (Raise ValueError, h)).
Proof.
  intros Hplaces Hwt0 Hlink0 Hreach.
  destruct (reachable_invariant _ _ _ _ Hplaces Hwt0 Hlink0 Hreach)
    as [Hwt Hlink].
  split; [exact Hwt|]. split; [exact Hlink|].
  destruct (guard_cases g m h Hlink)
    as [[Hv Hn] | [Hv | (n & Hv & Hn & Hne)]].
  - left. apply perform_move_runs; auto.
  - right. now apply perform_move_rejects.
  - right. now apply (perform_move_rejects_team _ _ _ n).
Qed.

End Returns.

(** ** Witnesses of the further properties *)

Lemma heap1_well_typed : well_typed Example.heap1.
Proof. vm_compute. reflexivity. Defined.

Lemma heap1_distinct_first : distinct_penguins Example.heap1 0.
Proof.
  intros t items [= <-] [= <-].
  repeat (apply NoDup_cons_2; [rewrite list_elem_of_In; simpl; intuition discriminate|]).
  apply NoDup_nil_2.
Defined.

Lemma heap1_distinct_second : distinct_penguins Example.heap1 3.
Proof. intros t items [= <-] [= <-]. apply NoDup_nil_2. Defined.

Lemma perform_move_success_guard_witness :
  exists g' h',
    GameState.perform_move Example.opening Example.place_one Example.heap0
      = (Ok g', h') /\
    GameState.is_valid_move Example.opening Example.heap0 Example.place_one
      = Ok true /\
    GameState.current_team_name Example.opening Example.heap0 = Ok ONE.
Proof.
  do 2 eexists.
  assert (Hrun : GameState.perform_move Example.opening Example.place_one
                   Example.heap0 = (Ok _, _)) by (vm_compute; reflexivity).
  split; [exact Hrun|].
  exact (perform_move_success_guard _ _ _ _ _ Hrun).
Defined.

Lemma perform_move_successor_fields_witness :
  exists g' h',
    GameState.perform_move Example.midgame Example.slide_one Example.heap1
      = (Ok g', h') /\
    GameState.board g' = move Example.board1 Example.slide_one /\
    GameState.turn g' = 9 /\
    GameState.last_move g' = Some Example.slide_one.
Proof.
  do 2 eexists.
  assert (Hrun : GameState.perform_move Example.midgame Example.slide_one
                   Example.heap1 = (Ok _, _)) by (vm_compute; reflexivity).
  split; [exact Hrun|].
  exact (perform_move_successor_fields _ _ _ _ _ Hrun).
Defined.

Lemma perform_move_round_witness :
  exists g' h',
    GameState.perform_move Example.opening Example.place_one Example.heap0
      = (Ok g', h') /\
    GameState.round Example.opening = Ok 0 /\
    GameState.round g' = Ok 1.
Proof.
  do 2 eexists.
  assert (Hrun : GameState.perform_move Example.opening Example.place_one
                   Example.heap0 = (Ok _, _)) by (vm_compute; reflexivity).
  assert (Hround : GameState.round Example.opening = Ok 0)
    by (vm_compute; reflexivity).
  split; [exact Hrun|]. split; [exact Hround|].
  apply (perform_move_round _ _ _ _ _ 0 Hrun); [|exact Hround].
  vm_compute. split; discriminate.
Defined.

Lemma current_team_has_move_witness :
  (0%nat = GameState.first_team Example.opening
   \/ 0%nat = GameState.second_team Example.opening) /\
  exists m pm,
    GameState._get_possible_moves Example.opening Example.heap0 (Some 0%nat)
      = Ok (m :: pm).
Proof.
  apply (current_team_has_move Example.opening Example.heap0 0%nat).
  vm_compute. reflexivity.
Defined.

Lemma possible_moves_pass_guard_witness :
  GameState.is_valid_move Example.opening Example.heap0 Example.place_one
    = Ok true /\
  GameState.current_team_name Example.opening Example.heap0
    = Ok (Move.team_enum Example.place_one).
Proof.
  apply (possible_moves_pass_guard Example.opening Example.heap0
           [Move.mk ONE None (Example.hex 0 0);
            Move.mk ONE None (Example.hex 1 1)]
           Example.place_one (ref_slides_declare_team _)).
  - vm_compute. reflexivity.
  - vm_compute. reflexivity.
  - now left.
Defined.

Lemma terminal_no_other_team_witness :
  GameState.other_team Example.stuck Example.heap0 = Raise AttributeError /\
  GameState.opponent Example.stuck Example.heap0 None = Raise AttributeError.
Proof.
  apply (terminal_no_other_team Example.stuck Example.heap0).
  exact example_stuck_terminal.
Defined.

Lemma perform_move_opponent_queries_witness :
  exists g' h',
    GameState.perform_move Example.opening Example.place_one Example.heap0
      = (Ok g', h') /\
    GameState.opponent g' h' (Some (GameState.first_team g'))
      = Ok (Some (GameState.second_team g')) /\
    GameState.opponent g' h' (Some (GameState.second_team g'))
      = Ok (Some (GameState.first_team g')).
Proof.
  do 2 eexists.
  assert (Hrun : GameState.perform_move Example.opening Example.place_one
                   Example.heap0 = (Ok _, _)) by (vm_compute; reflexivity).
  destruct (perform_move_opponent_queries _ _ _ _ _ Hrun) as (H1 & H2 & _).
  split; [exact Hrun|]. split; [exact H1|exact H2].
Defined.

Lemma round_truncates_toward_zero_witness :
  - 2 ^ 53 < -4 + 1 < 2 ^ 53 /\
  GameState.round (GameState.mk Example.board0 (-4) 0%nat 3%nat None)
    = Ok (-1).
Proof.
  assert (Hrange : - 2 ^ 53 < -4 + 1 < 2 ^ 53) by (vm_compute; split; reflexivity).
  split; [exact Hrange|].
  exact (round_truncates_toward_zero
           (GameState.mk Example.board0 (-4) 0%nat 3%nat None) Hrange).
Defined.

Lemma round_accuracy_witness :
  exists r,
    GameState.round Example.late = Ok r /\
    Z.abs (2 * r - (GameState.turn Example.late + 1)) <= 1.
Proof.
  destruct (round_accuracy Example.late) as (r & Hr & Herr).
  - vm_compute. discriminate.
  - vm_compute. reflexivity.
  - exists r. split; [exact Hr|]. exact Herr.
Defined.

Lemma round_overflows_witness :
  GameState.round (GameState.mk Example.board0 (2 ^ 1025) 0%nat 3%nat None)
    = Raise OverflowError.
Proof.
  apply (round_overflows
           (GameState.mk Example.board0 (2 ^ 1025) 0%nat 3%nat None)).
  vm_compute. discriminate.
Defined.



Lemma update_team_missing_penguin_witness :
  exists h' v,
    team_view Example.heap1 0%nat = Ok v /\
    GameState._update_team Example.midgame 0%nat Example.slide_one
      Example.board1 Example.heap1 = (Raise AttributeError, h') /\
    team_view h' 0%nat
      = Ok (mk_view (view_name v) (view_fish v) (view_penguins v)
                    (view_moves v ++ [Example.slide_one])).
Proof.
  assert (Hv : team_view Example.heap1 0%nat = Ok _)
    by (vm_compute; reflexivity).
  destruct (update_team_missing_penguin Example.midgame 0%nat Example.slide_one
              Example.board1 Example.heap1 _ heap1_well_typed Hv)
    as (h' & Hrun & Hview).
  - vm_compute. reflexivity.
  - vm_compute. reflexivity.
  - exists h'. eexists. split; [exact Hv|]. split; [exact Hrun|exact Hview].
Defined.

Lemma perform_move_team_views_witness :
  exists g' h' vf vs,
    GameState.perform_move Example.midgame Example.slide_one Example.heap1
      = (Ok g', h') /\
    team_view Example.heap1 0%nat = Ok vf /\
    team_view Example.heap1 3%nat = Ok vs /\
    state_view g' h'
      = Ok (mk_state_view 9 (move Example.board1 Example.slide_one)
              (updated_view Example.midgame Example.slide_one
                 (move Example.board1 Example.slide_one) vf)
              vs).
Proof.
  do 4 eexists.
  assert (Hrun : GameState.perform_move Example.midgame Example.slide_one
                   Example.heap1 = (Ok _, _)) by (vm_compute; reflexivity).
  assert (Hvf : team_view Example.heap1 0%nat = Ok _)
    by (vm_compute; reflexivity).
  assert (Hvs : team_view Example.heap1 3%nat = Ok _)
    by (vm_compute; reflexivity).
  split; [exact Hrun|]. split; [exact Hvf|]. split; [exact Hvs|].
  exact (perform_move_team_views Example.midgame Example.slide_one
           Example.heap1 _ _ _ _ heap1_well_typed heap1_distinct_first
           heap1_distinct_second Hvf Hvs Hrun).
Defined.

Lemma heap0_well_typed : well_typed Example.heap0.
Proof. vm_compute. reflexivity. Defined.

Lemma heap0_linked :
  linked Example.heap0 (GameState.first_team Example.opening)
    (GameState.second_team Example.opening).
Proof.
  exists (Team.mk ONE 0 1%nat 2%nat (Some 3%nat)),
    (Team.mk TWO 0 4%nat 5%nat (Some 0%nat)).
  repeat split; reflexivity.
Defined.

Lemma ref_move_places_penguin : move_places_penguin (Board := RefBoard.t).
Proof.
  intros b m. simpl.
  unfold RefBoard.get_field, RefBoard.move, RefBoard.set_field. simpl.
  rewrite bool_decide_eq_true_2 by reflexivity. simpl. discriminate.
Defined.

Lemma perform_move_keeps_typing_witness :
  exists g' h',
    GameState.perform_move Example.midgame Example.slide_one Example.heap1
      = (Ok g', h') /\
    well_typed h' /\
    distinct_penguins h' (GameState.first_team g') /\
    distinct_penguins h' (GameState.second_team g').
Proof.
  do 2 eexists.
  assert (Hrun : GameState.perform_move Example.midgame Example.slide_one
                   Example.heap1 = (Ok _, _)) by (vm_compute; reflexivity).
  destruct (perform_move_keeps_typing _ _ _ _ _ heap1_well_typed
              (ref_move_places_penguin _ _) Hrun) as (Hw & Hd1 & Hd2).
  split; [exact Hrun|]. split; [exact Hw|].
  split; [exact (Hd1 heap1_distinct_first)|exact (Hd2 heap1_distinct_second)].
Defined.

Lemma perform_move_returns_or_rejects_witness :
  (GameState.is_valid_move Example.opening Example.heap0 Example.place_one
     = Ok true /\
   exists g' h',
     GameState.perform_move Example.opening Example.place_one Example.heap0
       = (Ok g', h')) /\
  GameState.perform_move Example.opening Example.place_two Example.heap0
    = (Raise ValueError, Example.heap0).
Proof.
  split.
  - destruct (perform_move_returns_or_rejects Example.opening
                Example.place_one Example.heap0 heap0_well_typed heap0_linked
                (ref_move_places_penguin _ _))
      as [(Hv & _ & Hex) | ([Hv | (n & Hn & Hne)] & _)].
    + split; [exact Hv|exact Hex].
    + vm_compute in Hv. discriminate Hv.
    + vm_compute in Hn. injection Hn as <-. now destruct Hne.
  - destruct (perform_move_returns_or_rejects Example.opening
                Example.place_two Example.heap0 heap0_well_typed heap0_linked
                (ref_move_places_penguin _ _))
      as [(_ & Hn & _) | (_ & Hrun)]; [|exact Hrun].
    vm_compute in Hn. discriminate Hn.
Defined.

Lemma reachable_states_are_safe_witness :
  exists g' h',
    GameState.perform_move Example.opening Example.place_one Example.heap0
      = (Ok g', h') /\
    well_typed h' /\
    linked h' (GameState.first_team g') (GameState.second_team g') /\
    ((exists g'' h'',
        GameState.perform_move g' Example.place_two h' = (Ok g'', h'')) \/
     GameState.perform_move g' Example.place_two h' = (Raise ValueError, h')).
Proof.
  do 2 eexists.
  assert (Hrun : GameState.perform_move Example.opening Example.place_one
                   Example.heap0 = (Ok _, _)) by (vm_compute; reflexivity).
  split; [exact Hrun|].
  exact (reachable_states_are_safe Example.opening Example.heap0 _ _
           Example.place_two ref_move_places_penguin heap0_well_typed
           heap0_linked
           (reach_move _ _ _ _ _ _ _ (reach_here _ _) Hrun)).
Defined.
